(** * Carrom Arena: match settlement, wallet ledger and event rules

    A shallow embedding of the automation core of the repository:

    - [Automation]: [src/automation.ts], the [SimpleAutomation] singleton
      (match map, wallet map, transaction log);
    - [Wallet]: [src/WalletProcessor.ts], class [WalletProcessor] (deposit
      and withdrawal queues, review timers, tickers);
    - [Events]: [src/WalletProcessor.ts], class [EventProcessor] (rule
      registry and priority dispatch);
    - [Game]: [src/GameProcessor.ts], class [GameProcessor] (match sweep,
      bet deduction, payout, refund).

    Conventions of the embedding.  Amounts are whole rupees, so the JavaScript
    [number]s are integers of [Z].  [Date.now()], [new Date()] and
    [Math.random()] are inputs of the operation that calls them; the calls
    made inside one synchronous method see the same clock value.  Console
    output is not modelled.  A JavaScript [Map] whose iteration order the
    code relies on is an insertion-ordered association list; one that is only
    read and written by key is a [gmap]. *)

From Stdlib Require Import ZArith String List Lia Permutation Sorted.
From stdpp Require Import base gmap list strings pretty.

Open Scope Z_scope.

(** * JavaScript: sort, truthiness, Map *)

Module JS.

(** [Array.prototype.sort] with a comparator: the sort is stable
    (ECMAScript 2019), and [a] stays before [b] unless [cmp a b > 0].
    The model is the stable insertion sort; [sort_unique] below shows that
    for the comparators of this code base any stable sort gives the same
    list. *)
Fixpoint insert {A : Type} (cmp : A -> A -> Z) (x : A) (l : list A) : list A :=
  match l with
  | [] => [x]
  | y :: l' => if 0 <? cmp x y then y :: insert cmp x l' else x :: y :: l'
  end.

Fixpoint sort {A : Type} (cmp : A -> A -> Z) (l : list A) : list A :=
  match l with
  | [] => []
  | x :: l' => insert cmp x (sort cmp l')
  end.

(** The comparator [(a, b) => key(b) - key(a)]: descending by [key]. *)
Definition descending {A : Type} (key : A -> Z) (a b : A) : Z := key b - key a.

(** The comparator [(a, b) => key(a) - key(b)]: ascending by [key]. *)
Definition ascending {A : Type} (key : A -> Z) (a b : A) : Z := key a - key b.

(** [x || 0] on a number that may be [undefined]. *)
Definition orZero (x : option Z) : Z := default 0 x.

(** Truthiness of an optional number: [undefined] and [0] are falsy. *)
Definition truthy (x : option Z) : bool :=
  match x with
  | Some v => negb (v =? 0)
  | None => false
  end.

(** A [Map] with string keys, in insertion order: [set] on a key that is
    present replaces the value in place, on a new key appends. *)
Fixpoint map_get {V : Type} (k : string) (m : list (string * V)) : option V :=
  match m with
  | [] => None
  | (k', v) :: m' => if String.eqb k' k then Some v else map_get k m'
  end.

Fixpoint map_set {V : Type} (k : string) (v : V) (m : list (string * V))
  : list (string * V) :=
  match m with
  | [] => [(k, v)]
  | (k', v') :: m' =>
      if String.eqb k' k then (k, v) :: m' else (k', v') :: map_set k v m'
  end.

Definition map_delete {V : Type} (k : string) (m : list (string * V))
  : list (string * V) :=
  List.filter (fun e => negb (String.eqb (fst e) k)) m.

Definition map_values {V : Type} (m : list (string * V)) : list V :=
  List.map snd m.

End JS.

(** * src/automation.ts *)

Module Automation.

Inductive MatchStatus := MPending | MActive | MCompleted.

Record MatchData := mkMatch {
  m_id : string;
  player1 : string;
  player2 : string;
  betAmount : Z;
  winner : option string;
  m_status : MatchStatus;
  startTime : Z;
  endTime : option Z
}.

Inductive TxType := TDeposit | TWithdrawal | TBet | TWin | TFee.
Inductive TxStatus := SPending | SCompleted | SFailed.

Record WalletTransaction := mkTx {
  t_id : string;
  userId : string;
  t_type : TxType;
  amount : Z;
  t_status : TxStatus;
  timestamp : Z
}.

Record SimpleAutomation := mkAuto {
  matches : gmap string MatchData;
  wallets : gmap string Z;
  transactions : list WalletTransaction
}.

(** [new SimpleAutomation()]. *)
Definition init : SimpleAutomation :=
  {| matches := ∅; wallets := ∅; transactions := [] |}.

Definition TxType_eqb (a b : TxType) : bool :=
  match a, b with
  | TDeposit, TDeposit | TWithdrawal, TWithdrawal | TBet, TBet
  | TWin, TWin | TFee, TFee => true
  | _, _ => false
  end.

Definition TxStatus_eqb (a b : TxStatus) : bool :=
  match a, b with
  | SPending, SPending | SCompleted, SCompleted | SFailed, SFailed => true
  | _, _ => false
  end.

Definition MatchStatus_eqb (a b : MatchStatus) : bool :=
  match a, b with
  | MPending, MPending | MActive, MActive | MCompleted, MCompleted => true
  | _, _ => false
  end.

(** ** Wallet management *)

Definition getWalletBalance (s : SimpleAutomation) (user : string) : Z :=
  JS.orZero (wallets s !! user).

Definition setWallet (s : SimpleAutomation) (user : string) (v : Z)
  : SimpleAutomation :=
  {| matches := matches s;
     wallets := <[user := v]> (wallets s);
     transactions := transactions s |}.

Definition creditToWallet (user : string) (amt : Z) (s : SimpleAutomation)
  : SimpleAutomation :=
  let currentBalance := getWalletBalance s user in
  setWallet s user (currentBalance + amt).

Definition deductFromWallet (user : string) (amt : Z) (s : SimpleAutomation)
  : bool * SimpleAutomation :=
  let currentBalance := getWalletBalance s user in
  if amt <=? currentBalance
  then (true, setWallet s user (currentBalance - amt))
  else (false, s).

(** ** Transaction management *)

Definition logTransaction (t : WalletTransaction) (s : SimpleAutomation)
  : SimpleAutomation :=
  {| matches := matches s;
     wallets := wallets s;
     transactions := transactions s ++ [t] |}.

Definition getTransactionHistory (s : SimpleAutomation) (user : string)
  : list WalletTransaction :=
  JS.sort (JS.descending timestamp)
    (List.filter (fun t => String.eqb (userId t) user) (transactions s)).

(** ** Match management *)

Definition setMatch (s : SimpleAutomation) (k : string) (m : MatchData)
  : SimpleAutomation :=
  {| matches := <[k := m]> (matches s);
     wallets := wallets s;
     transactions := transactions s |}.

(** [createMatch(player1, player2, betAmount)].  [matchId] is the string
    built from [Date.now()] and [Math.random()], [now] the clock; a caller
    that omits [betAmount] passes the default, 10.  The results of the two
    [deductFromWallet] calls are dropped, as in the source. *)
Definition createMatch (matchId : string) (now : Z)
    (p1 p2 : string) (bet : Z) (s : SimpleAutomation)
  : string * SimpleAutomation :=
  let m := {| m_id := matchId; player1 := p1; player2 := p2;
              betAmount := bet; winner := None; m_status := MPending;
              startTime := now; endTime := None |} in
  let s1 := setMatch s matchId m in
  let s2 := snd (deductFromWallet p1 bet s1) in
  let s3 := snd (deductFromWallet p2 bet s2) in
  (matchId, s3).

Definition winnerPayout : Z := 16.
Definition serverFee : Z := 4.
Definition developer : string := "developer".

Definition winTx (matchId winnerId : string) (now : Z) : WalletTransaction :=
  {| t_id := "win_" +:+ matchId; userId := winnerId; t_type := TWin;
     amount := winnerPayout; t_status := SCompleted; timestamp := now |}.

Definition feeTx (matchId : string) (now : Z) : WalletTransaction :=
  {| t_id := "fee_" +:+ matchId; userId := developer; t_type := TFee;
     amount := serverFee; t_status := SCompleted; timestamp := now |}.

(** [completeMatch(matchId, winnerId)]. *)
Definition completeMatch (now : Z) (matchId winnerId : string)
    (s : SimpleAutomation) : SimpleAutomation :=
  match matches s !! matchId with
  | None => s
  | Some m =>
      let m' := {| m_id := m_id m; player1 := player1 m; player2 := player2 m;
                   betAmount := betAmount m; winner := Some winnerId;
                   m_status := MCompleted; startTime := startTime m;
                   endTime := Some now |} in
      let s1 := setMatch s matchId m' in
      let s2 := creditToWallet winnerId winnerPayout s1 in
      let s3 := creditToWallet developer serverFee s2 in
      let s4 := logTransaction (winTx matchId winnerId now) s3 in
      logTransaction (feeTx matchId now) s4
  end.

(** [initializeDeveloperWallet()]. *)
Definition initializeDeveloperWallet (s : SimpleAutomation) : SimpleAutomation :=
  setWallet s developer 10000.

(** ** The public interface as a transition system

    The calls that the request layer ([route.ts]) and any other holder of
    the singleton can make and that change the state. *)
Inductive Call :=
| CreateMatch (matchId : string) (now : Z) (p1 p2 : string) (bet : Z)
| CompleteMatch (now : Z) (matchId winnerId : string)
| CreditToWallet (user : string) (amt : Z)
| DeductFromWallet (user : string) (amt : Z)
| InitializeDeveloperWallet.

Definition exec (c : Call) (s : SimpleAutomation) : SimpleAutomation :=
  match c with
  | CreateMatch matchId now p1 p2 bet => snd (createMatch matchId now p1 p2 bet s)
  | CompleteMatch now matchId winnerId => completeMatch now matchId winnerId s
  | CreditToWallet user amt => creditToWallet user amt s
  | DeductFromWallet user amt => snd (deductFromWallet user amt s)
  | InitializeDeveloperWallet => initializeDeveloperWallet s
  end.

Definition run (cs : list Call) (s : SimpleAutomation) : SimpleAutomation :=
  fold_left (fun st c => exec c st) cs s.

Inductive reachable : SimpleAutomation -> Prop :=
| reach_init : reachable init
| reach_step c s : reachable s -> reachable (exec c s).

(** ** The ledger of a match

    [WalletTransaction] has no [matchId] field; the entries that
    [completeMatch] logs for a match carry its id in theirs, [win_<id>] and
    [fee_<id>]. *)
Definition ofMatch (matchId : string) (t : WalletTransaction) : bool :=
  String.eqb (t_id t) ("win_" +:+ matchId)
  || String.eqb (t_id t) ("fee_" +:+ matchId).

Definition sumAmounts (l : list WalletTransaction) : Z :=
  fold_right (fun t acc => amount t + acc) 0 l.

Definition matchLedger (s : SimpleAutomation) (matchId : string)
  : list WalletTransaction :=
  List.filter (fun t => ofMatch matchId t && TxStatus_eqb (t_status t) SCompleted)
    (transactions s).

Definition ledgerSum (s : SimpleAutomation) (matchId : string) : Z :=
  sumAmounts (matchLedger s matchId).

(** ** System status *)

Record SystemStatus := mkStatus {
  totalMatches : nat;
  activeMatches : nat;
  totalUsers : nat;
  totalTransactions : nat;
  systemHealth : string;
  uptime : Z;
  version : string
}.

(** [getSystemStatus()]; [now] is [Date.now()].  The count of the active
    matches does not depend on the order of [matches.values()]. *)
Definition getSystemStatus (now : Z) (s : SimpleAutomation) : SystemStatus :=
  {| totalMatches := size (matches s);
     activeMatches :=
       length (List.filter (fun m => MatchStatus_eqb (m_status m) MActive)
                 (List.map snd (map_to_list (matches s))));
     totalUsers := size (wallets s);
     totalTransactions := length (transactions s);
     systemHealth := "operational";
     uptime := now;
     version := "1.0.0" |}.

End Automation.

(** * src/WalletProcessor.ts: class WalletProcessor *)

Module Wallet.

(** The [Transaction] type is imported from [@/types/game], which is not
    among the sources; the record has the fields this class reads and
    writes, except the untyped payloads ([metadata], [bankDetails]) that
    nothing reads. *)
Inductive TxType := TDeposit | TWithdrawal | TServerFee.
Inductive TxStatus := SPending | SCompleted | SFailed | SReview.

Record Transaction := mkTx {
  id : string;
  playerId : string;
  type : TxType;
  amount : Z;
  status : TxStatus;
  timestamp : Z;
  paymentMethod : option string;
  matchId : option string;
  completedAt : option Z;
  error : option string;
  retryCount : option Z
}.

Record WalletConfig := mkConfig {
  minDeposit : Z;
  maxDeposit : Z;
  minWithdrawal : Z;
  maxWithdrawal : Z;
  processingDelay : Z;
  autoApprovalLimit : Z;
  developerWalletId : string
}.

Definition config : WalletConfig :=
  {| minDeposit := 10; maxDeposit := 2000;
     minWithdrawal := 10; maxWithdrawal := 2000;
     processingDelay := 5000; autoApprovalLimit := 500;
     developerWalletId := "dev_wallet_main" |}.

(** Transaction objects are shared: the same object sits in a pending
    queue, in the transaction map and in the closure of a review timer, and
    is mutated in place.  Objects live in a heap and are named by
    reference. *)
Definition ref := nat.
Definition handle := nat.

Record WalletState := mkState {
  transactions : list (string * ref);
  playerBalances : gmap string Z;
  pendingDeposits : list ref;
  pendingWithdrawals : list ref;
  developerBalance : Z;
  totalVolume : Z;
  totalFees : Z
}.

(** What a timer of the JavaScript runtime runs when it fires. *)
Inductive Ticker :=
  Deposits | Withdrawals | Balance | Validation | Fees | Cleanup.

Inductive Task :=
| Tick (t : Ticker)            (* a [setInterval] of the start method *)
| ReviewApproval (w : ref)     (* the [setTimeout] of queueForManualReview *)
| BankTransferDone (w : ref)   (* the [setTimeout] of simulateBankTransfer *)
| Restarting.                  (* the [setTimeout] of restart *)

Record WalletProcessor := mkProc {
  state : WalletState;
  intervals : list (string * handle);
  isRunning : bool;
  (* the runtime: object heap and timer table *)
  heap : gmap ref Transaction;
  nextRef : ref;
  timers : list (handle * Task);
  nextHandle : handle
}.

(** ** Field updates *)

Definition withState (f : WalletState -> WalletState) (p : WalletProcessor)
  : WalletProcessor :=
  mkProc (f (state p)) (intervals p) (isRunning p)
         (heap p) (nextRef p) (timers p) (nextHandle p).

Definition withIntervals (v : list (string * handle)) (p : WalletProcessor) :=
  mkProc (state p) v (isRunning p) (heap p) (nextRef p) (timers p) (nextHandle p).

Definition withRunning (v : bool) (p : WalletProcessor) :=
  mkProc (state p) (intervals p) v (heap p) (nextRef p) (timers p) (nextHandle p).

Definition withTimers (v : list (handle * Task)) (p : WalletProcessor) :=
  mkProc (state p) (intervals p) (isRunning p) (heap p) (nextRef p) v (nextHandle p).

(** Assignment to fields of the object [r]. *)
Definition mutate (r : ref) (f : Transaction -> Transaction) (p : WalletProcessor) :=
  mkProc (state p) (intervals p) (isRunning p)
         (alter f r (heap p)) (nextRef p) (timers p) (nextHandle p).

(** A new object. *)
Definition alloc (t : Transaction) (p : WalletProcessor) : ref * WalletProcessor :=
  (nextRef p,
   mkProc (state p) (intervals p) (isRunning p)
          (<[nextRef p := t]> (heap p)) (S (nextRef p)) (timers p) (nextHandle p)).

Definition setStatus (v : TxStatus) (t : Transaction) : Transaction :=
  mkTx (id t) (playerId t) (type t) (amount t) v (timestamp t)
       (paymentMethod t) (matchId t) (completedAt t) (error t) (retryCount t).

Definition setCompletedAt (v : Z) (t : Transaction) : Transaction :=
  mkTx (id t) (playerId t) (type t) (amount t) (status t) (timestamp t)
       (paymentMethod t) (matchId t) (Some v) (error t) (retryCount t).

Definition setError (v : string) (t : Transaction) : Transaction :=
  mkTx (id t) (playerId t) (type t) (amount t) (status t) (timestamp t)
       (paymentMethod t) (matchId t) (completedAt t) (Some v) (retryCount t).

Definition setRetryCount (v : Z) (t : Transaction) : Transaction :=
  mkTx (id t) (playerId t) (type t) (amount t) (status t) (timestamp t)
       (paymentMethod t) (matchId t) (completedAt t) (error t) (Some v).

Definition setTransactions v (s : WalletState) :=
  mkState v (playerBalances s) (pendingDeposits s) (pendingWithdrawals s)
          (developerBalance s) (totalVolume s) (totalFees s).

Definition setPlayerBalances v (s : WalletState) :=
  mkState (transactions s) v (pendingDeposits s) (pendingWithdrawals s)
          (developerBalance s) (totalVolume s) (totalFees s).

Definition setPendingDeposits v (s : WalletState) :=
  mkState (transactions s) (playerBalances s) v (pendingWithdrawals s)
          (developerBalance s) (totalVolume s) (totalFees s).

Definition setPendingWithdrawals v (s : WalletState) :=
  mkState (transactions s) (playerBalances s) (pendingDeposits s) v
          (developerBalance s) (totalVolume s) (totalFees s).

Definition setDeveloperBalance v (s : WalletState) :=
  mkState (transactions s) (playerBalances s) (pendingDeposits s)
          (pendingWithdrawals s) v (totalVolume s) (totalFees s).

Definition setTotalVolume v (s : WalletState) :=
  mkState (transactions s) (playerBalances s) (pendingDeposits s)
          (pendingWithdrawals s) (developerBalance s) v (totalFees s).

Definition setTotalFees v (s : WalletState) :=
  mkState (transactions s) (playerBalances s) (pendingDeposits s)
          (pendingWithdrawals s) (developerBalance s) (totalVolume s) v.

Definition TxStatus_eqb (a b : TxStatus) : bool :=
  match a, b with
  | SPending, SPending | SCompleted, SCompleted
  | SFailed, SFailed | SReview, SReview => true
  | _, _ => false
  end.

Definition TxType_eqb (a b : TxType) : bool :=
  match a, b with
  | TDeposit, TDeposit | TWithdrawal, TWithdrawal
  | TServerFee, TServerFee => true
  | _, _ => false
  end.

(** ** The timer table; a browser numbers its timers from 1 *)

Definition setTimer (task : Task) (p : WalletProcessor) : handle * WalletProcessor :=
  (nextHandle p,
   mkProc (state p) (intervals p) (isRunning p) (heap p) (nextRef p)
          (timers p ++ [(nextHandle p, task)]) (S (nextHandle p))).

(** [clearInterval] and [clearTimeout] act on the same table. *)
Definition clearInterval (h : handle) (p : WalletProcessor) : WalletProcessor :=
  withTimers (List.filter (fun e => negb (Nat.eqb (fst e) h)) (timers p)) p.

Definition timerTask (h : handle) (p : WalletProcessor) : option Task :=
  snd <$> List.find (fun e => Nat.eqb (fst e) h) (timers p).

(** ** Helper methods *)

Definition getPlayerBalance (p : WalletProcessor) (player : string) : Z :=
  JS.orZero (playerBalances (state p) !! player).

Definition getDeveloperBalance (p : WalletProcessor) : Z :=
  developerBalance (state p).

Definition storeTransaction (r : ref) (p : WalletProcessor) : WalletProcessor :=
  match heap p !! r with
  | Some t => withState (fun s => setTransactions
                           (JS.map_set (id t) r (transactions s)) s) p
  | None => p
  end.

Definition failTransaction (now : Z) (r : ref) (reason : string)
    (p : WalletProcessor) : WalletProcessor :=
  let p1 := mutate r (fun t => setCompletedAt now (setError reason (setStatus SFailed t))) p in
  storeTransaction r p1.

Definition retryTransaction (now : Z) (r : ref) (p : WalletProcessor)
  : WalletProcessor :=
  let p1 := mutate r (fun t =>
              setRetryCount (JS.orZero (retryCount t) + 1) (setStatus SPending t)) p in
  match heap p1 !! r with
  | None => p1
  | Some t =>
      if 3 <? JS.orZero (retryCount t)
      then failTransaction now r "Max retries exceeded" p1
      else match type t with
           | TDeposit =>
               withState (fun s => setPendingDeposits (pendingDeposits s ++ [r]) s) p1
           | TWithdrawal =>
               withState (fun s => setPendingWithdrawals (pendingWithdrawals s ++ [r]) s) p1
           | TServerFee => p1
           end
  end.

Definition simulateBankTransfer (r : ref) (p : WalletProcessor) : WalletProcessor :=
  snd (setTimer (BankTransferDone r) p).

(** ** Deposits *)

Definition approveDeposit (now : Z) (r : ref) (p : WalletProcessor)
  : WalletProcessor :=
  match heap p !! r with
  | None => p
  | Some t =>
      let currentBalance := getPlayerBalance p (playerId t) in
      let p1 := withState (fun s => setPlayerBalances
                  (<[playerId t := currentBalance + amount t]> (playerBalances s)) s) p in
      let p2 := mutate r (fun t => setCompletedAt now (setStatus SCompleted t)) p1 in
      let p3 := storeTransaction r p2 in
      withState (fun s => setTotalVolume (totalVolume s + amount t) s) p3
  end.

(** [gatewayOk] is the outcome of [simulatePaymentGateway], which draws a
    random number. *)
Definition processDepositTransaction (now : Z) (gatewayOk : bool) (r : ref)
    (p : WalletProcessor) : WalletProcessor :=
  match heap p !! r with
  | None => p
  | Some t =>
      if (amount t <? minDeposit config) || (maxDeposit config <? amount t)
      then failTransaction now r ("Invalid amount: ₹" +:+ pretty (amount t)) p
      else if gatewayOk
           then approveDeposit now r p
           else failTransaction now r "Payment gateway failed" p
  end.

(** [forEach] over a batch; [gw i] is the gateway outcome for the i-th
    element. *)
Fixpoint processDeposits (now : Z) (gw : nat -> bool) (i : nat) (batch : list ref)
    (p : WalletProcessor) : WalletProcessor :=
  match batch with
  | [] => p
  | r :: rest =>
      processDeposits now gw (S i) rest (processDepositTransaction now (gw i) r p)
  end.

Definition processAutomaticDeposits (now : Z) (gw : nat -> bool)
    (p : WalletProcessor) : WalletProcessor :=
  match pendingDeposits (state p) with
  | [] => p
  | depositsToProcess =>
      let p1 := withState (setPendingDeposits []) p in
      processDeposits now gw 0 depositsToProcess p1
  end.

(** ** Withdrawals *)

Definition approveWithdrawal (now : Z) (r : ref) (p : WalletProcessor)
  : WalletProcessor :=
  match heap p !! r with
  | None => p
  | Some t =>
      let currentBalance := getPlayerBalance p (playerId t) in
      let p1 := withState (fun s => setPlayerBalances
                  (<[playerId t := currentBalance + amount t]> (playerBalances s)) s) p in
      let p2 := mutate r (fun t => setCompletedAt now (setStatus SCompleted t)) p1 in
      let p3 := storeTransaction r p2 in
      let p4 := withState (fun s => setTotalVolume (totalVolume s + Z.abs (amount t)) s) p3 in
      simulateBankTransfer r p4
  end.

Definition queueForManualReview (r : ref) (p : WalletProcessor) : WalletProcessor :=
  let p1 := mutate r (setStatus SReview) p in
  let p2 := storeTransaction r p1 in
  snd (setTimer (ReviewApproval r) p2).

Definition processWithdrawalTransaction (now : Z) (r : ref) (p : WalletProcessor)
  : WalletProcessor :=
  match heap p !! r with
  | None => p
  | Some t =>
      if (amount t <? minWithdrawal config) || (maxWithdrawal config <? amount t)
      then failTransaction now r ("Invalid amount: ₹" +:+ pretty (amount t)) p
      else
        let currentBalance := getPlayerBalance p (playerId t) in
        if currentBalance <? Z.abs (amount t)
        then failTransaction now r "Insufficient balance" p
        else if Z.abs (amount t) <=? autoApprovalLimit config
             then approveWithdrawal now r p
             else queueForManualReview r p
  end.

Definition processAutomaticWithdrawals (now : Z) (p : WalletProcessor)
  : WalletProcessor :=
  match pendingWithdrawals (state p) with
  | [] => p
  | withdrawalsToProcess =>
      let p1 := withState (setPendingWithdrawals []) p in
      fold_left (fun q r => processWithdrawalTransaction now r q)
        withdrawalsToProcess p1
  end.

(** ** Balance synchronization: reads only *)

Definition calculateExpectedTotal (p : WalletProcessor) : Z :=
  fold_left (fun expected r =>
               match heap p !! r with
               | Some t => if TxStatus_eqb (status t) SCompleted
                           then expected + amount t else expected
               | None => expected
               end)
            (JS.map_values (transactions (state p))) 0.

Definition totalPlayerBalances (p : WalletProcessor) : Z :=
  map_fold (fun _ balance total => total + balance) 0 (playerBalances (state p)).

(** The discrepancy that [validateBalanceIntegrity] warns about when it
    exceeds 1; it changes nothing. *)
Definition balanceDifference (p : WalletProcessor) : Z :=
  Z.abs (totalPlayerBalances p - calculateExpectedTotal p).

Definition synchronizeBalances (p : WalletProcessor) : WalletProcessor := p.

(** ** Transaction validation

    Every entry of the transaction map is stored under the id of its
    object, so the steps of these loops replace no entry and add none: a
    [forEach] visits the entries present at its start. *)

Definition handleStuckTransaction (now : Z) (r : ref) (p : WalletProcessor)
  : WalletProcessor :=
  match heap p !! r with
  | None => p
  | Some t =>
      match type t with
      | TDeposit => retryTransaction now r p
      | _ => failTransaction now r "Transaction timeout" p
      end
  end.

Definition validateTransactions (now : Z) (p : WalletProcessor) : WalletProcessor :=
  fold_left (fun q r =>
               match heap q !! r with
               | Some t =>
                   if TxStatus_eqb (status t) SPending && (300000 <? now - timestamp t)
                   then handleStuckTransaction now r q else q
               | None => q
               end)
            (JS.map_values (transactions (state p))) p.

(** ** Fee collection *)

Definition collectSystemFees (p : WalletProcessor) : WalletProcessor :=
  let feeTransactions :=
    List.filter (fun r => match heap p !! r with
                          | Some t => TxType_eqb (type t) TServerFee
                                      && TxStatus_eqb (status t) SPending
                          | None => false
                          end)
                (JS.map_values (transactions (state p))) in
  let step (acc : Z * WalletProcessor) (r : ref) :=
    let '(total, q) := acc in
    match heap q !! r with
    | Some t =>
        (total + amount t,
         mutate r (setStatus SCompleted)
           (withState (fun s => setDeveloperBalance (developerBalance s + amount t) s) q))
    | None => acc
    end in
  let '(total, p1) := fold_left step feeTransactions (0, p) in
  if 0 <? total
  then withState (fun s => setTotalFees (totalFees s + total) s) p1
  else p1.

(** ** Cleanup *)

Definition cleanupWalletData (now : Z) (p : WalletProcessor) : WalletProcessor :=
  let thirtyDaysAgo := now - 30 * 24 * 60 * 60 * 1000 in
  fold_left (fun q e =>
               match heap q !! (snd e) with
               | Some t =>
                   if TxStatus_eqb (status t) SCompleted && (timestamp t <? thirtyDaysAgo)
                   then withState (fun s => setTransactions
                                     (JS.map_delete (fst e) (transactions s)) s) q
                   else q
               | None => q
               end)
            (transactions (state p)) p.

(** ** Public API *)

(** [txId] is the id built from [Date.now()] and [Math.random()]. *)
Definition processDeposit (txId : string) (now : Z) (player : string) (amt : Z)
    (method : string) (p : WalletProcessor) : ref * WalletProcessor :=
  let deposit := mkTx txId player TDeposit amt SPending now
                      (Some method) None None None None in
  let '(r, p1) := alloc deposit p in
  (r, withState (fun s => setPendingDeposits (pendingDeposits s ++ [r]) s) p1).

Definition processWithdrawal (txId : string) (now : Z) (player : string) (amt : Z)
    (p : WalletProcessor) : ref * WalletProcessor :=
  let withdrawal := mkTx txId player TWithdrawal (- amt) SPending now
                         None None None None None in
  let '(r, p1) := alloc withdrawal p in
  (r, withState (fun s => setPendingWithdrawals (pendingWithdrawals s ++ [r]) s) p1).

Definition addServerFee (now : Z) (matchId : string) (amt : Z) (p : WalletProcessor)
  : WalletProcessor :=
  let feeTransaction :=
    mkTx ("fee_" +:+ matchId +:+ "_" +:+ pretty now) (developerWalletId config)
         TServerFee amt SPending now None (Some matchId) None None None in
  let '(r, p1) := alloc feeTransaction p in
  storeTransaction r p1.

(** ** Lifecycle *)

Definition startAutomatedWalletProcessing (p : WalletProcessor) : WalletProcessor :=
  if isRunning p then p
  else
    let p0 := withRunning true p in
    let '(depositProcessor, p1) := setTimer (Tick Deposits) p0 in
    let '(withdrawalProcessor, p2) := setTimer (Tick Withdrawals) p1 in
    let '(balanceSync, p3) := setTimer (Tick Balance) p2 in
    let '(validationProcessor, p4) := setTimer (Tick Validation) p3 in
    let '(feeCollector, p5) := setTimer (Tick Fees) p4 in
    let '(cleanupProcessor, p6) := setTimer (Tick Cleanup) p5 in
    withIntervals
      (JS.map_set "cleanup" cleanupProcessor
        (JS.map_set "fees" feeCollector
          (JS.map_set "validation" validationProcessor
            (JS.map_set "balance" balanceSync
              (JS.map_set "withdrawals" withdrawalProcessor
                (JS.map_set "deposits" depositProcessor (intervals p6)))))))
      p6.

Definition stop (p : WalletProcessor) : WalletProcessor :=
  let p1 := withRunning false p in
  let p2 := fold_left (fun q h => clearInterval h q)
              (JS.map_values (intervals p1)) p1 in
  withIntervals [] p2.

Definition restart (p : WalletProcessor) : WalletProcessor :=
  snd (setTimer Restarting (stop p)).

(** [new WalletProcessor()]. *)
Definition create : WalletProcessor :=
  startAutomatedWalletProcessing
    {| state := {| transactions := []; playerBalances := ∅;
                   pendingDeposits := []; pendingWithdrawals := [];
                   developerBalance := 10000; totalVolume := 0; totalFees := 0 |};
       intervals := []; isRunning := false;
       heap := ∅; nextRef := 0%nat; timers := []; nextHandle := 1%nat |}.

(** ** The runtime fires a timer

    A ticker stays in the table after it has run; a timeout leaves it
    before its callback runs. *)
Definition fire (h : handle) (now : Z) (gw : nat -> bool) (p : WalletProcessor)
  : WalletProcessor :=
  match timerTask h p with
  | None => p
  | Some (Tick Deposits) => processAutomaticDeposits now gw p
  | Some (Tick Withdrawals) => processAutomaticWithdrawals now p
  | Some (Tick Balance) => synchronizeBalances p
  | Some (Tick Validation) => validateTransactions now p
  | Some (Tick Fees) => collectSystemFees p
  | Some (Tick Cleanup) => cleanupWalletData now p
  | Some (ReviewApproval w) =>
      let p1 := clearInterval h p in
      match heap p1 !! w with
      | Some t => if TxStatus_eqb (status t) SReview
                  then approveWithdrawal now w p1 else p1
      | None => p1
      end
  | Some (BankTransferDone w) => clearInterval h p
  | Some Restarting => startAutomatedWalletProcessing (clearInterval h p)
  end.

(** ** The processor as a transition system: calls of the public methods
    and timers firing, in any order. *)
Inductive Action :=
| ProcessDeposit (txId : string) (now : Z) (player : string) (amt : Z) (method : string)
| ProcessWithdrawal (txId : string) (now : Z) (player : string) (amt : Z)
| AddServerFee (now : Z) (matchId : string) (amt : Z)
| Stop
| Restart
| Fire (h : handle) (now : Z) (gw : nat -> bool).

Definition exec (a : Action) (p : WalletProcessor) : WalletProcessor :=
  match a with
  | ProcessDeposit txId now player amt method =>
      snd (processDeposit txId now player amt method p)
  | ProcessWithdrawal txId now player amt =>
      snd (processWithdrawal txId now player amt p)
  | AddServerFee now matchId amt => addServerFee now matchId amt p
  | Stop => stop p
  | Restart => restart p
  | Fire h now gw => fire h now gw p
  end.

Definition run (acts : list Action) (p : WalletProcessor) : WalletProcessor :=
  fold_left (fun q a => exec a q) acts p.

Inductive reachable : WalletProcessor -> Prop :=
| reach_create : reachable create
| reach_step a p : reachable p -> reachable (exec a p).

End Wallet.

(** * src/WalletProcessor.ts: class EventProcessor *)

Module Events.

Inductive EventType :=
  Strike | Score | Foul | TurnChange | MatchStart | MatchEnd | Timeout.

(** The string of each member of the union type of [GameEvent.type]. *)
Definition typeName (t : EventType) : string :=
  match t with
  | Strike => "strike"
  | Score => "score"
  | Foul => "foul"
  | TurnChange => "turn_change"
  | MatchStart => "match_start"
  | MatchEnd => "match_end"
  | Timeout => "timeout"
  end.

Section Processor.

(** [Data] is the untyped payload [event.data].  [Ext] is the state outside
    the processor that the action of a registered rule can reach. *)
Context {Data Ext : Type}.

Record GameEvent := mkEvent {
  id : string;
  type : EventType;
  playerId : string;
  matchId : string;
  timestamp : Z;
  data : Data;
  processed : bool
}.

(** [averageProcessingTime] is a floating-point average that nothing reads;
    it is left out. *)
Record EventStats := mkStats {
  totalEvents : Z;
  processedEvents : Z;
  errorEvents : Z;
  eventsByType : gmap string Z
}.

(** The mutable part of the processor.  The rule registry is kept apart:
    no rule of the source registers or removes rules from its action. *)
Record State := mkState {
  events : list (string * GameEvent);
  eventQueue : list GameEvent;
  stats : EventStats;
  ext : Ext
}.

(** A rule.  The predicate reads the processor and returns (no predicate
    of the source throws); the action changes the processor and either
    returns or throws ([true] in the second component), keeping what it had
    changed before the throw. *)
Record EventRule := mkRule {
  eventType : string;
  condition : State -> GameEvent -> bool;
  action : GameEvent -> State -> State * bool;
  priority : Z
}.

Definition setStats (v : EventStats) (s : State) : State :=
  mkState (events s) (eventQueue s) v (ext s).

Definition setQueue (v : list GameEvent) (s : State) : State :=
  mkState (events s) v (stats s) (ext s).

Definition setEvents (v : list (string * GameEvent)) (s : State) : State :=
  mkState v (eventQueue s) (stats s) (ext s).

Definition setExt (v : Ext) (s : State) : State :=
  mkState (events s) (eventQueue s) (stats s) v.

Definition countError (s : State) : State :=
  setStats (mkStats (totalEvents (stats s)) (processedEvents (stats s))
                    (errorEvents (stats s) + 1) (eventsByType (stats s))) s.

Definition setProcessed (v : bool) (e : GameEvent) : GameEvent :=
  mkEvent (id e) (type e) (playerId e) (matchId e) (timestamp e) (data e) v.

(** ** Dispatch *)

(** [rule.eventType === event.type || rule.eventType === '*']. *)
Definition typeMatches (e : GameEvent) (r : EventRule) : bool :=
  String.eqb (eventType r) (typeName (type e)) || String.eqb (eventType r) "*".

(** The two [filter]s of [processEvent]: both run before any action. *)
Definition eligibleRules (rules : list EventRule) (s : State) (e : GameEvent)
  : list EventRule :=
  List.filter (fun r => condition r s e) (List.filter (typeMatches e) rules).

(** [.sort((a, b) => b.priority - a.priority)]. *)
Definition matchingRules (rules : list EventRule) (s : State) (e : GameEvent)
  : list EventRule :=
  JS.sort (JS.descending priority) (eligibleRules rules s e).

(** One iteration of the [forEach]: the action inside its [try]. *)
Definition runRule (e : GameEvent) (s : State) (r : EventRule) : State :=
  let '(s', threw) := action r e s in
  if threw then countError s' else s'.

Definition runRules (rs : list EventRule) (e : GameEvent) (s : State) : State :=
  fold_left (runRule e) rs s.

Definition processEvent (rules : list EventRule) (e : GameEvent) (s : State)
  : State :=
  let matching := matchingRules rules s e in
  let s1 := runRules matching e s in
  let s2 := setEvents (JS.map_set (id e) (setProcessed true e) (events s1)) s1 in
  let st := stats s2 in
  let name := typeName (type e) in
  setStats (mkStats (totalEvents st) (processedEvents st + 1) (errorEvents st)
              (<[name := JS.orZero (eventsByType st !! name) + 1]> (eventsByType st)))
           s2.

Definition processEventQueue (rules : list EventRule) (s : State) : State :=
  match eventQueue s with
  | [] => s
  | eventsToProcess =>
      fold_left (fun st e => processEvent rules e st) eventsToProcess
        (setQueue [] s)
  end.

(** ** Public API *)

(** [createEvent(eventData)]; [eid] is the generated id, [now] the clock. *)
Definition createEvent (eid : string) (now : Z) (t : EventType)
    (match_ player : string) (d : Data) (s : State) : GameEvent * State :=
  let event := mkEvent eid t player match_ now d false in
  let s1 := setQueue (eventQueue s ++ [event]) s in
  (event,
   setStats (mkStats (totalEvents (stats s1) + 1) (processedEvents (stats s1))
               (errorEvents (stats s1)) (eventsByType (stats s1))) s1).

Definition addRule (r : EventRule) (rules : list EventRule) : list EventRule :=
  rules ++ [r].

Definition removeRule (ty : string) (rules : list EventRule) : list EventRule :=
  List.filter (fun r => negb (String.eqb (eventType r) ty)) rules.

(** [getEventStats()]: a copy of the counters. *)
Definition getEventStats (s : State) : EventStats := stats s.

(** [getMatchEvents(matchId)]: the stored events of a match, by ascending
    timestamp. *)
Definition getMatchEvents (match_ : string) (s : State) : list GameEvent :=
  JS.sort (JS.ascending timestamp)
    (List.filter (fun e => String.eqb (matchId e) match_)
       (JS.map_values (events s))).

(** ** Default rules *)

(** [getMatchScores] is a mock that returns the empty object. *)
Definition getMatchScores (match_ : string) : list (string * Z) := [].

Definition checkWinningCondition (s : State) (e : GameEvent) : bool :=
  existsb (fun ps => 25 <=? snd ps) (getMatchScores (matchId e)).

(** [determineWinner(matchId)]: the loop over the entries of the score
    object, in the order of [for ... in], starting from no winner and a
    maximum of -1. *)
Definition pickWinner (scores : list (string * Z)) : option string * Z :=
  fold_left (fun acc entry =>
               if snd acc <? snd entry then (Some (fst entry), snd entry) else acc)
            scores (None, -1).

Definition determineWinner (match_ : string) : option string :=
  fst (pickWinner (getMatchScores match_)).

(** The private handlers that the default rules call, as actions. *)
Record Handlers := mkHandlers {
  handleMatchStart : GameEvent -> State -> State * bool;
  handlePlayerStrike : GameEvent -> State -> State * bool;
  handleScoring : GameEvent -> State -> State * bool;
  handleFoul : GameEvent -> State -> State * bool;
  handleTurnChange : GameEvent -> State -> State * bool;
  handleMatchEnd : GameEvent -> State -> State * bool;
  handleTimeout : GameEvent -> State -> State * bool;
  triggerMatchEnd : GameEvent -> State -> State * bool
}.

Definition yes (s : State) (e : GameEvent) : bool := true.

Definition initializeEventRules (h : Handlers) : list EventRule :=
  addRule (mkRule "score" checkWinningCondition (triggerMatchEnd h) 100)
  (addRule (mkRule "timeout" yes (handleTimeout h) 70)
  (addRule (mkRule "match_end" yes (handleMatchEnd h) 95)
  (addRule (mkRule "turn_change" yes (handleTurnChange h) 75)
  (addRule (mkRule "foul" yes (handleFoul h) 85)
  (addRule (mkRule "score" yes (handleScoring h) 90)
  (addRule (mkRule "strike" yes (handlePlayerStrike h) 80)
  (addRule (mkRule "match_start" yes (handleMatchStart h) 100) []))))))).

End Processor.

Arguments GameEvent : clear implicits.
Arguments State : clear implicits.
Arguments EventRule : clear implicits.
Arguments Handlers : clear implicits.

End Events.

(** * src/GameProcessor.ts: class GameProcessor *)

Module Game.

(** [Player], [Match] and [Transaction] are imported from [@/types/game],
    which is not among the sources; the records have the fields this class
    reads and writes ([pendingTransactions], which is only handed to an
    empty method, is left out). *)
Inductive MatchStatus := Waiting | Active | Finishing | Completed | Cancelled.
Inductive TxType := TDeposit | TWithdrawal | TBet | TWin | TRefund | TOther.
Inductive TxStatus := SPending | SCompleted | SFailed.

(** Players and matches are objects, shared between the maps of the state,
    the [players] array of a match and its [winner], and mutated in place;
    they live in heaps and are named by reference. *)
Definition pref := nat.
Definition mref := nat.
Definition handle := nat.

Record Player := mkPlayer {
  p_id : string;
  name : string;
  walletBalance : Z;
  p_status : string;
  lastActivity : option Z
}.

Record Match := mkMatch {
  id : string;
  players : list pref;
  status : MatchStatus;
  createdAt : option Z;
  startTime : option Z;
  endTime : option Z;
  timeRemaining : option Z;
  betAmount : Z;
  winner : option pref
}.

Record Transaction := mkTx {
  t_id : string;
  playerId : string;
  type : TxType;
  amount : Z;
  t_status : TxStatus;
  matchId : string;
  timestamp : Z
}.

Record ProcessorConfig := mkConfig {
  matchDuration : Z;
  cfg_betAmount : Z;
  winnerPayout : Z;
  serverFee : Z;
  autoCleanupInterval : Z;
  maxConcurrentMatches : Z
}.

Definition config : ProcessorConfig :=
  {| matchDuration := 60000; cfg_betAmount := 10; winnerPayout := 16;
     serverFee := 4; autoCleanupInterval := 30000; maxConcurrentMatches := 100 |}.

Record GameState := mkState {
  matches : list (string * mref);
  statePlayers : list (string * pref);
  transactions : list Transaction;
  matchQueue : list string;
  processing : bool
}.

Inductive Ticker := MainLoop | CleanupLoop | QueueLoop | TransactionLoop | HealthLoop.

Inductive Task :=
| Tick (t : Ticker)            (* a [setInterval] of the start method *)
| MatchTimer (k : string)      (* the [setTimeout] of setMatchTimer *)
| Restarting.                  (* the [setTimeout] of restart *)

Record GameProcessor := mkProc {
  state : GameState;
  intervals : list (string * handle);
  isRunning : bool;
  (* the runtime: object heaps and timer table *)
  mheap : gmap mref Match;
  pheap : gmap pref Player;
  nextRef : nat;
  timers : list (handle * Task);
  nextHandle : handle
}.

(** ** Field updates *)

Definition withState (f : GameState -> GameState) (p : GameProcessor) :=
  mkProc (f (state p)) (intervals p) (isRunning p) (mheap p) (pheap p)
         (nextRef p) (timers p) (nextHandle p).

Definition withIntervals (v : list (string * handle)) (p : GameProcessor) :=
  mkProc (state p) v (isRunning p) (mheap p) (pheap p)
         (nextRef p) (timers p) (nextHandle p).

Definition withRunning (v : bool) (p : GameProcessor) :=
  mkProc (state p) (intervals p) v (mheap p) (pheap p)
         (nextRef p) (timers p) (nextHandle p).

Definition withTimers (v : list (handle * Task)) (p : GameProcessor) :=
  mkProc (state p) (intervals p) (isRunning p) (mheap p) (pheap p)
         (nextRef p) v (nextHandle p).

(** Assignment to fields of the match object [m], of the player object [r]. *)
Definition mutateMatch (m : mref) (f : Match -> Match) (p : GameProcessor) :=
  mkProc (state p) (intervals p) (isRunning p) (alter f m (mheap p)) (pheap p)
         (nextRef p) (timers p) (nextHandle p).

Definition mutatePlayer (r : pref) (f : Player -> Player) (p : GameProcessor) :=
  mkProc (state p) (intervals p) (isRunning p) (mheap p) (alter f r (pheap p))
         (nextRef p) (timers p) (nextHandle p).

Definition allocMatch (M : Match) (p : GameProcessor) : mref * GameProcessor :=
  (nextRef p,
   mkProc (state p) (intervals p) (isRunning p) (<[nextRef p := M]> (mheap p))
          (pheap p) (S (nextRef p)) (timers p) (nextHandle p)).

Definition allocPlayer (P : Player) (p : GameProcessor) : pref * GameProcessor :=
  (nextRef p,
   mkProc (state p) (intervals p) (isRunning p) (mheap p)
          (<[nextRef p := P]> (pheap p)) (S (nextRef p)) (timers p) (nextHandle p)).

Definition setMatches v (s : GameState) :=
  mkState v (statePlayers s) (transactions s) (matchQueue s) (processing s).
Definition setPlayers v (s : GameState) :=
  mkState (matches s) v (transactions s) (matchQueue s) (processing s).
Definition setTransactions v (s : GameState) :=
  mkState (matches s) (statePlayers s) v (matchQueue s) (processing s).
Definition setMatchQueue v (s : GameState) :=
  mkState (matches s) (statePlayers s) (transactions s) v (processing s).

Definition setStatus v (M : Match) :=
  mkMatch (id M) (players M) v (createdAt M) (startTime M) (endTime M)
          (timeRemaining M) (betAmount M) (winner M).
Definition setMatchPlayers v (M : Match) :=
  mkMatch (id M) v (status M) (createdAt M) (startTime M) (endTime M)
          (timeRemaining M) (betAmount M) (winner M).
Definition setStartTime v (M : Match) :=
  mkMatch (id M) (players M) (status M) (createdAt M) (Some v) (endTime M)
          (timeRemaining M) (betAmount M) (winner M).
Definition setEndTime v (M : Match) :=
  mkMatch (id M) (players M) (status M) (createdAt M) (startTime M) (Some v)
          (timeRemaining M) (betAmount M) (winner M).
Definition setTimeRemaining v (M : Match) :=
  mkMatch (id M) (players M) (status M) (createdAt M) (startTime M) (endTime M)
          (Some v) (betAmount M) (winner M).
Definition setWinner v (M : Match) :=
  mkMatch (id M) (players M) (status M) (createdAt M) (startTime M) (endTime M)
          (timeRemaining M) (betAmount M) (Some v).

Definition setWalletBalance v (P : Player) :=
  mkPlayer (p_id P) (name P) v (p_status P) (lastActivity P).
Definition setPlayerStatus v (P : Player) :=
  mkPlayer (p_id P) (name P) (walletBalance P) v (lastActivity P).

Definition setTxStatus v (t : Transaction) :=
  mkTx (t_id t) (playerId t) (type t) (amount t) v (matchId t) (timestamp t).

Definition MatchStatus_eqb (a b : MatchStatus) : bool :=
  match a, b with
  | Waiting, Waiting | Active, Active | Finishing, Finishing
  | Completed, Completed | Cancelled, Cancelled => true
  | _, _ => false
  end.

Definition TxStatus_eqb (a b : TxStatus) : bool :=
  match a, b with
  | SPending, SPending | SCompleted, SCompleted | SFailed, SFailed => true
  | _, _ => false
  end.

(** ** The timer table; a browser numbers its timers from 1 *)

Definition setTimer (task : Task) (p : GameProcessor) : handle * GameProcessor :=
  (nextHandle p,
   mkProc (state p) (intervals p) (isRunning p) (mheap p) (pheap p) (nextRef p)
          (timers p ++ [(nextHandle p, task)]) (S (nextHandle p))).

Definition clearInterval (h : handle) (p : GameProcessor) : GameProcessor :=
  withTimers (List.filter (fun e => negb (Nat.eqb (fst e) h)) (timers p)) p.

Definition timerTask (h : handle) (p : GameProcessor) : option Task :=
  snd <$> List.find (fun e => Nat.eqb (fst e) h) (timers p).

(** ** Helper methods *)

Definition createTransaction (t : Transaction) (p : GameProcessor) : GameProcessor :=
  withState (fun s => setTransactions (transactions s ++ [t]) s) p.

(** [creditDeveloperFee] only writes to the console. *)
Definition creditDeveloperFee (amt : Z) (k : string) (p : GameProcessor)
  : GameProcessor := p.

Definition cancelMatch (now : Z) (k : string) (p : GameProcessor) : GameProcessor :=
  match JS.map_get k (matches (state p)) with
  | Some m => mutateMatch m (fun M => setEndTime now (setStatus Cancelled M)) p
  | None => p
  end.

Definition endMatch (k : string) (p : GameProcessor) : GameProcessor :=
  match JS.map_get k (matches (state p)) with
  | Some m => mutateMatch m (setStatus Finishing) p
  | None => p
  end.

Definition timerKey (k : string) : string := "match_" +:+ k.

Definition cleanupMatch (k : string) (p : GameProcessor) : GameProcessor :=
  let p1 := withState (fun s => setMatches (JS.map_delete k (matches s)) s) p in
  match JS.map_get (timerKey k) (intervals p1) with
  | Some timer =>
      if Nat.eqb timer 0 then p1
      else withIntervals (JS.map_delete (timerKey k) (intervals p1))
             (clearInterval timer p1)
  | None => p1
  end.

Definition setMatchTimer (k : string) (p : GameProcessor) : GameProcessor :=
  let '(timer, p1) := setTimer (MatchTimer k) p in
  withIntervals (JS.map_set (timerKey k) timer (intervals p1)) p1.

Definition playerIdOf (p : GameProcessor) (r : pref) : string :=
  match pheap p !! r with Some P => p_id P | None => "" end.

Definition isPlayerInMatch (p : GameProcessor) (pid : string) : bool :=
  existsb (fun m => match mheap p !! m with
                    | Some M => existsb (fun r => String.eqb (playerIdOf p r) pid)
                                  (players M)
                    | None => false
                    end)
          (JS.map_values (matches (state p))).

Definition findAvailableOpponent (p : GameProcessor) (excludePlayerId : string)
  : option pref :=
  head (List.filter
          (fun r => match pheap p !! r with
                    | Some P => negb (String.eqb (p_id P) excludePlayerId)
                                && String.eqb (p_status P) "online"
                                && (cfg_betAmount config <=? walletBalance P)
                                && negb (isPlayerInMatch p (p_id P))
                    | None => false
                    end)
          (JS.map_values (statePlayers (state p)))).

(** [coin] is [Math.floor(Math.random() * 2)]. *)
Definition determineMatchWinner (coin : bool) (M : Match) : option pref :=
  match players M with
  | [a; b] => Some (if coin then b else a)
  | _ => None
  end.

(** ** Financial processing *)

Definition txId (kind k pid : string) (now : Z) : string :=
  kind +:+ "_" +:+ k +:+ "_" +:+ pid +:+ "_" +:+ pretty now.

Definition betOne (now : Z) (k : string) (p : GameProcessor) (r : pref)
  : GameProcessor :=
  match pheap p !! r with
  | None => p
  | Some P =>
      if cfg_betAmount config <=? walletBalance P
      then
        let p1 := mutatePlayer r
                    (fun P => setWalletBalance (walletBalance P - cfg_betAmount config) P) p in
        createTransaction
          (mkTx (txId "bet" k (p_id P) now) (p_id P) TBet
                (- cfg_betAmount config) SCompleted k now) p1
      else cancelMatch now k p
  end.

Definition processAutomaticBetDeduction (now : Z) (m : mref) (p : GameProcessor)
  : GameProcessor :=
  match mheap p !! m with
  | None => p
  | Some M => fold_left (betOne now (id M)) (players M) p
  end.

Definition processAutomaticPayout (now : Z) (m : mref) (p : GameProcessor)
  : GameProcessor :=
  match mheap p !! m with
  | None => p
  | Some M =>
      match winner M with
      | None => p
      | Some w =>
          let p1 := mutatePlayer w
                      (fun P => setWalletBalance (walletBalance P + winnerPayout config) P) p in
          let p2 := createTransaction
                      (mkTx (txId "win" (id M) (playerIdOf p1 w) now) (playerIdOf p1 w)
                            TWin (winnerPayout config) SCompleted (id M) now) p1 in
          creditDeveloperFee (serverFee config) (id M) p2
      end
  end.

Definition refundTx (now : Z) (k pid : string) : Transaction :=
  mkTx (txId "refund" k pid now) pid TRefund (cfg_betAmount config) SCompleted k now.

Definition refundOne (now : Z) (k : string) (p : GameProcessor) (r : pref)
  : GameProcessor :=
  let p1 := mutatePlayer r
              (fun P => setWalletBalance (walletBalance P + cfg_betAmount config) P) p in
  createTransaction (refundTx now k (playerIdOf p1 r)) p1.

Definition processAutomaticRefund (now : Z) (m : mref) (p : GameProcessor)
  : GameProcessor :=
  match mheap p !! m with
  | None => p
  | Some M => fold_left (refundOne now (id M)) (players M) p
  end.

(** ** Match processing *)

Definition processWaitingMatch (now : Z) (k : string) (m : mref) (p : GameProcessor)
  : GameProcessor :=
  let p1 :=
    match mheap p !! m with
    | Some M =>
        match players M with
        | [first] =>
            match findAvailableOpponent p (playerIdOf p first) with
            | Some opponent =>
                let q1 := mutateMatch m
                            (fun M => setStartTime now (setStatus Active
                                        (setMatchPlayers (players M ++ [opponent]) M))) p in
                let q2 := processAutomaticBetDeduction now m q1 in
                setMatchTimer k q2
            | None => p
            end
        | _ => p
        end
    | None => p
    end in
  match mheap p1 !! m with
  | Some M =>
      if JS.truthy (createdAt M) && (120000 <? now - JS.orZero (createdAt M))
      then cancelMatch now k p1 else p1
  | None => p1
  end.

Definition processActiveMatch (now : Z) (k : string) (m : mref) (p : GameProcessor)
  : GameProcessor :=
  match mheap p !! m with
  | None => p
  | Some M =>
      if negb (JS.truthy (startTime M)) then p
      else
        let elapsed := now - JS.orZero (startTime M) in
        let remaining := matchDuration config - elapsed in
        let p1 := mutateMatch m (setTimeRemaining (Z.max 0 remaining)) p in
        if remaining <=? 0 then endMatch k p1 else p1
  end.

Definition processFinishingMatch (now : Z) (coin : bool) (k : string) (m : mref)
    (p : GameProcessor) : GameProcessor :=
  match mheap p !! m with
  | None => p
  | Some M =>
      match determineMatchWinner coin M with
      | Some w =>
          let p1 := mutateMatch m
                      (fun M => setEndTime now (setStatus Completed (setWinner w M))) p in
          processAutomaticPayout now m p1
      | None => p
      end
  end.

Definition processCompletedMatch (now : Z) (k : string) (m : mref) (p : GameProcessor)
  : GameProcessor :=
  match mheap p !! m with
  | None => p
  | Some M =>
      if JS.truthy (endTime M) && (3600000 <? now - JS.orZero (endTime M))
      then cleanupMatch k p else p
  end.

Definition processCancelledMatch (now : Z) (k : string) (m : mref) (p : GameProcessor)
  : GameProcessor :=
  let p1 := processAutomaticRefund now m p in
  match mheap p1 !! m with
  | None => p1
  | Some M =>
      if JS.truthy (endTime M) && (1800000 <? now - JS.orZero (endTime M))
      then cleanupMatch k p1 else p1
  end.

Definition processMatchState (now : Z) (coin : bool) (k : string) (m : mref)
    (p : GameProcessor) : GameProcessor :=
  match mheap p !! m with
  | None => p
  | Some M =>
      match status M with
      | Waiting => processWaitingMatch now k m p
      | Active => processActiveMatch now k m p
      | Finishing => processFinishingMatch now coin k m p
      | Completed => processCompletedMatch now k m p
      | Cancelled => processCancelledMatch now k m p
      end
  end.

Definition processPlayerState (now : Z) (r : pref) (p : GameProcessor)
  : GameProcessor :=
  match pheap p !! r with
  | None => p
  | Some P =>
      if JS.truthy (lastActivity P) && (300000 <? now - JS.orZero (lastActivity P))
      then mutatePlayer r (setPlayerStatus "inactive") p else p
  end.

(** The sweep of the 1-second ticker.  [coin k] is the random draw used if
    the match under key [k] is finishing.  No step of the sweep adds a key
    to a map, and a step deletes at most the key it is visiting, so the
    [forEach] visits the entries present at the start. *)
Definition processMainLoop (now : Z) (coin : string -> bool) (p : GameProcessor)
  : GameProcessor :=
  let p1 := fold_left (fun q e => processMatchState now (coin (fst e)) (fst e) (snd e) q)
              (matches (state p)) p in
  fold_left (fun q e => processPlayerState now (snd e) q) (statePlayers (state p1)) p1.

(** ** Queue processing *)

Definition createAutomaticMatch (k : string) (now : Z) (player1 player2 : pref)
    (p : GameProcessor) : GameProcessor :=
  let M := mkMatch k [player1; player2] Active (Some now) (Some now) None
                   (Some (matchDuration config)) (cfg_betAmount config) None in
  let '(m, p1) := allocMatch M p in
  let p2 := withState (fun s => setMatches (JS.map_set k m (matches s)) s) p1 in
  let p3 := processAutomaticBetDeduction now m p2 in
  setMatchTimer k p3.

(** The [while] of [processMatchQueue]; [ids i] is the id generated for the
    i-th match. *)
Fixpoint pairQueue (now : Z) (ids : nat -> string) (i : nat) (queue : list string)
    (p : GameProcessor) : GameProcessor :=
  match queue with
  | player1Id :: player2Id :: rest =>
      if Z.of_nat (length (matches (state p))) <? maxConcurrentMatches config
      then
        let p1 := withState (setMatchQueue rest) p in
        let p2 :=
          match JS.map_get player1Id (statePlayers (state p1)),
                JS.map_get player2Id (statePlayers (state p1)) with
          | Some player1, Some player2 =>
              createAutomaticMatch (ids i) now player1 player2 p1
          | _, _ => p1
          end in
        pairQueue now ids (S i) rest p2
      else p
  | _ => p
  end.

Definition processMatchQueue (now : Z) (ids : nat -> string) (p : GameProcessor)
  : GameProcessor :=
  pairQueue now ids 0 (matchQueue (state p)) p.

(** ** Transaction processing *)

Definition processTransaction (t : Transaction) : Transaction :=
  match type t with
  | TDeposit | TWithdrawal | TBet | TWin | TRefund => setTxStatus SCompleted t
  | TOther => t
  end.

Definition processTransactions (p : GameProcessor) : GameProcessor :=
  withState (fun s => setTransactions
    (List.map (fun t => if TxStatus_eqb (t_status t) SPending
                        then processTransaction t else t)
              (transactions s)) s) p.

(** ** Cleanup *)

Definition cleanupExpiredSessions (now : Z) (p : GameProcessor) : GameProcessor :=
  fold_left (fun q e =>
               match mheap q !! (snd e) with
               | Some M =>
                   if JS.truthy (createdAt M)
                      && (24 * 60 * 60 * 1000 <? now - JS.orZero (createdAt M))
                   then withState (fun s => setMatches
                                     (JS.map_delete (fst e) (matches s)) s) q
                   else q
               | None => q
               end)
            (matches (state p)) p.

Definition cleanupOldTransactions (now : Z) (p : GameProcessor) : GameProcessor :=
  withState (fun s => setTransactions
    (List.filter (fun t => now - timestamp t <? 30 * 24 * 60 * 60 * 1000)
                 (transactions s)) s) p.

Definition cleanupInactivePlayers (now : Z) (p : GameProcessor) : GameProcessor :=
  fold_left (fun q e =>
               match pheap q !! (snd e) with
               | Some P =>
                   if JS.truthy (lastActivity P)
                      && (60 * 60 * 1000 <? now - JS.orZero (lastActivity P))
                   then mutatePlayer (snd e) (setPlayerStatus "inactive") q else q
               | None => q
               end)
            (statePlayers (state p)) p.

Definition processCleanup (now : Z) (p : GameProcessor) : GameProcessor :=
  cleanupInactivePlayers now (cleanupOldTransactions now (cleanupExpiredSessions now p)).

(** [processHealthCheck] computes figures and logs; it changes nothing. *)
Definition processHealthCheck (p : GameProcessor) : GameProcessor := p.

(** ** Public API *)

Definition addPlayerToQueue (pid : string) (p : GameProcessor) : GameProcessor :=
  if existsb (String.eqb pid) (matchQueue (state p)) then p
  else withState (fun s => setMatchQueue (matchQueue s ++ [pid]) s) p.

(** [createPlayer(playerData)]; [pid] is the generated id.  The spread of
    [playerData] gives the name and the wallet balance. *)
Definition createPlayer (pid : string) (now : Z) (nm : string) (balance : Z)
    (p : GameProcessor) : pref * GameProcessor :=
  let '(r, p1) := allocPlayer (mkPlayer pid nm balance "online" (Some now)) p in
  (r, withState (fun s => setPlayers (JS.map_set pid r (statePlayers s)) s) p1).

(** [getSystemStats()]. *)
Record SystemStats := mkStats {
  totalMatches : nat;
  totalPlayers : nat;
  activeMatches : nat;
  onlinePlayers : nat;
  queueLength : nat;
  isProcessing : bool
}.

Definition getSystemStats (p : GameProcessor) : SystemStats :=
  {| totalMatches := length (matches (state p));
     totalPlayers := length (statePlayers (state p));
     activeMatches :=
       length (List.filter
                 (fun m => match mheap p !! m with
                           | Some M => MatchStatus_eqb (status M) Active
                           | None => false
                           end)
                 (JS.map_values (matches (state p))));
     onlinePlayers :=
       length (List.filter
                 (fun r => match pheap p !! r with
                           | Some P => String.eqb (p_status P) "online"
                           | None => false
                           end)
                 (JS.map_values (statePlayers (state p))));
     queueLength := length (matchQueue (state p));
     isProcessing := isRunning p |}.

(** ** Lifecycle *)

Definition startAutomatedProcessing (p : GameProcessor) : GameProcessor :=
  if isRunning p then p
  else
    let p0 := withRunning true p in
    let '(mainLoop, p1) := setTimer (Tick MainLoop) p0 in
    let '(cleanupLoop, p2) := setTimer (Tick CleanupLoop) p1 in
    let '(queueLoop, p3) := setTimer (Tick QueueLoop) p2 in
    let '(transactionLoop, p4) := setTimer (Tick TransactionLoop) p3 in
    let '(healthLoop, p5) := setTimer (Tick HealthLoop) p4 in
    withIntervals
      (JS.map_set "health" healthLoop
        (JS.map_set "transactions" transactionLoop
          (JS.map_set "queue" queueLoop
            (JS.map_set "cleanup" cleanupLoop
              (JS.map_set "main" mainLoop (intervals p5))))))
      p5.

Definition stop (p : GameProcessor) : GameProcessor :=
  let p1 := withRunning false p in
  let p2 := fold_left (fun q h => clearInterval h q)
              (JS.map_values (intervals p1)) p1 in
  withIntervals [] p2.

Definition restart (p : GameProcessor) : GameProcessor :=
  snd (setTimer Restarting (stop p)).

(** [new GameProcessor()]. *)
Definition create : GameProcessor :=
  startAutomatedProcessing
    {| state := {| matches := []; statePlayers := []; transactions := [];
                   matchQueue := []; processing := false |};
       intervals := []; isRunning := false;
       mheap := ∅; pheap := ∅; nextRef := 0%nat;
       timers := []; nextHandle := 1%nat |}.

(** ** The runtime fires a timer *)

Definition fire (h : handle) (now : Z) (coin : string -> bool) (ids : nat -> string)
    (p : GameProcessor) : GameProcessor :=
  match timerTask h p with
  | None => p
  | Some (Tick MainLoop) => processMainLoop now coin p
  | Some (Tick CleanupLoop) => processCleanup now p
  | Some (Tick QueueLoop) => processMatchQueue now ids p
  | Some (Tick TransactionLoop) => processTransactions p
  | Some (Tick HealthLoop) => processHealthCheck p
  | Some (MatchTimer k) => endMatch k (clearInterval h p)
  | Some Restarting => startAutomatedProcessing (clearInterval h p)
  end.

Inductive Action :=
| CreatePlayer (pid : string) (now : Z) (nm : string) (balance : Z)
| AddPlayerToQueue (pid : string)
| Stop
| Restart
| Fire (h : handle) (now : Z) (coin : string -> bool) (ids : nat -> string).

Definition exec (a : Action) (p : GameProcessor) : GameProcessor :=
  match a with
  | CreatePlayer pid now nm balance => snd (createPlayer pid now nm balance p)
  | AddPlayerToQueue pid => addPlayerToQueue pid p
  | Stop => stop p
  | Restart => restart p
  | Fire h now coin ids => fire h now coin ids p
  end.

Definition run (acts : list Action) (p : GameProcessor) : GameProcessor :=
  fold_left (fun q a => exec a q) acts p.

Inductive reachable : GameProcessor -> Prop :=
| reach_create : reachable create
| reach_step a p : reachable p -> reachable (exec a p).

End Game.

(** * Facts about the sort *)

Module JSFacts.
Import JS.

Section Sorting.
Context {A : Type}.

Lemma insert_perm (cmp : A -> A -> Z) x l : Permutation (x :: l) (insert cmp x l).
Proof.
  induction l as [|y l IH]; simpl; [reflexivity|].
  destruct (0 <? cmp x y); [|reflexivity].
  rewrite perm_swap. now apply perm_skip.
Qed.

Lemma sort_perm (cmp : A -> A -> Z) l : Permutation l (sort cmp l).
Proof.
  induction l as [|x l IH]; simpl; [constructor|].
  rewrite <- insert_perm. now apply perm_skip.
Qed.

Lemma sort_In (cmp : A -> A -> Z) l x : In x (sort cmp l) <-> In x l.
Proof.
  split; apply Permutation_in; [symmetry|]; apply sort_perm.
Qed.

Lemma sort_length (cmp : A -> A -> Z) l : length (sort cmp l) = length l.
Proof. symmetry. apply Permutation_length, sort_perm. Qed.

Variable key : A -> Z.

(** Non-increasing keys from left to right. *)
Definition desc (a b : A) : Prop := key b <= key a.

Lemma insert_sorted x l :
  StronglySorted desc l -> StronglySorted desc (insert (descending key) x l).
Proof.
  induction 1 as [|y l Hl IH Hy]; simpl.
  - repeat constructor.
  - unfold descending at 1. destruct (0 <? key y - key x) eqn:E.
    + apply Z.ltb_lt in E. constructor; [exact IH|].
      rewrite List.Forall_forall in *. intros z Hz.
      apply (Permutation_in _ (Permutation_sym (insert_perm _ x l))) in Hz.
      destruct Hz as [<-|Hz]; [unfold desc; lia | now apply Hy].
    + apply Z.ltb_ge in E. constructor; [now constructor|].
      constructor; [unfold desc; lia|].
      rewrite List.Forall_forall in *. intros z Hz.
      specialize (Hy z Hz). unfold desc in *. lia.
Qed.

Lemma sort_sorted l : StronglySorted desc (sort (descending key) l).
Proof.
  induction l as [|x l IH]; simpl; [constructor | now apply insert_sorted].
Qed.

(** The elements of one key, in their order in the list. *)
Definition withKey (k : Z) (l : list A) : list A :=
  List.filter (fun x => key x =? k) l.

Lemma insert_withKey k x l :
  withKey k (insert (descending key) x l) = withKey k (x :: l).
Proof.
  induction l as [|y l IH]; [reflexivity|].
  simpl insert. unfold descending at 1.
  destruct (0 <? key y - key x) eqn:E; [|reflexivity].
  apply Z.ltb_lt in E. unfold withKey in *. simpl in *. rewrite IH.
  destruct (key x =? k) eqn:Ex, (key y =? k) eqn:Ey; try reflexivity.
  apply Z.eqb_eq in Ex, Ey. lia.
Qed.

(** Stability: elements of equal key keep their relative order. *)
Lemma sort_stable k l : withKey k (sort (descending key) l) = withKey k l.
Proof.
  induction l as [|x l IH]; [reflexivity|].
  simpl sort. rewrite insert_withKey. unfold withKey in *. simpl.
  now rewrite IH.
Qed.

Lemma withKey_In k x l : In x (withKey k l) <-> In x l /\ key x = k.
Proof.
  unfold withKey. rewrite List.filter_In. now rewrite Z.eqb_eq.
Qed.

(** A list sorted by descending key is determined by its elements of each
    key: every stable sort returns what [sort] returns. *)
Lemma sorted_stable_unique l1 : forall l2,
  StronglySorted desc l1 -> StronglySorted desc l2 ->
  (forall k, withKey k l1 = withKey k l2) -> l1 = l2.
Proof.
  induction l1 as [|a l1 IH]; intros l2 H1 H2 Hk.
  - destruct l2 as [|b l2]; [reflexivity|].
    specialize (Hk (key b)). unfold withKey in Hk. simpl in Hk.
    rewrite Z.eqb_refl in Hk. discriminate.
  - destruct l2 as [|b l2].
    { specialize (Hk (key a)). unfold withKey in Hk. simpl in Hk.
      rewrite Z.eqb_refl in Hk. discriminate. }
    apply StronglySorted_inv in H1 as [H1 Ha].
    apply StronglySorted_inv in H2 as [H2 Hb].
    rewrite List.Forall_forall in Ha, Hb.
    assert (Hab : key a = key b).
    { destruct (Z.eq_dec (key a) (key b)) as [|Hne]; [assumption|].
      assert (In b (a :: l1)) as [->|Hb1].
      { apply (withKey_In (key b)). rewrite Hk. apply withKey_In.
        split; [now left | reflexivity]. }
      { reflexivity. }
      assert (In a (b :: l2)) as [->|Ha2].
      { apply (withKey_In (key a)). rewrite <- Hk. apply withKey_In.
        split; [now left | reflexivity]. }
      { reflexivity. }
      specialize (Ha _ Hb1). specialize (Hb _ Ha2). unfold desc in *. lia. }
    assert (a = b) as <-.
    { specialize (Hk (key a)). unfold withKey in Hk. simpl in Hk.
      rewrite <- Hab, Z.eqb_refl in Hk. now inversion Hk. }
    f_equal. apply IH; try assumption.
    intros k. specialize (Hk k). unfold withKey in *. simpl in Hk.
    destruct (key a =? k); [now inversion Hk | assumption].
Qed.

Lemma sort_unique l l' :
  StronglySorted desc l' -> (forall k, withKey k l' = withKey k l) ->
  l' = sort (descending key) l.
Proof.
  intros Hs Hk. apply sorted_stable_unique; [assumption | apply sort_sorted |].
  intros k. now rewrite sort_stable.
Qed.

End Sorting.
End JSFacts.

(** * Facts about src/automation.ts *)

Module AutomationFacts.
Import Automation.

Lemma balance_setWallet s u v u' :
  getWalletBalance (setWallet s u v) u' =
  if decide (u = u') then v else getWalletBalance s u'.
Proof.
  unfold getWalletBalance, setWallet; simpl.
  rewrite lookup_insert. now destruct (decide (u = u')).
Qed.

Lemma balance_credit u amt s u' :
  getWalletBalance (creditToWallet u amt s) u' =
  if decide (u = u') then getWalletBalance s u + amt else getWalletBalance s u'.
Proof. unfold creditToWallet. apply balance_setWallet. Qed.

Lemma balance_deduct u amt s u' :
  getWalletBalance (snd (deductFromWallet u amt s)) u' =
  if decide (u = u')
  then (if amt <=? getWalletBalance s u
        then getWalletBalance s u - amt else getWalletBalance s u)
  else getWalletBalance s u'.
Proof.
  unfold deductFromWallet.
  destruct (amt <=? getWalletBalance s u) eqn:E; simpl.
  - apply balance_setWallet.
  - destruct (decide (u = u')) as [->|]; reflexivity.
Qed.

Lemma deduct_transactions u amt s :
  transactions (snd (deductFromWallet u amt s)) = transactions s.
Proof. unfold deductFromWallet. now destruct (_ <=? _). Qed.

Lemma deduct_matches u amt s :
  matches (snd (deductFromWallet u amt s)) = matches s.
Proof. unfold deductFromWallet. now destruct (_ <=? _). Qed.

Lemma createMatch_transactions matchId now p1 p2 bet s :
  transactions (snd (createMatch matchId now p1 p2 bet s)) = transactions s.
Proof. unfold createMatch; simpl. now rewrite !deduct_transactions. Qed.

Lemma createMatch_matches matchId now p1 p2 bet s :
  matches (snd (createMatch matchId now p1 p2 bet s)) =
  <[matchId := mkMatch matchId p1 p2 bet None MPending now None]> (matches s).
Proof. unfold createMatch; simpl. now rewrite !deduct_matches. Qed.

Lemma createMatch_wallets matchId now p1 p2 bet s :
  wallets (snd (createMatch matchId now p1 p2 bet s)) =
  wallets (snd (deductFromWallet p2 bet (snd (deductFromWallet p1 bet s)))).
Proof.
  unfold createMatch, deductFromWallet, getWalletBalance; simpl.
  destruct (bet <=? JS.orZero (wallets s !! p1)); simpl;
    destruct (bet <=? JS.orZero (_ !! p2)); reflexivity.
Qed.

Lemma createMatch_balance matchId now p1 p2 bet s u :
  getWalletBalance (snd (createMatch matchId now p1 p2 bet s)) u =
  getWalletBalance
    (snd (deductFromWallet p2 bet (snd (deductFromWallet p1 bet s)))) u.
Proof. unfold getWalletBalance. now rewrite createMatch_wallets. Qed.

Lemma completeMatch_present now matchId winnerId s m :
  matches s !! matchId = Some m ->
  completeMatch now matchId winnerId s =
  logTransaction (feeTx matchId now)
    (logTransaction (winTx matchId winnerId now)
      (creditToWallet developer serverFee
        (creditToWallet winnerId winnerPayout
          (setMatch s matchId
             (mkMatch (m_id m) (player1 m) (player2 m) (betAmount m)
                (Some winnerId) MCompleted (startTime m) (Some now)))))).
Proof. intros H. unfold completeMatch. now rewrite H. Qed.

Lemma completeMatch_absent now matchId winnerId s :
  matches s !! matchId = None -> completeMatch now matchId winnerId s = s.
Proof. intros H. unfold completeMatch. now rewrite H. Qed.

Lemma completeMatch_transactions now matchId winnerId s m :
  matches s !! matchId = Some m ->
  transactions (completeMatch now matchId winnerId s) =
  transactions s ++ [winTx matchId winnerId now; feeTx matchId now].
Proof.
  intros H. rewrite (completeMatch_present _ _ _ _ _ H). simpl.
  now rewrite <- app_assoc.
Qed.

Lemma completeMatch_balance now matchId winnerId s m u :
  matches s !! matchId = Some m ->
  getWalletBalance (completeMatch now matchId winnerId s) u =
  getWalletBalance
    (creditToWallet developer serverFee (creditToWallet winnerId winnerPayout s)) u.
Proof.
  intros H. rewrite (completeMatch_present _ _ _ _ _ H). reflexivity.
Qed.

Lemma completeMatch_status now matchId winnerId s m :
  matches s !! matchId = Some m ->
  exists m', matches (completeMatch now matchId winnerId s) !! matchId = Some m'
             /\ m_status m' = MCompleted /\ winner m' = Some winnerId.
Proof.
  intros H. rewrite (completeMatch_present _ _ _ _ _ H). simpl.
  rewrite lookup_insert_eq. eauto.
Qed.

(** ** What the log can hold *)

Definition settlementEntry (t : WalletTransaction) : Prop :=
  (t_type t = TWin /\ amount t = winnerPayout \/
   t_type t = TFee /\ amount t = serverFee) /\ t_status t = SCompleted.

Lemma exec_transactions c s :
  transactions (exec c s) = transactions s \/
  exists now matchId winnerId,
    transactions (exec c s) =
    transactions s ++ [winTx matchId winnerId now; feeTx matchId now].
Proof.
  destruct c; simpl.
  - left. apply createMatch_transactions.
  - destruct (matches s !! matchId) as [m|] eqn:E.
    + right. eauto using completeMatch_transactions.
    + left. now rewrite completeMatch_absent.
  - now left.
  - left. apply deduct_transactions.
  - now left.
Qed.

Lemma reachable_log s :
  reachable s -> Forall settlementEntry (transactions s).
Proof.
  induction 1 as [|c s Hs IH]; [constructor|].
  destruct (exec_transactions c s) as [->|(now & k & w & ->)]; [assumption|].
  apply Forall_app; split; [assumption|].
  constructor; [|constructor; [|constructor]].
  - split; [left|]; now split.
  - split; [right|]; now split.
Qed.

Lemma reachable_run cs : reachable (run cs init).
Proof.
  unfold run. generalize init, reach_init.
  induction cs as [|c cs IH]; intros s Hs; simpl; [assumption|].
  apply IH. now constructor.
Qed.

(** ** Settlement *)

(** A state with two funded players and one match, used to run the
    operations on concrete data. *)
Definition demo : SimpleAutomation :=
  run [CreditToWallet "alice" 100; CreditToWallet "bob" 100;
       CreateMatch "m1" 1000 "alice" "bob" 10] init.

(** C9. For every matchId present in the match map and every winnerId,
    whether or not it is one of the match's two players, completeMatch
    credits 16 to winnerId's wallet and then 4 to the developer wallet; no
    other wallet changes, and nothing compares winnerId with player1 or
    player2. *)
Theorem completeMatch_pays_any_winner now matchId winnerId s m :
  matches s !! matchId = Some m ->
  let s' := completeMatch now matchId winnerId s in
  wallets s' =
    wallets (creditToWallet developer 4 (creditToWallet winnerId 16 s))
  /\ (winnerId <> developer ->
      getWalletBalance s' winnerId = getWalletBalance s winnerId + 16
      /\ getWalletBalance s' developer = getWalletBalance s developer + 4)
  /\ (winnerId = developer ->
      getWalletBalance s' developer = getWalletBalance s developer + 20)
  /\ (forall u, u <> winnerId -> u <> developer ->
      getWalletBalance s' u = getWalletBalance s u).
Proof.
  intros H s'. subst s'.
  split; [now rewrite (completeMatch_present _ _ _ _ _ H)|].
  repeat split; intros;
    rewrite (completeMatch_balance _ _ _ _ _ _ H), !balance_credit;
    unfold winnerPayout, serverFee;
    repeat (destruct (decide _)); subst; try congruence; lia.
Qed.

Lemma completeMatch_pays_any_winner_witness :
  matches demo !! "m1" =
    Some (mkMatch "m1" "alice" "bob" 10 None MPending 1000 None)
  /\ getWalletBalance (completeMatch 2000 "m1" "mallory" demo) "mallory" = 16
  /\ getWalletBalance (completeMatch 2000 "m1" "mallory" demo) developer = 4.
Proof.
  assert (H : matches demo !! "m1" =
    Some (mkMatch "m1" "alice" "bob" 10 None MPending 1000 None))
    by (vm_compute; reflexivity).
  split; [exact H|].
  destruct (completeMatch_pays_any_winner 2000 "m1" "mallory" demo _ H)
    as (_ & Hw & _ & _).
  destruct Hw as [Hw Hd]; [discriminate|].
  rewrite Hw, Hd. split; vm_compute; reflexivity.
Defined.

(** C10. createMatch changes the wallets only through its two
    deductFromWallet calls (each player with enough balance loses betAmount)
    and appends nothing to the transaction log; completeMatch appends
    exactly one win entry and one fee entry; so in every reachable state the
    history of every user holds win and fee entries only, never a bet. *)
Theorem createMatch_logs_no_bet s matchId now p1 p2 bet :
  reachable s ->
  let s' := snd (createMatch matchId now p1 p2 bet s) in
  transactions s' = transactions s
  /\ wallets s' =
     wallets (snd (deductFromWallet p2 bet (snd (deductFromWallet p1 bet s))))
  /\ (p1 <> p2 -> bet <= getWalletBalance s p1 -> bet <= getWalletBalance s p2 ->
      getWalletBalance s' p1 = getWalletBalance s p1 - bet
      /\ getWalletBalance s' p2 = getWalletBalance s p2 - bet)
  /\ (forall now' winnerId,
      transactions (completeMatch now' matchId winnerId s') =
      transactions s' ++ [winTx matchId winnerId now'; feeTx matchId now'])
  /\ (forall user t,
      In t (getTransactionHistory s' user) \/
      In t (getTransactionHistory s user) ->
      t_type t <> TBet /\ (t_type t = TWin \/ t_type t = TFee)).
Proof.
  intros Hs s'. subst s'. repeat split.
  - apply createMatch_transactions.
  - apply createMatch_wallets.
  - rewrite createMatch_balance, !balance_deduct.
    destruct (decide (p2 = p1)); [congruence|].
    rewrite decide_True by reflexivity.
    apply Z.leb_le in H0. now rewrite H0.
  - rewrite createMatch_balance, !balance_deduct.
    rewrite decide_True by reflexivity.
    destruct (decide (p1 = p2)); [congruence|].
    apply Z.leb_le in H1. now rewrite H1.
  - intros now' w. eapply completeMatch_transactions.
    rewrite createMatch_matches. apply lookup_insert_eq.
  - assert (In t (transactions s)) as Ht.
    { destruct H as [H|H]; unfold getTransactionHistory in H;
        apply JSFacts.sort_In, List.filter_In in H as [H _];
        [now rewrite createMatch_transactions in H | assumption]. }
    pose proof (reachable_log s Hs) as Hlog.
    rewrite List.Forall_forall in Hlog.
    destruct (Hlog t Ht) as [[[-> _]|[-> _]] _]; discriminate.
  - assert (In t (transactions s)) as Ht.
    { destruct H as [H|H]; unfold getTransactionHistory in H;
        apply JSFacts.sort_In, List.filter_In in H as [H _];
        [now rewrite createMatch_transactions in H | assumption]. }
    pose proof (reachable_log s Hs) as Hlog.
    rewrite List.Forall_forall in Hlog.
    destruct (Hlog t Ht) as [[[-> _]|[-> _]] _]; auto.
Qed.

Definition settled : SimpleAutomation :=
  run [CreditToWallet "alice" 100; CreditToWallet "bob" 100;
       CreateMatch "m1" 1000 "alice" "bob" 10;
       CompleteMatch 2000 "m1" "alice"] init.

Lemma createMatch_logs_no_bet_witness :
  reachable settled
  /\ transactions (snd (createMatch "m2" 3000 "alice" "bob" 10 settled)) =
     [winTx "m1" "alice" 2000; feeTx "m1" 2000]
  /\ getWalletBalance (snd (createMatch "m2" 3000 "alice" "bob" 10 settled))
       "alice" = 96
  /\ getWalletBalance (snd (createMatch "m2" 3000 "alice" "bob" 10 settled))
       "bob" = 80.
Proof.
  assert (Hr : reachable settled) by apply reachable_run.
  split; [exact Hr|].
  destruct (createMatch_logs_no_bet settled "m2" 3000 "alice" "bob" 10 Hr)
    as (Ht & _ & Hb & _).
  split; [rewrite Ht; vm_compute; reflexivity|].
  destruct Hb as [Ha Hb];
    [discriminate | vm_compute; discriminate | vm_compute; discriminate |].
  rewrite Ha, Hb. split; vm_compute; reflexivity.
Defined.

(** ** The ledger of a match *)

Lemma sumAmounts_app l1 l2 :
  sumAmounts (l1 ++ l2) = sumAmounts l1 + sumAmounts l2.
Proof.
  induction l1 as [|t l1 IH]; simpl; [reflexivity|]. rewrite IH. lia.
Qed.

Lemma ofMatch_winTx k matchId w now :
  ofMatch k (winTx matchId w now) = String.eqb matchId k.
Proof.
  unfold ofMatch, winTx; simpl. now rewrite orb_false_r.
Qed.

Lemma ofMatch_feeTx k matchId now :
  ofMatch k (feeTx matchId now) = String.eqb matchId k.
Proof. reflexivity. Qed.

Lemma ledgerSum_settle s s' k matchId w now :
  transactions s' =
    transactions s ++ [winTx matchId w now; feeTx matchId now] ->
  ledgerSum s' k =
  ledgerSum s k + (if String.eqb matchId k then winnerPayout + serverFee else 0).
Proof.
  intros E. unfold ledgerSum, matchLedger. rewrite E, List.filter_app, sumAmounts_app.
  f_equal. simpl. rewrite ofMatch_winTx, ofMatch_feeTx.
  destruct (String.eqb matchId k); simpl; lia.
Qed.

(** Every match's ledger is a whole number of settlements, at least one
    once the match is completed. *)
Definition ledgerInv (s : SimpleAutomation) : Prop :=
  forall k, exists n,
    0 <= n /\ ledgerSum s k = n * (winnerPayout + serverFee)
    /\ (forall m, matches s !! k = Some m -> m_status m = MCompleted -> 1 <= n).

Lemma ledgerInv_frame s s' :
  transactions s' = transactions s -> matches s' = matches s ->
  ledgerInv s -> ledgerInv s'.
Proof.
  intros Ht Hm H k. destruct (H k) as (n & ? & ? & ?). exists n.
  unfold ledgerSum, matchLedger in *. rewrite Ht, Hm. auto.
Qed.

Lemma reachable_ledgerInv s : reachable s -> ledgerInv s.
Proof.
  induction 1 as [|c s Hs IH].
  - intros k. exists 0. repeat split; try reflexivity.
    intros m Hm. change (matches init) with (∅ : gmap string MatchData) in Hm.
    now rewrite lookup_empty in Hm.
  - destruct c; cbn [exec].
    + intros k. destruct (IH k) as (n & Hn & Hsum & Hc). exists n.
      split; [assumption|]. split.
      * unfold ledgerSum, matchLedger in *. now rewrite createMatch_transactions.
      * intros m. rewrite createMatch_matches, lookup_insert.
        destruct (decide (matchId = k)) as [->|Hne].
        -- intros [= <-]. discriminate.
        -- apply Hc.
    + destruct (matches s !! matchId) as [m0|] eqn:E;
        [|now rewrite completeMatch_absent].
      intros k. destruct (IH k) as (n & Hn & Hsum & Hc).
      rewrite (ledgerSum_settle s _ k matchId winnerId now
                 (completeMatch_transactions _ _ _ _ _ E)).
      destruct (String.eqb_spec matchId k) as [->|Hne].
      * exists (n + 1). split; [lia|]. split; [lia|]. intros; lia.
      * exists n. split; [assumption|]. split; [lia|].
        intros m. rewrite (completeMatch_present _ _ _ _ _ E). simpl.
        rewrite lookup_insert_ne by assumption. apply Hc.
    + now apply (ledgerInv_frame s).
    + apply (ledgerInv_frame s);
        [apply deduct_transactions | apply deduct_matches | assumption].
    + now apply (ledgerInv_frame s).
Qed.




(** The stakes are conserved in the wallets, not in the log: with the
    default stake of 10 taken from two distinct players who can both pay,
    the three wallets involved hold after settlement what they held before
    the match. *)
Lemma stakes_conserved_in_wallets s matchId now now' p1 p2 w :
  p1 <> p2 -> p1 <> developer -> p2 <> developer ->
  10 <= getWalletBalance s p1 -> 10 <= getWalletBalance s p2 ->
  w = p1 \/ w = p2 ->
  let s' := completeMatch now' matchId w
              (snd (createMatch matchId now p1 p2 10 s)) in
  getWalletBalance s' p1 + getWalletBalance s' p2 + getWalletBalance s' developer
  = getWalletBalance s p1 + getWalletBalance s p2 + getWalletBalance s developer.
Proof.
  intros H12 H1d H2d Hb1 Hb2 Hw s'. subst s'.
  assert (Hm : matches (snd (createMatch matchId now p1 p2 10 s)) !! matchId
               = Some (mkMatch matchId p1 p2 10 None MPending now None)).
  { rewrite createMatch_matches. apply lookup_insert_eq. }
  rewrite !(completeMatch_balance _ _ _ _ _ _ Hm), !balance_credit,
    !createMatch_balance, !balance_deduct.
  apply Z.leb_le in Hb1, Hb2. unfold winnerPayout, serverFee.
  destruct Hw as [-> | ->];
    repeat (destruct (decide _); subst; try congruence);
    rewrite ?Hb1, ?Hb2; lia.
Qed.




(** ** Insufficient funds *)

(** [deductFromWallet] refuses a deduction larger than the balance and then
    changes nothing. *)
Lemma deduct_rejects u amt s :
  getWalletBalance s u < amt -> deductFromWallet u amt s = (false, s).
Proof.
  intros H. unfold deductFromWallet.
  apply Z.leb_gt in H. now rewrite H.
Qed.

(** C3. A player with balance 5 and an opponent with balance 100 are put in
    a match with betAmount 10: createMatch returns the match id (there is no
    error result), the match is in the match map, the opponent has been
    debited 10 and the player with 5 has not; no transaction is logged. *)
Theorem createMatch_ignores_failed_deduction :
  let s0 := run [CreditToWallet "alice" 5; CreditToWallet "bob" 100] init in
  let r := createMatch "m1" 1000 "alice" "bob" 10 s0 in
  deductFromWallet "alice" 10 s0 = (false, s0)
  /\ fst r = "m1"
  /\ matches s0 !! "m1" = None
  /\ matches (snd r) !! "m1" =
     Some (mkMatch "m1" "alice" "bob" 10 None MPending 1000 None)
  /\ getWalletBalance (snd r) "alice" = 5
  /\ getWalletBalance s0 "bob" = 100
  /\ getWalletBalance (snd r) "bob" = 90
  /\ transactions (snd r) = [].
Proof. vm_compute. repeat split; reflexivity. Qed.

(** The same for every state: whoever cannot pay, the match is registered
    and its id returned, and the second player is debited whenever that
    player can pay. *)
Lemma createMatch_never_rejects matchId now p1 p2 bet s :
  getWalletBalance s p1 < bet ->
  let r := createMatch matchId now p1 p2 bet s in
  fst r = matchId
  /\ is_Some (matches (snd r) !! matchId)
  /\ transactions (snd r) = transactions s
  /\ (p1 <> p2 -> getWalletBalance (snd r) p1 = getWalletBalance s p1)
  /\ (p1 <> p2 -> bet <= getWalletBalance s p2 ->
      getWalletBalance (snd r) p2 = getWalletBalance s p2 - bet).
Proof.
  intros H r. subst r. split; [reflexivity|].
  split; [rewrite createMatch_matches, lookup_insert_eq; eauto|].
  split; [apply createMatch_transactions|].
  apply Z.leb_gt in H.
  split; intros; rewrite createMatch_balance, !balance_deduct.
  - destruct (decide (p2 = p1)); [congruence|].
    rewrite decide_True by reflexivity. now rewrite H.
  - rewrite decide_True by reflexivity.
    destruct (decide (p1 = p2)); [congruence|].
    apply Z.leb_le in H1. now rewrite H1.
Qed.

End AutomationFacts.

(** * Facts about WalletProcessor *)

Module WalletFacts.
Import Wallet.

(** ** No balance below zero

    The invariant: every stored balance is non-negative, and every
    transaction waiting in review carries an amount above the auto-approval
    limit (it has passed the bounds check of [processWithdrawalTransaction]
    and was too large to be approved at once). *)
Definition balancesOk (b : gmap string Z) : Prop :=
  forall player v, b !! player = Some v -> 0 <= v.

Definition reviewsOk (h : gmap ref Transaction) : Prop :=
  forall r t, h !! r = Some t -> status t = SReview ->
    autoApprovalLimit config < amount t.

Definition good (p : WalletProcessor) : Prop :=
  balancesOk (playerBalances (state p)) /\ reviewsOk (heap p).

Lemma good_ext p p' :
  playerBalances (state p') = playerBalances (state p) ->
  heap p' = heap p -> good p -> good p'.
Proof. intros Hb Hh [? ?]. split; [now rewrite Hb | now rewrite Hh]. Qed.

Lemma good_balance p player : good p -> 0 <= getPlayerBalance p player.
Proof.
  intros [Hb _]. unfold getPlayerBalance, JS.orZero.
  destruct (playerBalances (state p) !! player) eqn:E; simpl; [eauto | lia].
Qed.

Lemma good_mutate r f p :
  (forall t, heap p !! r = Some t -> status (f t) = SReview ->
     autoApprovalLimit config < amount (f t)) ->
  good p -> good (mutate r f p).
Proof.
  intros Hf [Hb Hr]. split; [exact Hb|].
  intros r' t'. unfold mutate; simpl. rewrite lookup_alter.
  destruct (decide (r = r')) as [<-|Hne].
  - destruct (heap p !! r) as [t|] eqn:E; simpl; [|discriminate].
    intros [= <-]. now apply Hf.
  - apply Hr.
Qed.

Lemma good_storeTransaction r p : good p -> good (storeTransaction r p).
Proof.
  unfold storeTransaction. destruct (heap p !! r); [|trivial].
  now apply good_ext.
Qed.

Lemma good_failTransaction now r reason p :
  good p -> good (failTransaction now r reason p).
Proof.
  intros H. unfold failTransaction. apply good_storeTransaction, good_mutate;
    [discriminate | assumption].
Qed.

Lemma good_setTimer task p : good p -> good (snd (setTimer task p)).
Proof. now apply good_ext. Qed.

Lemma good_clearInterval h p : good p -> good (clearInterval h p).
Proof. now apply good_ext. Qed.

Lemma good_credit r t p :
  heap p !! r = Some t -> 0 <= amount t -> good p ->
  good (withState (fun s => setPlayerBalances
          (<[playerId t := getPlayerBalance p (playerId t) + amount t]>
             (playerBalances s)) s) p).
Proof.
  intros Ht Ha H. pose proof (good_balance p (playerId t) H) as Hc.
  destruct H as [Hb Hr]. split; [|exact Hr].
  intros player v; simpl. rewrite lookup_insert.
  destruct (decide (playerId t = player)); [intros [= <-]; lia | apply Hb].
Qed.

Lemma good_approveDeposit now r p :
  (forall t, heap p !! r = Some t -> 0 <= amount t) ->
  good p -> good (approveDeposit now r p).
Proof.
  intros Ha H. unfold approveDeposit.
  destruct (heap p !! r) as [t|] eqn:E; [|assumption].
  eapply good_ext; [reflexivity | reflexivity |].
  apply good_storeTransaction, good_mutate; [discriminate|].
  apply (good_credit r t p E); auto.
Qed.

Lemma good_approveWithdrawal now r p :
  (forall t, heap p !! r = Some t -> 0 <= amount t) ->
  good p -> good (approveWithdrawal now r p).
Proof.
  intros Ha H. unfold approveWithdrawal.
  destruct (heap p !! r) as [t|] eqn:E; [|assumption].
  unfold simulateBankTransfer. apply good_setTimer.
  eapply good_ext; [reflexivity | reflexivity |].
  apply good_storeTransaction, good_mutate; [discriminate|].
  apply (good_credit r t p E); auto.
Qed.

Lemma good_processDepositTransaction now ok r p :
  good p -> good (processDepositTransaction now ok r p).
Proof.
  intros H. unfold processDepositTransaction.
  destruct (heap p !! r) as [t|] eqn:E; [|assumption].
  destruct (_ || _) eqn:V; [now apply good_failTransaction|].
  apply orb_false_elim in V as [V1 _]. apply Z.ltb_ge in V1. simpl in V1.
  destruct ok; [|now apply good_failTransaction].
  apply good_approveDeposit; [|assumption].
  intros t' Ht'. rewrite E in Ht'. injection Ht' as <-. lia.
Qed.

Lemma good_processDeposits now gw batch : forall i p,
  good p -> good (processDeposits now gw i batch p).
Proof.
  induction batch as [|r rest IH]; intros i p H; simpl; [assumption|].
  apply IH. now apply good_processDepositTransaction.
Qed.

Lemma good_processAutomaticDeposits now gw p :
  good p -> good (processAutomaticDeposits now gw p).
Proof.
  intros H. unfold processAutomaticDeposits.
  destruct (pendingDeposits (state p)); [assumption|].
  apply good_processDeposits. now apply (good_ext p).
Qed.

Lemma good_queueForManualReview r p :
  (forall t, heap p !! r = Some t -> autoApprovalLimit config < amount t) ->
  good p -> good (queueForManualReview r p).
Proof.
  intros Ha H. unfold queueForManualReview.
  apply good_setTimer, good_storeTransaction, good_mutate; [|assumption].
  intros t Ht _. simpl. now apply Ha.
Qed.

Lemma good_processWithdrawalTransaction now r p :
  good p -> good (processWithdrawalTransaction now r p).
Proof.
  intros H. unfold processWithdrawalTransaction.
  destruct (heap p !! r) as [t|] eqn:E; [|assumption].
  destruct (_ || _) eqn:V; [now apply good_failTransaction|].
  apply orb_false_elim in V as [V1 _]. apply Z.ltb_ge in V1. simpl in V1.
  assert (Ha : forall t', heap p !! r = Some t' -> 0 <= amount t').
  { intros t' Ht'. rewrite E in Ht'. injection Ht' as <-. lia. }
  destruct (_ <? _); [now apply good_failTransaction|].
  destruct (_ <=? _) eqn:L; [now apply good_approveWithdrawal|].
  apply good_queueForManualReview; [|assumption].
  intros t' Ht'. rewrite E in Ht'. injection Ht' as <-.
  apply Z.leb_gt in L. lia.
Qed.

Lemma good_fold_left {X} (f : WalletProcessor -> X -> WalletProcessor) l :
  (forall q x, good q -> good (f q x)) ->
  forall p, good p -> good (fold_left f l p).
Proof.
  intros Hf. induction l as [|x l IH]; intros p H; simpl; [assumption|].
  apply IH, Hf, H.
Qed.

Lemma good_processAutomaticWithdrawals now p :
  good p -> good (processAutomaticWithdrawals now p).
Proof.
  intros H. unfold processAutomaticWithdrawals.
  destruct (pendingWithdrawals (state p)); [assumption|].
  apply good_fold_left; [|now apply (good_ext p)].
  intros q x. apply good_processWithdrawalTransaction.
Qed.

Lemma good_retryTransaction now r p : good p -> good (retryTransaction now r p).
Proof.
  intros H. unfold retryTransaction.
  set (p1 := mutate r _ p).
  assert (H1 : good p1) by (apply good_mutate; [discriminate | assumption]).
  destruct (heap p1 !! r) as [t|]; [|assumption].
  destruct (3 <? _); [now apply good_failTransaction|].
  destruct (type t); try assumption; now apply (good_ext p1).
Qed.

Lemma good_handleStuckTransaction now r p :
  good p -> good (handleStuckTransaction now r p).
Proof.
  intros H. unfold handleStuckTransaction.
  destruct (heap p !! r) as [t|]; [|assumption].
  destruct (type t);
    [now apply good_retryTransaction | now apply good_failTransaction ..].
Qed.

Lemma good_validateTransactions now p : good p -> good (validateTransactions now p).
Proof.
  unfold validateTransactions. apply good_fold_left.
  intros q r Hq. destruct (heap q !! r) as [t|]; [|assumption].
  destruct (_ && _); [now apply good_handleStuckTransaction | assumption].
Qed.

Lemma good_collectSystemFees p : good p -> good (collectSystemFees p).
Proof.
  intros H. unfold collectSystemFees.
  match goal with |- context [fold_left ?f ?l (0, p)] =>
    assert (Hf : forall acc, good (snd acc) -> good (snd (fold_left f l acc)))
  end.
  { generalize (List.filter
      (fun r => match heap p !! r with
                | Some t => TxType_eqb (type t) TServerFee
                            && TxStatus_eqb (status t) SPending
                | None => false
                end) (JS.map_values (transactions (state p)))).
    induction l as [|r l IH]; intros [total q] Hq; simpl in *; [assumption|].
    apply IH. destruct (heap q !! r) as [t|]; simpl; [|assumption].
    apply good_mutate; [discriminate|]. now apply (good_ext q). }
  specialize (Hf (0, p) H).
  destruct (fold_left _ _ (0, p)) as [total p1]. simpl in Hf.
  destruct (0 <? total); [now apply (good_ext p1) | assumption].
Qed.

Lemma good_cleanupWalletData now p : good p -> good (cleanupWalletData now p).
Proof.
  unfold cleanupWalletData. apply good_fold_left.
  intros q e Hq. destruct (heap q !! e.2) as [t|]; [|assumption].
  destruct (_ && _); [now apply (good_ext q) | assumption].
Qed.

Lemma good_start p : good p -> good (startAutomatedWalletProcessing p).
Proof.
  intros H. unfold startAutomatedWalletProcessing.
  destruct (isRunning p); [assumption | now apply (good_ext p)].
Qed.

Lemma good_stop p : good p -> good (stop p).
Proof.
  intros H. unfold stop. eapply good_ext; [reflexivity | reflexivity |].
  apply good_fold_left; [intros; now apply good_clearInterval|].
  now apply (good_ext p).
Qed.

Lemma good_fire h now gw p : good p -> good (fire h now gw p).
Proof.
  intros H. unfold fire. destruct (timerTask h p) as [[[]|w|w|]|];
    auto using good_processAutomaticDeposits, good_processAutomaticWithdrawals,
      good_validateTransactions, good_collectSystemFees, good_cleanupWalletData,
      good_clearInterval, good_start.
  pose proof (good_clearInterval h p H) as H1.
  destruct (heap (clearInterval h p) !! w) as [t|] eqn:E; [|assumption].
  destruct (TxStatus_eqb (status t) SReview) eqn:S; [|assumption].
  apply good_approveWithdrawal; [|assumption].
  intros t' Ht'. rewrite E in Ht'. injection Ht' as <-.
  destruct H1 as [_ Hr]. assert (autoApprovalLimit config < amount t);
    [apply (Hr w t E); now destruct (status t) | simpl in *; lia].
Qed.

Lemma good_alloc t p : status t <> SReview -> good p -> good (snd (alloc t p)).
Proof.
  intros Hs [Hb Hr]. split; [exact Hb|].
  intros r t'; simpl. rewrite lookup_insert.
  destruct (decide (nextRef p = r)); [intros [= <-]; contradiction | apply Hr].
Qed.

Lemma good_processDeposit txId now player amt method p :
  good p -> good (snd (processDeposit txId now player amt method p)).
Proof.
  intros H. unfold processDeposit.
  apply (good_ext (snd (alloc (mkTx txId player TDeposit amt SPending now
                                 (Some method) None None None None) p)));
    [reflexivity | reflexivity | now apply good_alloc].
Qed.

Lemma good_processWithdrawal txId now player amt p :
  good p -> good (snd (processWithdrawal txId now player amt p)).
Proof.
  intros H. unfold processWithdrawal.
  apply (good_ext (snd (alloc (mkTx txId player TWithdrawal (- amt) SPending now
                                 None None None None None) p)));
    [reflexivity | reflexivity | now apply good_alloc].
Qed.

Lemma good_addServerFee now matchId amt p :
  good p -> good (addServerFee now matchId amt p).
Proof.
  intros H. unfold addServerFee.
  apply (good_storeTransaction (nextRef p)
           (snd (alloc (mkTx ("fee_" +:+ matchId +:+ "_" +:+ pretty now)
                          (developerWalletId config) TServerFee amt SPending now
                          None (Some matchId) None None None) p))).
  now apply good_alloc.
Qed.

Lemma good_exec a p : good p -> good (exec a p).
Proof.
  intros H. destruct a; cbn [exec].
  - now apply good_processDeposit.
  - now apply good_processWithdrawal.
  - now apply good_addServerFee.
  - now apply good_stop.
  - unfold restart. now apply good_setTimer, good_stop.
  - now apply good_fire.
Qed.

Lemma good_create : good create.
Proof.
  apply good_start. split.
  - intros player v; simpl. now rewrite lookup_empty.
  - intros r t; simpl. now rewrite lookup_empty.
Qed.

Lemma wallet_reachable_good p : reachable p -> good p.
Proof.
  induction 1; [apply good_create | now apply good_exec].
Qed.

Lemma wallet_reachable_run acts : reachable (run acts create).
Proof.
  unfold run. generalize create, reach_create.
  induction acts as [|a acts IH]; intros p Hp; simpl; [assumption|].
  apply IH. now constructor.
Qed.

(** ** Processing a deposit again *)

Lemma map_set_get {V} k (v : V) m : JS.map_get k (JS.map_set k v m) = Some v.
Proof.
  induction m as [|[k' v'] m IH]; simpl.
  - now rewrite String.eqb_refl.
  - destruct (String.eqb k' k) eqn:E; simpl; [now rewrite String.eqb_refl|].
    now rewrite E.
Qed.

Lemma map_set_idem {V} k (v : V) m :
  JS.map_set k v (JS.map_set k v m) = JS.map_set k v m.
Proof.
  induction m as [|[k' v'] m IH]; simpl.
  - now rewrite String.eqb_refl.
  - destruct (String.eqb k' k) eqn:E; simpl.
    + now rewrite String.eqb_refl.
    + now rewrite E, IH.
Qed.

(** The gateway is reached, and decides, only for an amount within the
    deposit bounds. *)
Definition accepted (gatewayOk : bool) (t : Transaction) : bool :=
  negb ((amount t <? minDeposit config) || (maxDeposit config <? amount t))
  && gatewayOk.

Lemma processDepositTransaction_spec now ok r p t :
  heap p !! r = Some t ->
  let p' := processDepositTransaction now ok r p in
  (exists t', heap p' !! r = Some t'
     /\ id t' = id t /\ playerId t' = playerId t /\ amount t' = amount t
     /\ type t' = type t /\ timestamp t' = timestamp t
     /\ completedAt t' = Some now
     /\ status t' = if accepted ok t then SCompleted else SFailed)
  /\ transactions (state p') = JS.map_set (id t) r (transactions (state p))
  /\ playerBalances (state p') =
     (if accepted ok t
      then <[playerId t := getPlayerBalance p (playerId t) + amount t]>
             (playerBalances (state p))
      else playerBalances (state p)).
Proof.
  intros H p'. subst p'. unfold processDepositTransaction, accepted. rewrite H.
  destruct (_ || _); simpl; [|destruct ok; simpl].
  - unfold failTransaction, storeTransaction, mutate; simpl.
    rewrite lookup_alter_eq, H; simpl. split; [|split; reflexivity].
    rewrite lookup_alter_eq, H; simpl. eexists; split; [reflexivity|].
    repeat split.
  - unfold approveDeposit. rewrite H.
    unfold storeTransaction, mutate; simpl.
    rewrite lookup_alter_eq, H; simpl. split; [|split; reflexivity].
    rewrite lookup_alter_eq, H; simpl. eexists; split; [reflexivity|].
    repeat split.
  - unfold failTransaction, storeTransaction, mutate; simpl.
    rewrite lookup_alter_eq, H; simpl. split; [|split; reflexivity].
    rewrite lookup_alter_eq, H; simpl. eexists; split; [reflexivity|].
    repeat split.
Qed.

Lemma processDepositTransaction_balance now ok r p t :
  heap p !! r = Some t ->
  getPlayerBalance (processDepositTransaction now ok r p) (playerId t) =
  getPlayerBalance p (playerId t) + (if accepted ok t then amount t else 0).
Proof.
  intros H.
  destruct (processDepositTransaction_spec now ok r p t H) as (_ & _ & Hb).
  unfold getPlayerBalance at 1. rewrite Hb.
  destruct (accepted ok t).
  - now rewrite lookup_insert_eq.
  - unfold getPlayerBalance. lia.
Qed.




(** ** What stop cancels *)

(** [stop] clears the handles recorded in [intervals] and nothing else. *)
Lemma clearInterval_keeps h h' task p :
  h' <> h -> In (h', task) (timers p) -> In (h', task) (timers (clearInterval h p)).
Proof.
  intros Hne Hin. unfold clearInterval; simpl. apply List.filter_In.
  split; [assumption|]. simpl. now apply negb_true_iff, Nat.eqb_neq.
Qed.

Lemma stop_keeps_untracked h task p :
  ~ In h (JS.map_values (intervals p)) ->
  In (h, task) (timers p) -> In (h, task) (timers (stop p)).
Proof.
  unfold stop. simpl intervals.
  change (timers (withIntervals [] ?q)) with (timers q).
  assert (G : forall hs q, ~ In h hs -> In (h, task) (timers q) ->
            In (h, task) (timers (fold_left (fun q h => clearInterval h q) hs q))).
  { induction hs as [|h0 hs IH]; intros q Hn Hin; simpl; [assumption|].
    apply IH; [intros ?; apply Hn; now right|].
    apply clearInterval_keeps; [|assumption]. intros ->. apply Hn. now left. }
  intros Hn Hin. now apply G.
Qed.

(** The run used below: alice deposits 1000, the deposit ticker (handle 1)
    approves it; a withdrawal request whose stored amount is 600 passes the
    bounds and balance checks when the withdrawal ticker (handle 2) runs, is
    above the auto-approval limit and goes to review, which arms the
    30-second timeout (handle 7). *)
Definition always (b : bool) (i : nat) : bool := b.

Definition inReview : WalletProcessor :=
  run [ProcessDeposit "dep_1" 1000 "alice" 1000 "upi";
       Fire 1%nat 3000 (always true);
       ProcessWithdrawal "wd_1" 4000 "alice" (-600);
       Fire 2%nat 5000 (always true)] create.

(** C7. With a withdrawal in review, stop() clears the six tickers and
    leaves the review timeout in the timer table, because
    queueForManualReview never records its handle; when that timeout fires
    after stop() has returned it approves the withdrawal and changes
    alice's balance and the transaction.  The timeout of restart() escapes
    stop() in the same way and starts the tickers again. *)
Theorem stop_leaves_timeouts_armed :
  let stopped := stop inReview in
  let later := fire 7%nat 35000 (always true) stopped in
  let restarted := fire 7%nat 2000 (always true) (stop (restart create)) in
  length (timers inReview) = 7%nat
  /\ isRunning stopped = false
  /\ intervals stopped = []
  /\ timers stopped = [(7%nat, ReviewApproval 1%nat)]
  /\ status <$> heap stopped !! 1%nat = Some SReview
  /\ getPlayerBalance stopped "alice" = 1000
  /\ getPlayerBalance later "alice" = 1600
  /\ status <$> heap later !! 1%nat = Some SCompleted
  /\ timers (stop (restart create)) = [(7%nat, Restarting)]
  /\ isRunning restarted = true
  /\ length (timers restarted) = 6%nat.
Proof. vm_compute. repeat split; reflexivity. Qed.

End WalletFacts.

Module WalletTimers.
Import Wallet WalletFacts.

(** ** Timers that stop does not know

    Handles are issued in increasing order and never reused; the handles
    recorded in [intervals] are those of the tickers. *)
Definition isTick (task : Task) : Prop := exists tk, task = Tick tk.

Definition handlesOk (p : WalletProcessor) : Prop :=
  List.NoDup (List.map fst (timers p))
  /\ (forall h task, In (h, task) (timers p) -> (h < nextHandle p)%nat).

Definition timersOk (p : WalletProcessor) : Prop :=
  handlesOk p
  /\ (forall h, In h (JS.map_values (intervals p)) ->
        (h < nextHandle p)%nat
        /\ forall task, In (h, task) (timers p) -> isTick task).

(** [q] has the recorded handles of [p]; its timers are timers of [p] or
    new ones, with new handles. *)
Definition grows (p q : WalletProcessor) : Prop :=
  intervals q = intervals p
  /\ (handlesOk p ->
      handlesOk q /\ (nextHandle p <= nextHandle q)%nat
      /\ forall h task, In (h, task) (timers q) ->
           In (h, task) (timers p) \/ (nextHandle p <= h)%nat).

Lemma NoDup_keys_filter {K V} (f : K * V -> bool) (l : list (K * V)) :
  List.NoDup (List.map fst l) -> List.NoDup (List.map fst (List.filter f l)).
Proof.
  induction l as [|[k v] l IH]; simpl; [trivial|].
  intros Hnd. apply List.NoDup_cons_iff in Hnd as [Hk Hnd].
  destruct (f (k, v)); simpl; [|now apply IH].
  apply List.NoDup_cons_iff. split; [|now apply IH].
  intros H. apply Hk. apply in_map_iff in H as ([k1 v1] & E & H). simpl in E. subst k1.
  apply List.filter_In in H as [H _]. apply (in_map fst) in H. exact H.
Qed.

Lemma grows_refl p : grows p p.
Proof. split; [reflexivity|]. intros H. repeat split; try apply H; auto. Qed.

Lemma grows_trans p q r : grows p q -> grows q r -> grows p r.
Proof.
  intros [I1 G1] [I2 G2]. split; [congruence|]. intros Hp.
  destruct (G1 Hp) as (Hq & L1 & T1). destruct (G2 Hq) as (Hr & L2 & T2).
  split; [exact Hr|]. split; [lia|].
  intros h task H. destruct (T2 h task H) as [H'|H']; [|right; lia].
  destruct (T1 h task H'); auto.
Qed.

Lemma grows_same p q :
  intervals q = intervals p -> timers q = timers p -> nextHandle q = nextHandle p ->
  grows p q.
Proof.
  intros Hi Ht Hn. split; [exact Hi|]. unfold handlesOk. rewrite Ht, Hn.
  intros H. repeat split; try apply H; auto.
Qed.

Lemma grows_fold {X} (f : WalletProcessor -> X -> WalletProcessor) l :
  (forall q x, grows q (f q x)) -> forall p, grows p (fold_left f l p).
Proof.
  intros Hf. induction l as [|x l IH]; intros p; simpl; [apply grows_refl|].
  eapply grows_trans; [apply Hf | apply IH].
Qed.

Lemma grows_setTimer task p : grows p (snd (setTimer task p)).
Proof.
  split; [reflexivity|]. intros [Hnd Hlt]. unfold handlesOk. simpl.
  split; [split|split].
  - rewrite List.map_app. simpl. apply List.NoDup_app; [assumption | repeat constructor; intros [] |].
    intros h Hin [<-|[]]. apply in_map_iff in Hin as ([h' task'] & E & Hin).
    simpl in E. subst h'. apply Hlt in Hin. lia.
  - intros h task' H. apply in_app_or in H as [H|[H|[]]].
    + apply Hlt in H. lia.
    + injection H as <- _. lia.
  - lia.
  - intros h task' H. apply in_app_or in H as [H|[H|[]]]; [now left|].
    injection H as <- _. right. lia.
Qed.

Lemma grows_clearInterval h p : grows p (clearInterval h p).
Proof.
  split; [reflexivity|]. intros [Hnd Hlt]. unfold handlesOk. simpl.
  split; [split|split].
  - now apply NoDup_keys_filter.
  - intros h' task H. apply List.filter_In in H as [H _]. eauto.
  - lia.
  - intros h' task H. apply List.filter_In in H as [H _]. now left.
Qed.

Lemma grows_storeTransaction r p : grows p (storeTransaction r p).
Proof.
  unfold storeTransaction. destruct (heap p !! r); [now apply grows_same | apply grows_refl].
Qed.

Lemma grows_failTransaction now r reason p : grows p (failTransaction now r reason p).
Proof.
  unfold failTransaction.
  eapply grows_trans; [|apply grows_storeTransaction]. now apply grows_same.
Qed.

Lemma grows_retryTransaction now r p : grows p (retryTransaction now r p).
Proof.
  unfold retryTransaction. set (p1 := mutate r _ p).
  assert (H1 : grows p p1) by now apply grows_same.
  destruct (heap p1 !! r) as [t|]; [|exact H1].
  destruct (3 <? _);
    [eapply grows_trans; [exact H1 | apply grows_failTransaction]|].
  destruct (type t); try exact H1;
    (eapply grows_trans; [exact H1 | now apply grows_same]).
Qed.

Lemma grows_approveDeposit now r p : grows p (approveDeposit now r p).
Proof.
  unfold approveDeposit. destruct (heap p !! r) as [t|]; [|apply grows_refl].
  eapply grows_trans; [|now apply grows_same].
  eapply grows_trans; [|apply grows_storeTransaction]. now apply grows_same.
Qed.

Lemma grows_approveWithdrawal now r p : grows p (approveWithdrawal now r p).
Proof.
  unfold approveWithdrawal, simulateBankTransfer.
  destruct (heap p !! r) as [t|]; [|apply grows_refl].
  eapply grows_trans; [|apply grows_setTimer].
  eapply grows_trans; [|now apply grows_same].
  eapply grows_trans; [|apply grows_storeTransaction]. now apply grows_same.
Qed.

Lemma grows_queueForManualReview r p : grows p (queueForManualReview r p).
Proof.
  unfold queueForManualReview.
  eapply grows_trans; [|apply grows_setTimer].
  eapply grows_trans; [|apply grows_storeTransaction]. now apply grows_same.
Qed.

Lemma grows_processDepositTransaction now ok r p :
  grows p (processDepositTransaction now ok r p).
Proof.
  unfold processDepositTransaction. destruct (heap p !! r) as [t|]; [|apply grows_refl].
  destruct (_ || _); [apply grows_failTransaction|].
  destruct ok; [apply grows_approveDeposit | apply grows_failTransaction].
Qed.

Lemma grows_processDeposits now gw batch : forall i p,
  grows p (processDeposits now gw i batch p).
Proof.
  induction batch as [|r rest IH]; intros i p; simpl; [apply grows_refl|].
  eapply grows_trans; [apply grows_processDepositTransaction | apply IH].
Qed.

Lemma grows_processWithdrawalTransaction now r p :
  grows p (processWithdrawalTransaction now r p).
Proof.
  unfold processWithdrawalTransaction.
  destruct (heap p !! r) as [t|]; [|apply grows_refl].
  destruct (_ || _); [apply grows_failTransaction|].
  destruct (_ <? _); [apply grows_failTransaction|].
  destruct (_ <=? _); [apply grows_approveWithdrawal | apply grows_queueForManualReview].
Qed.

Lemma grows_tick tk now gw p :
  grows p (match tk with
           | Deposits => processAutomaticDeposits now gw p
           | Withdrawals => processAutomaticWithdrawals now p
           | Balance => synchronizeBalances p
           | Validation => validateTransactions now p
           | Fees => collectSystemFees p
           | Cleanup => cleanupWalletData now p
           end).
Proof.
  destruct tk.
  - unfold processAutomaticDeposits. destruct (pendingDeposits (state p)) eqn:E;
      [apply grows_refl|].
    eapply grows_trans; [|apply grows_processDeposits]. now apply grows_same.
  - unfold processAutomaticWithdrawals. destruct (pendingWithdrawals (state p)) eqn:E;
      [apply grows_refl|].
    eapply grows_trans; [|apply grows_fold; intros; apply grows_processWithdrawalTransaction].
    now apply grows_same.
  - apply grows_refl.
  - unfold validateTransactions. apply grows_fold. intros q r.
    destruct (heap q !! r) as [t|]; [|apply grows_refl].
    destruct (_ && _); [|apply grows_refl].
    unfold handleStuckTransaction. destruct (heap q !! r) as [t'|]; [|apply grows_refl].
    destruct (type t'); auto using grows_retryTransaction, grows_failTransaction.
  - unfold collectSystemFees.
    match goal with |- context [fold_left ?f ?l (0, p)] =>
      assert (Hf : forall l' acc, grows p (snd acc) -> grows p (snd (fold_left f l' acc)));
      [|specialize (Hf l (0, p) (grows_refl p))]
    end.
    { induction l' as [|r l' IH]; intros [total q] Hq; simpl in *; [assumption|].
      apply IH. destruct (heap q !! r) as [t|]; simpl; [|assumption].
      eapply grows_trans; [exact Hq | now apply grows_same]. }
    destruct (fold_left _ _ (0, p)) as [total p1]. simpl in Hf.
    destruct (0 <? total); [|exact Hf].
    eapply grows_trans; [exact Hf | now apply grows_same].
  - unfold cleanupWalletData. apply grows_fold. intros q e.
    destruct (heap q !! e.2) as [t|]; [|apply grows_refl].
    destruct (_ && _); [now apply grows_same | apply grows_refl].
Qed.

Lemma timersOk_grows p q : grows p q -> timersOk p -> timersOk q.
Proof.
  intros [Hi G] [Hp Htr]. destruct (G Hp) as (Hq & Hle & Ht).
  split; [exact Hq|]. rewrite Hi. intros h Hin. destruct (Htr h Hin) as [Hlt Htk].
  split; [lia|]. intros task H. destruct (Ht h task H) as [H'|H']; [auto | lia].
Qed.

Lemma map_set_values {V} k (v : V) l x :
  In x (JS.map_values (JS.map_set k v l)) -> x = v \/ In x (JS.map_values l).
Proof.
  unfold JS.map_values. induction l as [|[k' v'] l IH]; simpl.
  - intros [<-|[]]. now left.
  - destruct (String.eqb k' k); simpl.
    + intros [<-|H]; [now left | right; now right].
    + intros [<-|H]; [right; now left|]. destruct (IH H); auto.
Qed.

Lemma timersOk_start p : timersOk p -> timersOk (startAutomatedWalletProcessing p).
Proof.
  intros H. unfold startAutomatedWalletProcessing.
  destruct (isRunning p); [exact H|]. destruct H as ([Hnd Hlt] & Htr).
  set (n := nextHandle p). unfold timersOk, handlesOk. simpl. fold n.
  repeat rewrite <- List.app_assoc. simpl.
  split; [split|].
  - rewrite List.map_app. simpl. apply List.NoDup_app; [exact Hnd | |].
    + repeat (constructor; [simpl; intros ?; lia|]). constructor.
    + intros h Hin Hh. apply in_map_iff in Hin as ([h' task'] & E & Hin).
      simpl in E. subst h'. apply Hlt in Hin. fold n in Hin. simpl in Hh. lia.
  - intros h task Hin. apply in_app_or in Hin as [Hin|Hin].
    + apply Hlt in Hin. fold n in Hin. lia.
    + simpl in Hin. fold n.
      repeat (destruct Hin as [Hin|Hin]; [injection Hin as <- _; lia|]). destruct Hin.
  - intros h Hin.
    assert (Hh : (n <= h < 6 + n)%nat \/ In h (JS.map_values (intervals p))).
    { repeat (apply map_set_values in Hin as [->|Hin]; [left; lia|]). now right. }
    destruct Hh as [Hh|Hh].
    + split; [lia|]. intros task Ht. apply in_app_or in Ht as [Ht|Ht].
      * apply Hlt in Ht. fold n in Ht. lia.
      * simpl in Ht.
        repeat (destruct Ht as [Ht|Ht]; [injection Ht as _ <-; eexists; reflexivity|]).
        destruct Ht.
    + destruct (Htr h Hh) as [Hl Htk]. fold n in Hl. split; [lia|].
      intros task Ht. apply in_app_or in Ht as [Ht|Ht]; [now apply Htk|].
      simpl in Ht.
      repeat (destruct Ht as [Ht|Ht]; [injection Ht as <- _; lia|]). destruct Ht.
Qed.

Lemma timersOk_stop p : timersOk p -> timersOk (stop p).
Proof.
  intros [Hp _]. unfold stop. split.
  - assert (G : grows p (fold_left (fun q h => clearInterval h q)
                           (JS.map_values (intervals (withRunning false p)))
                           (withRunning false p))).
    { eapply grows_trans; [|apply grows_fold; intros; apply grows_clearInterval].
      now apply grows_same. }
    destruct G as [_ G]. destruct (G Hp) as (Hq & _). exact Hq.
  - intros h [].
Qed.

Lemma timersOk_fire h now gw p : timersOk p -> timersOk (fire h now gw p).
Proof.
  intros H. unfold fire. destruct (timerTask h p) as [[tk|w|w|]|]; [| | | |exact H].
  - apply (timersOk_grows p); [|exact H]. apply (grows_tick tk now gw p).
  - apply (timersOk_grows p); [|exact H].
    pose proof (grows_clearInterval h p) as G1.
    destruct (heap (clearInterval h p) !! w) as [t|]; [|exact G1].
    destruct (TxStatus_eqb _ _); [|exact G1].
    eapply grows_trans; [exact G1 | apply grows_approveWithdrawal].
  - apply (timersOk_grows p); [apply grows_clearInterval | exact H].
  - apply timersOk_start. apply (timersOk_grows p); [apply grows_clearInterval | exact H].
Qed.

Lemma grows_addServerFee now mid amt p : grows p (addServerFee now mid amt p).
Proof.
  unfold addServerFee.
  eapply grows_trans;
    [|apply (grows_storeTransaction (nextRef p)
               (snd (alloc (mkTx ("fee_" +:+ mid +:+ "_" +:+ pretty now)
                        (developerWalletId config) TServerFee amt SPending now
                        None (Some mid) None None None) p)))].
  now apply grows_same.
Qed.

Lemma timersOk_exec a p : timersOk p -> timersOk (exec a p).
Proof.
  intros H. destruct a; cbn [exec].
  - apply (timersOk_grows p); [now apply grows_same | exact H].
  - apply (timersOk_grows p); [now apply grows_same | exact H].
  - apply (timersOk_grows p); [apply grows_addServerFee | exact H].
  - now apply timersOk_stop.
  - unfold restart. apply (timersOk_grows (stop p)); [apply grows_setTimer|].
    now apply timersOk_stop.
  - now apply timersOk_fire.
Qed.

Lemma timersOk_create : timersOk create.
Proof.
  apply timersOk_start. split; [split|]; simpl.
  - constructor.
  - intros h task [].
  - intros h [].
Qed.

Lemma reachable_timersOk p : reachable p -> timersOk p.
Proof. induction 1; [apply timersOk_create | now apply timersOk_exec]. Qed.

Lemma find_handle h task (l : list (handle * Task)) :
  List.NoDup (List.map fst l) -> In (h, task) l ->
  List.find (fun e => Nat.eqb (fst e) h) l = Some (h, task).
Proof.
  induction l as [|[h' t'] l IH]; simpl; [contradiction|].
  intros Hnd [H|H].
  - injection H as -> ->. now rewrite Nat.eqb_refl.
  - apply List.NoDup_cons_iff in Hnd as [Hk Hnd].
    destruct (Nat.eqb_spec h' h) as [->|Hne]; [|now apply IH].
    exfalso. apply Hk. apply (in_map fst) in H. exact H.
Qed.

Lemma approveWithdrawal_balance now r p t :
  heap p !! r = Some t ->
  getPlayerBalance (approveWithdrawal now r p) (playerId t) =
  getPlayerBalance p (playerId t) + amount t.
Proof.
  intros H. unfold approveWithdrawal. rewrite H.
  unfold simulateBankTransfer, storeTransaction, mutate; simpl.
  rewrite lookup_alter_eq, H; simpl.
  unfold getPlayerBalance at 1; simpl. now rewrite lookup_insert_eq.
Qed.

Lemma stop_frame p : heap (stop p) = heap p /\ state (stop p) = state p.
Proof.
  unfold stop.
  assert (G : forall hs q,
            heap (fold_left (fun q h => clearInterval h q) hs q) = heap q
            /\ state (fold_left (fun q h => clearInterval h q) hs q) = state q).
  { induction hs as [|h0 hs IH]; intros q; simpl; [now split|].
    destruct (IH (clearInterval h0 q)) as [-> ->]. now split. }
  destruct (G (JS.map_values (intervals (withRunning false p))) (withRunning false p))
    as [E1 E2].
  split; [exact E1 | exact E2].
Qed.

(** In every reachable state, a pending review timeout is still pending
    after stop, and when it fires the withdrawal, still in review, is
    approved: the player's balance changes by the stored amount, which is
    above the auto-approval limit. *)
Lemma review_timeout_survives_stop p h w t now gw :
  reachable p ->
  In (h, ReviewApproval w) (timers p) ->
  heap p !! w = Some t -> status t = SReview ->
  In (h, ReviewApproval w) (timers (stop p))
  /\ fire h now gw (stop p) = approveWithdrawal now w (clearInterval h (stop p))
  /\ getPlayerBalance (fire h now gw (stop p)) (playerId t) =
     getPlayerBalance (stop p) (playerId t) + amount t
  /\ getPlayerBalance (stop p) (playerId t) = getPlayerBalance p (playerId t)
  /\ autoApprovalLimit config < amount t.
Proof.
  intros Hr Hin Ht Hs.
  destruct (reachable_timersOk p Hr) as [Hp Htr].
  assert (Hun : ~ In h (JS.map_values (intervals p))).
  { intros Hh. destruct (Htr h Hh) as [_ Htk].
    destruct (Htk _ Hin) as [tk E]. discriminate. }
  pose proof (stop_keeps_untracked h _ p Hun Hin) as Hin'.
  destruct (timersOk_stop p (conj Hp Htr)) as [[Hnd' _] _].
  destruct (stop_frame p) as [Hh Hst].
  assert (Hb : playerBalances (state (stop p)) = playerBalances (state p))
    by now rewrite Hst.
  assert (Ef : fire h now gw (stop p) = approveWithdrawal now w (clearInterval h (stop p))).
  { assert (Etask : timerTask h (stop p) = Some (ReviewApproval w))
      by (unfold timerTask; now rewrite (find_handle h _ _ Hnd' Hin')).
    unfold fire. rewrite Etask.
    change (heap (clearInterval h (stop p))) with (heap (stop p)).
    rewrite Hh, Ht, Hs. reflexivity. }
  split; [exact Hin'|]. split; [exact Ef|]. split; [|split].
  - rewrite Ef. rewrite (approveWithdrawal_balance now w _ t).
    + reflexivity.
    + change (heap (clearInterval h (stop p))) with (heap (stop p)).
      now rewrite Hh.
  - unfold getPlayerBalance. now rewrite Hb.
  - destruct (wallet_reachable_good p Hr) as [_ Hrv]. now apply (Hrv w t).
Qed.

End WalletTimers.

(** * Facts about EventProcessor *)

Module EventsFacts.
Import Events.

(** [a] comes before [b] in [l]. *)
Definition before {A} (a b : A) (l : list A) : Prop :=
  exists l1 l2 l3, l = l1 ++ a :: l2 ++ b :: l3.

Section Dispatch.
Context {Data Ext : Type}.
Local Abbreviation Rule := (EventRule Data Ext).
Local Abbreviation St := (State Data Ext).
Local Abbreviation Ev := (GameEvent Data).

Lemma runRules_app (l1 l2 : list Rule) (e : Ev) (s : St) :
  runRules (l1 ++ l2) e s = runRules l2 e (runRules l1 e s).
Proof. unfold runRules. apply fold_left_app. Qed.

Lemma runRules_cons (r : Rule) l (e : Ev) (s : St) :
  runRules (r :: l) e s = runRules l e (runRule e s r).
Proof. reflexivity. Qed.

Lemma eligible_In (rules : list Rule) (s : St) (e : Ev) r :
  In r (eligibleRules rules s e) <->
  In r rules /\ typeMatches e r = true /\ condition r s e = true.
Proof.
  unfold eligibleRules. rewrite !List.filter_In. tauto.
Qed.

Lemma matching_In (rules : list Rule) (s : St) (e : Ev) r :
  In r (matchingRules rules s e) <->
  In r rules /\ typeMatches e r = true /\ condition r s e = true.
Proof.
  unfold matchingRules. rewrite JSFacts.sort_In. apply eligible_In.
Qed.

(** In a list sorted by descending priority a rule of higher priority comes
    before every rule of lower priority. *)
Lemma sorted_before (l : list Rule) a b :
  StronglySorted (JSFacts.desc priority) l ->
  In a l -> In b l -> priority b < priority a -> before a b l.
Proof.
  intros Hs Ha Hb Hlt.
  apply in_split in Ha as (l1 & l' & ->).
  apply in_app_or in Hb as [Hb|[Hb|Hb]].
  - exfalso. apply in_split in Hb as (l0 & l0' & ->).
    rewrite <- app_assoc in Hs. simpl in Hs.
    induction l0 as [|x l0 IH]; simpl in Hs.
    + apply StronglySorted_inv in Hs as [_ Hs].
      rewrite List.Forall_forall in Hs.
      specialize (Hs a). unfold JSFacts.desc in Hs.
      assert (In a (l0' ++ a :: l')) by (apply in_or_app; right; now left).
      specialize (Hs H). lia.
    + apply StronglySorted_inv in Hs as [Hs _]. auto.
  - subst. lia.
  - apply in_split in Hb as (l2 & l3 & ->). now exists l1, l2, l3.
Qed.


End Dispatch.

(** ** Two rules on score events, registered in either order *)

(** Each action appends its name to a log kept outside the processor. *)
Definition logging (name : string) (e : GameEvent unit)
    (s : State unit (list string)) : State unit (list string) * bool :=
  (setExt (ext s ++ [name]) s, false).

Definition ruleA : EventRule unit (list string) :=
  mkRule "score" yes (logging "A") 100.
Definition ruleB : EventRule unit (list string) :=
  mkRule "score" yes (logging "B") 50.
Definition ruleC : EventRule unit (list string) :=
  mkRule "*" yes (logging "C") 50.
Definition ruleD : EventRule unit (list string) :=
  mkRule "foul" yes (logging "D") 200.

Definition scoreEvent : GameEvent unit :=
  mkEvent "event_1" Score "alice" "m1" 1000 tt false.

Definition idle : State unit (list string) :=
  mkState [] [] (mkStats 0 0 0 ∅) [].


(** ** The default rules on a score event *)

Section Defaults.
Context {Data Ext : Type} (h : Handlers Data Ext).

(** Two default rules are registered for score events: handleScoring with
    priority 90 and the win detection with priority 100, last in the
    registry.  The win detection reads the scores from [getMatchScores],
    which is empty, so only handleScoring runs. *)
Lemma default_rules_on_score (s : State Data Ext) (e : GameEvent Data) :
  type e = Score ->
  List.filter (typeMatches e) (initializeEventRules h) =
    [mkRule "score" yes (handleScoring h) 90;
     mkRule "score" checkWinningCondition (triggerMatchEnd h) 100]
  /\ matchingRules (initializeEventRules h) s e =
    [mkRule "score" yes (handleScoring h) 90].
Proof.
  intros H. unfold matchingRules, eligibleRules, initializeEventRules, addRule, typeMatches.
  simpl. rewrite H. simpl. split; reflexivity.
Qed.

(** Were the win detection to accept the event, it would run first although
    it is registered last. *)
Lemma win_detection_runs_first (cond : State Data Ext -> GameEvent Data -> bool)
    (s : State Data Ext) (e : GameEvent Data) :
  type e = Score -> cond s e = true ->
  matchingRules
    [mkRule "score" yes (handleScoring h) 90;
     mkRule "score" cond (triggerMatchEnd h) 100] s e =
    [mkRule "score" cond (triggerMatchEnd h) 100;
     mkRule "score" yes (handleScoring h) 90].
Proof.
  intros H Hc. unfold matchingRules, eligibleRules, typeMatches.
  simpl. rewrite H. simpl. rewrite Hc. reflexivity.
Qed.

End Defaults.

End EventsFacts.


(** * Facts about GameProcessor *)

Module GameFacts.
Import Game.

(** ** Insertion-ordered maps *)

Lemma map_get_In {V} k (v : V) l : JS.map_get k l = Some v -> In (k, v) l.
Proof.
  induction l as [|[k' v'] l IH]; simpl; [discriminate|].
  destruct (String.eqb_spec k' k) as [->|Hne].
  - intros [= ->]. now left.
  - intros H. right. now apply IH.
Qed.

Lemma In_map_get {V} k (v : V) l :
  List.NoDup (List.map fst l) -> In (k, v) l -> JS.map_get k l = Some v.
Proof.
  induction l as [|[k' v'] l IH]; simpl; [contradiction|].
  intros Hnd [H|H].
  - injection H as -> ->. now rewrite String.eqb_refl.
  - apply List.NoDup_cons_iff in Hnd as [Hk Hnd].
    destruct (String.eqb_spec k' k) as [->|Hne]; [|now apply IH].
    exfalso. apply Hk. apply (in_map fst) in H. exact H.
Qed.

Lemma map_delete_In {V} k k' (v : V) l :
  In (k, v) (JS.map_delete k' l) <-> In (k, v) l /\ k <> k'.
Proof.
  unfold JS.map_delete. rewrite List.filter_In. simpl.
  rewrite negb_true_iff. split; intros [H1 H2]; split; try assumption.
  - intros ->. now rewrite String.eqb_refl in H2.
  - now apply String.eqb_neq.
Qed.

Lemma map_delete_keys {V} k (l : list (string * V)) :
  List.NoDup (List.map fst l) -> List.NoDup (List.map fst (JS.map_delete k l)).
Proof.
  induction l as [|[k' v'] l IH]; simpl; [trivial|].
  intros Hnd. apply List.NoDup_cons_iff in Hnd as [Hk Hnd].
  destruct (negb (String.eqb k' k)); simpl; [|now apply IH].
  apply List.NoDup_cons_iff. split; [|now apply IH].
  intros H. apply Hk. apply in_map_iff in H as ([k1 v1] & E & H). simpl in E. subst k1.
  apply map_delete_In in H as [H _]. apply (in_map fst) in H. exact H.
Qed.

(** ** What a step of the sweep leaves alone *)

(** The match object [m] is cancelled, with players [ps], id [i] and end
    time [E]. *)
Definition cancelledAs (p : GameProcessor) (m : mref) (ps : list pref) (i : string)
    (E : option Z) : Prop :=
  exists M, mheap p !! m = Some M
            /\ status M = Cancelled /\ players M = ps /\ id M = i /\ endTime M = E.

(** [q] comes after [p] within the sweep of time [now]: the log has only
    grown, every player object has kept its id, and every cancelled match is
    still cancelled, with the players and id it had; its end time is
    untouched or has been set to [now]. *)
Definition after (now : Z) (p q : GameProcessor) : Prop :=
  (exists T, transactions (state q) = transactions (state p) ++ T)
  /\ (forall r, playerIdOf q r = playerIdOf p r)
  /\ (forall m ps i E, cancelledAs p m ps i E ->
        cancelledAs q m ps i E \/ cancelledAs q m ps i (Some now)).

Lemma after_refl now p : after now p p.
Proof. split; [exists []; now rewrite app_nil_r | auto]. Qed.

Lemma after_trans now p q r : after now p q -> after now q r -> after now p r.
Proof.
  intros ([T1 E1] & I1 & C1) ([T2 E2] & I2 & C2). split; [|split].
  - exists (T1 ++ T2). now rewrite E2, E1, app_assoc.
  - intros x. now rewrite I2, I1.
  - intros m ps i E H. destruct (C1 m ps i E H) as [H1|H1].
    + apply (C2 m ps i E H1).
    + destruct (C2 m ps i (Some now) H1); now right.
Qed.

Lemma after_fold now {X} (f : GameProcessor -> X -> GameProcessor) l :
  (forall q x, after now q (f q x)) -> forall p, after now p (fold_left f l p).
Proof.
  intros Hf. induction l as [|x l IH]; intros p; simpl; [apply after_refl|].
  eapply after_trans; [apply Hf | apply IH].
Qed.

(** A step that touches neither the log nor the heaps. *)
Lemma after_same now p q :
  transactions (state q) = transactions (state p) ->
  mheap q = mheap p -> pheap q = pheap p -> after now p q.
Proof.
  intros Ht Hm Hp. split; [exists []; now rewrite app_nil_r|]. split.
  - intros r. unfold playerIdOf. now rewrite Hp.
  - intros m ps i E (M & H & ?). left. exists M. now rewrite Hm.
Qed.

Lemma after_createTransaction now t p : after now p (createTransaction t p).
Proof. split; [now exists [t] | auto]. Qed.

Lemma playerIdOf_mutatePlayer r f p r' :
  (forall P, p_id (f P) = p_id P) ->
  playerIdOf (mutatePlayer r f p) r' = playerIdOf p r'.
Proof.
  intros Hf. unfold playerIdOf, mutatePlayer; simpl. rewrite lookup_alter.
  destruct (decide (r = r')) as [<-|]; [|reflexivity].
  destruct (pheap p !! r); simpl; [apply Hf | reflexivity].
Qed.

Lemma after_mutatePlayer now r f p :
  (forall P, p_id (f P) = p_id P) -> after now p (mutatePlayer r f p).
Proof.
  intros Hf. split; [exists []; now rewrite app_nil_r|]. split.
  - intros r'. now apply playerIdOf_mutatePlayer.
  - auto.
Qed.

(** Assigning to a match: if it is cancelled, it stays cancelled with its
    players and id, and its end time stays or becomes [now]. *)
Lemma after_mutateMatch now m f p :
  (forall M, mheap p !! m = Some M -> status M = Cancelled ->
     status (f M) = Cancelled /\ players (f M) = players M /\ id (f M) = id M
     /\ (endTime (f M) = endTime M \/ endTime (f M) = Some now)) ->
  after now p (mutateMatch m f p).
Proof.
  intros Hf. split; [exists []; now rewrite app_nil_r|]. split; [reflexivity|].
  intros m' ps i E (M & H & Hs & Hp & Hi & He). unfold cancelledAs, mutateMatch; simpl.
  rewrite lookup_alter. destruct (decide (m = m')) as [<-|Hne].
  - rewrite H; simpl. destruct (Hf M H Hs) as (? & ? & ? & [?|?]);
      [left | right]; exists (f M); repeat split; congruence.
  - left. exists M. auto.
Qed.

Lemma after_cancelMatch now k p : after now p (cancelMatch now k p).
Proof.
  unfold cancelMatch. destruct (JS.map_get k _) as [m|]; [|apply after_refl].
  apply after_mutateMatch. intros M _ _. repeat split. now right.
Qed.

Lemma after_setMatchTimer now k p : after now p (setMatchTimer k p).
Proof. now apply after_same. Qed.

Lemma after_cleanupMatch now k p : after now p (cleanupMatch k p).
Proof.
  unfold cleanupMatch.
  destruct (JS.map_get _ _) as [t|]; [destruct (Nat.eqb t 0)|]; now apply after_same.
Qed.

Lemma after_betOne now k p r : after now p (betOne now k p r).
Proof.
  unfold betOne. destruct (pheap p !! r) as [P|]; [|apply after_refl].
  destruct (_ <=? _); [|apply after_cancelMatch].
  eapply after_trans; [|apply after_createTransaction]; now apply after_mutatePlayer.
Qed.

Lemma after_processAutomaticBetDeduction now m p :
  after now p (processAutomaticBetDeduction now m p).
Proof.
  unfold processAutomaticBetDeduction.
  destruct (mheap p !! m) as [M|]; [|apply after_refl].
  apply after_fold. intros q r. apply after_betOne.
Qed.

Lemma after_processAutomaticPayout now m p :
  after now p (processAutomaticPayout now m p).
Proof.
  unfold processAutomaticPayout, creditDeveloperFee.
  destruct (mheap p !! m) as [M|]; [|apply after_refl].
  destruct (winner M); [|apply after_refl].
  eapply after_trans; [|apply after_createTransaction]; now apply after_mutatePlayer.
Qed.

Lemma after_refundOne now k p r : after now p (refundOne now k p r).
Proof.
  unfold refundOne.
  eapply after_trans; [|apply after_createTransaction]; now apply after_mutatePlayer.
Qed.

Lemma after_processAutomaticRefund now m p :
  after now p (processAutomaticRefund now m p).
Proof.
  unfold processAutomaticRefund.
  destruct (mheap p !! m) as [M|]; [|apply after_refl].
  apply after_fold. intros q r. apply after_refundOne.
Qed.

(** Assigning to a match whose status is not cancelled. *)
Lemma after_mutate_live now m f p M :
  mheap p !! m = Some M -> status M <> Cancelled -> after now p (mutateMatch m f p).
Proof.
  intros H Hs. apply after_mutateMatch. intros M' H' Hc.
  rewrite H in H'. injection H' as <-. contradiction.
Qed.

Lemma after_processWaitingMatch now k m p M :
  mheap p !! m = Some M -> status M = Waiting ->
  after now p (processWaitingMatch now k m p).
Proof.
  intros H Hs. unfold processWaitingMatch. rewrite H.
  match goal with |- after now p (match mheap ?p1 !! m with _ => _ end) =>
    assert (H1 : after now p p1); [|set (q := p1) in *] end.
  { destruct (players M) as [|first [|? ?]]; try apply after_refl.
    destruct (findAvailableOpponent p _) as [opp|]; [|apply after_refl].
    eapply after_trans; [eapply after_mutate_live; [exact H | congruence]|].
    eapply after_trans;
      [apply after_processAutomaticBetDeduction | apply after_setMatchTimer]. }
  destruct (mheap q !! m) as [M1|]; [|exact H1].
  destruct (_ && _); [|exact H1].
  eapply after_trans; [exact H1 | apply after_cancelMatch].
Qed.

Lemma after_processFinishingMatch now coin k m p M :
  mheap p !! m = Some M -> status M = Finishing ->
  after now p (processFinishingMatch now coin k m p).
Proof.
  intros H Hs. unfold processFinishingMatch. rewrite H.
  destruct (determineMatchWinner coin M); [|apply after_refl].
  eapply after_trans; [eapply after_mutate_live; [exact H | congruence]|].
  apply after_processAutomaticPayout.
Qed.

Lemma after_processCompletedMatch now k m p :
  after now p (processCompletedMatch now k m p).
Proof.
  unfold processCompletedMatch. destruct (mheap p !! m) as [M|]; [|apply after_refl].
  destruct (_ && _); [apply after_cleanupMatch | apply after_refl].
Qed.

Lemma after_processCancelledMatch now k m p :
  after now p (processCancelledMatch now k m p).
Proof.
  unfold processCancelledMatch.
  pose proof (after_processAutomaticRefund now m p) as H1.
  destruct (mheap _ !! m) as [M|]; [|exact H1].
  destruct (_ && _); [|exact H1].
  eapply after_trans; [exact H1 | apply after_cleanupMatch].
Qed.

(** The only assignment that could move a match out of [Cancelled] is the
    [endMatch] of an active match, which looks the match up again under the
    key being visited; it is harmless when that key still names the
    visited object. *)
Definition keyNames (p : GameProcessor) (k : string) (m : mref) : Prop :=
  forall x, JS.map_get k (matches (state p)) = Some x -> x = m.

Lemma after_processActiveMatch now k m p M :
  mheap p !! m = Some M -> status M = Active -> keyNames p k m ->
  after now p (processActiveMatch now k m p).
Proof.
  intros H Hs Hk. unfold processActiveMatch. rewrite H.
  destruct (negb _); [apply after_refl|].
  assert (H1 : after now p (mutateMatch m (setTimeRemaining
                 (Z.max 0 (matchDuration config - (now - JS.orZero (startTime M))))) p)).
  { eapply after_mutate_live; [exact H | congruence]. }
  destruct (_ <=? 0); [|exact H1].
  eapply after_trans; [exact H1|].
  unfold endMatch. simpl matches.
  destruct (JS.map_get k (matches (state p))) as [x|] eqn:E; [|apply after_refl].
  rewrite (Hk x E).
  apply after_mutateMatch. intros M' H' Hc. exfalso.
  simpl in H'. rewrite lookup_alter_eq, H in H'. simpl in H'.
  injection H' as <-. simpl in Hc. congruence.
Qed.

Lemma after_processMatchState now coin k m p :
  keyNames p k m -> after now p (processMatchState now coin k m p).
Proof.
  intros Hk. unfold processMatchState.
  destruct (mheap p !! m) as [M|] eqn:H; [|apply after_refl].
  destruct (status M) eqn:Hs.
  - now apply (after_processWaitingMatch now k m p M).
  - now apply (after_processActiveMatch now k m p M).
  - now apply (after_processFinishingMatch now coin k m p M).
  - apply after_processCompletedMatch.
  - apply after_processCancelledMatch.
Qed.

Lemma after_processPlayerState now r p : after now p (processPlayerState now r p).
Proof.
  unfold processPlayerState. destruct (pheap p !! r) as [P|]; [|apply after_refl].
  destruct (_ && _); [now apply after_mutatePlayer | apply after_refl].
Qed.

(** ** The match map during the sweep *)

(** A step leaves the match map as it is or deletes the key it visits. *)
Definition keepsOrDeletes (k : string) (p q : GameProcessor) : Prop :=
  matches (state q) = matches (state p)
  \/ matches (state q) = JS.map_delete k (matches (state p)).

Lemma matches_cancelMatch now k p :
  matches (state (cancelMatch now k p)) = matches (state p).
Proof. unfold cancelMatch. now destruct (JS.map_get _ _). Qed.

Lemma matches_endMatch k p : matches (state (endMatch k p)) = matches (state p).
Proof. unfold endMatch. now destruct (JS.map_get _ _). Qed.

Lemma matches_cleanupMatch k p :
  matches (state (cleanupMatch k p)) = JS.map_delete k (matches (state p)).
Proof.
  unfold cleanupMatch.
  destruct (JS.map_get _ _) as [t|]; [destruct (Nat.eqb t 0)|]; reflexivity.
Qed.

Lemma matches_fold {X} (f : GameProcessor -> X -> GameProcessor) l :
  (forall q x, matches (state (f q x)) = matches (state q)) ->
  forall p, matches (state (fold_left f l p)) = matches (state p).
Proof.
  intros Hf. induction l as [|x l IH]; intros p; simpl; [reflexivity|].
  now rewrite IH, Hf.
Qed.

Lemma matches_betOne now k p r :
  matches (state (betOne now k p r)) = matches (state p).
Proof.
  unfold betOne. destruct (pheap p !! r); [|reflexivity].
  destruct (_ <=? _); [reflexivity | apply matches_cancelMatch].
Qed.

Lemma matches_processAutomaticBetDeduction now m p :
  matches (state (processAutomaticBetDeduction now m p)) = matches (state p).
Proof.
  unfold processAutomaticBetDeduction. destruct (mheap p !! m); [|reflexivity].
  apply matches_fold. intros. apply matches_betOne.
Qed.

Lemma matches_processAutomaticPayout now m p :
  matches (state (processAutomaticPayout now m p)) = matches (state p).
Proof.
  unfold processAutomaticPayout. destruct (mheap p !! m) as [M|]; [|reflexivity].
  now destruct (winner M).
Qed.

Lemma matches_processAutomaticRefund now m p :
  matches (state (processAutomaticRefund now m p)) = matches (state p).
Proof.
  unfold processAutomaticRefund. destruct (mheap p !! m); [|reflexivity].
  apply matches_fold. reflexivity.
Qed.

Lemma matches_processWaitingMatch now k m p :
  matches (state (processWaitingMatch now k m p)) = matches (state p).
Proof.
  unfold processWaitingMatch.
  match goal with |- matches (state (match mheap ?p1 !! m with _ => _ end)) = _ =>
    assert (H1 : matches (state p1) = matches (state p)); [|set (q := p1) in *] end.
  { destruct (mheap p !! m) as [M|]; [|reflexivity].
    destruct (players M) as [|first [|? ?]]; try reflexivity.
    destruct (findAvailableOpponent p _) as [opp|]; [|reflexivity].
    unfold setMatchTimer; simpl. now rewrite matches_processAutomaticBetDeduction. }
  destruct (mheap q !! m) as [M1|]; [|exact H1].
  destruct (_ && _); [|exact H1]. now rewrite matches_cancelMatch.
Qed.

Lemma keepsOrDeletes_processMatchState now coin k m p :
  keepsOrDeletes k p (processMatchState now coin k m p).
Proof.
  unfold processMatchState, keepsOrDeletes.
  destruct (mheap p !! m) as [M|] eqn:H; [|now left].
  destruct (status M).
  - left. apply matches_processWaitingMatch.
  - left. unfold processActiveMatch. rewrite H.
    destruct (negb _); [reflexivity|].
    destruct (_ <=? 0); [now rewrite matches_endMatch | reflexivity].
  - left. unfold processFinishingMatch. rewrite H.
    destruct (determineMatchWinner coin M); [|reflexivity].
    now rewrite matches_processAutomaticPayout.
  - unfold processCompletedMatch. rewrite H.
    destruct (_ && _); [right; apply matches_cleanupMatch | now left].
  - unfold processCancelledMatch.
    pose proof (matches_processAutomaticRefund now m p) as H1.
    destruct (mheap (processAutomaticRefund now m p) !! m) as [M1|]; [|now left].
    destruct (JS.truthy _ && _); [right | now left].
    now rewrite matches_cleanupMatch, H1.
Qed.

Lemma matches_processPlayerState now r p :
  matches (state (processPlayerState now r p)) = matches (state p).
Proof.
  unfold processPlayerState. destruct (pheap p !! r); [|reflexivity].
  now destruct (_ && _).
Qed.

Lemma map_get_delete {V} k k' (l : list (string * V)) :
  JS.map_get k (JS.map_delete k' l) =
  if String.eqb k' k then None else JS.map_get k l.
Proof.
  induction l as [|[k0 v0] l IH]; simpl; [now destruct (String.eqb k' k)|].
  destruct (String.eqb_spec k0 k') as [->|Hne]; simpl.
  - rewrite IH. destruct (String.eqb_spec k' k); reflexivity.
  - rewrite IH. destruct (String.eqb_spec k0 k) as [->|]; [|reflexivity].
    destruct (String.eqb_spec k' k); [congruence | reflexivity].
Qed.

Lemma keys_functional {V} k (x y : V) (l : list (string * V)) :
  List.NoDup (List.map fst l) -> In (k, x) l -> In (k, y) l -> x = y.
Proof.
  intros Hnd Hx Hy.
  apply (In_map_get _ _ _ Hnd) in Hx. apply (In_map_get _ _ _ Hnd) in Hy.
  congruence.
Qed.

(** ** The refund of a cancelled match *)

(** [n] refunds credited to a player. *)
Definition credit (n : nat) (P : Player) : Player :=
  setWalletBalance (walletBalance P + cfg_betAmount config * Z.of_nat n) P.

(** The refund entries for the players [ps] of the match with id [i]. *)
Definition refunds (now : Z) (i : string) (p : GameProcessor) (ps : list pref)
  : list Transaction :=
  List.map (fun r => refundTx now i (playerIdOf p r)) ps.

Lemma credit_0 P : credit 0 P = P.
Proof. destruct P. unfold credit, setWalletBalance; simpl. f_equal. lia. Qed.

Lemma credit_S n P :
  credit n (setWalletBalance (walletBalance P + cfg_betAmount config) P) = credit (S n) P.
Proof. destruct P. unfold credit, setWalletBalance; simpl. f_equal. lia. Qed.

Lemma refunds_ext now i p q ps :
  (forall r, playerIdOf q r = playerIdOf p r) -> refunds now i q ps = refunds now i p ps.
Proof.
  intros H. unfold refunds. apply map_ext. intros r. now rewrite H.
Qed.

Lemma refund_fold now i ps : forall p,
  let q := fold_left (refundOne now i) ps p in
  transactions (state q) = transactions (state p) ++ refunds now i p ps
  /\ (forall r, pheap q !! r = credit (count_occ Nat.eq_dec ps r) <$> pheap p !! r)
  /\ mheap q = mheap p
  /\ matches (state q) = matches (state p)
  /\ statePlayers (state q) = statePlayers (state p)
  /\ intervals q = intervals p /\ timers q = timers p.
Proof.
  induction ps as [|r0 ps IH]; intros p; simpl.
  - rewrite app_nil_r. repeat split.
    intros r. destruct (pheap p !! r); simpl; [now rewrite credit_0 | reflexivity].
  - destruct (IH (refundOne now i p r0)) as (Ht & Hp & Hm & Hx & Hy & Hi & Htm).
    assert (Hid : forall r, playerIdOf (refundOne now i p r0) r = playerIdOf p r).
    { intros r. unfold refundOne. now apply playerIdOf_mutatePlayer. }
    split; [|split; [|repeat split; assumption]].
    + rewrite Ht. rewrite (refunds_ext now i p _ ps Hid).
      unfold refundOne at 1; simpl. rewrite <- app_assoc. simpl.
      f_equal. f_equal. f_equal. now apply playerIdOf_mutatePlayer.
    + intros r. rewrite Hp. unfold refundOne; simpl. rewrite lookup_alter.
      destruct (Nat.eq_dec r0 r) as [->|Hne].
      * rewrite decide_True by reflexivity.
        destruct (pheap p !! r); simpl; [now rewrite credit_S | reflexivity].
      * rewrite decide_False by assumption. reflexivity.
Qed.

(** The retention test of [processCancelledMatch]. *)
Definition evictAt (E : option Z) (now : Z) : bool :=
  JS.truthy E && (1800000 <? now - JS.orZero E).

Lemma evictAt_now now : evictAt (Some now) now = false.
Proof.
  unfold evictAt; simpl. rewrite Z.sub_diag. apply andb_false_r.
Qed.

(** One visit of the sweep to a cancelled match. *)
Lemma cancelled_visit now coin k m p M :
  mheap p !! m = Some M -> status M = Cancelled ->
  let q := processMatchState now coin k m p in
  q = processCancelledMatch now k m p
  /\ transactions (state q) =
     transactions (state p) ++ refunds now (id M) p (players M)
  /\ (forall r, pheap q !! r =
        credit (count_occ Nat.eq_dec (players M) r) <$> pheap p !! r)
  /\ mheap q = mheap p
  /\ matches (state q) =
     (if evictAt (endTime M) now
      then JS.map_delete k (matches (state p)) else matches (state p)).
Proof.
  intros H Hs q. subst q. unfold processMatchState. rewrite H, Hs.
  split; [reflexivity|].
  unfold processCancelledMatch, processAutomaticRefund. rewrite H.
  destruct (refund_fold now (id M) (players M) p) as (Ht & Hp & Hm & Hx & _).
  rewrite Hm, H. fold (evictAt (endTime M) now).
  destruct (evictAt (endTime M) now).
  - rewrite matches_cleanupMatch, Hx.
    unfold cleanupMatch.
    destruct (JS.map_get _ _) as [t|]; [destruct (Nat.eqb t 0)|]; simpl;
      repeat split; assumption.
  - repeat split; assumption.
Qed.

(** ** The sweep *)

Definition visit (now : Z) (coin : string -> bool) (q : GameProcessor)
    (e : string * mref) : GameProcessor :=
  processMatchState now (coin (fst e)) (fst e) (snd e) q.

Definition playersPhase (now : Z) (p : GameProcessor) : GameProcessor :=
  fold_left (fun q e => processPlayerState now (snd e) q) (statePlayers (state p)) p.

Lemma processMainLoop_phases now coin p :
  processMainLoop now coin p =
  playersPhase now (fold_left (visit now coin) (matches (state p)) p).
Proof. reflexivity. Qed.

(** The entries still in the map are entries of [L]. *)
Definition within (L : list (string * mref)) (q : GameProcessor) : Prop :=
  forall k x, JS.map_get k (matches (state q)) = Some x -> In (k, x) L.

Lemma within_step L k p q : keepsOrDeletes k p q -> within L p -> within L q.
Proof.
  intros [E|E] H k' x; rewrite E; [apply H|].
  rewrite map_get_delete. destruct (String.eqb k k'); [discriminate | apply H].
Qed.

Lemma visits_after now coin L : List.NoDup (List.map fst L) ->
  forall Lx q, (forall e, In e Lx -> In e L) -> within L q ->
  after now q (fold_left (visit now coin) Lx q)
  /\ within L (fold_left (visit now coin) Lx q).
Proof.
  intros Hnd. induction Lx as [|[k m] Lx IH]; intros q Hsub Hw; simpl.
  - split; [apply after_refl | assumption].
  - assert (Hk : keyNames q k m).
    { intros x Hx. apply Hw in Hx.
      apply (keys_functional k x m L Hnd Hx). apply Hsub. now left. }
    destruct (IH (visit now coin q (k, m))) as [Ha Hw'].
    + intros e He. apply Hsub. now right.
    + eapply within_step; [apply keepsOrDeletes_processMatchState | exact Hw].
    + split; [|exact Hw'].
      eapply after_trans; [|exact Ha]. now apply after_processMatchState.
Qed.

Lemma playersPhase_after now p :
  after now p (playersPhase now p)
  /\ matches (state (playersPhase now p)) = matches (state p).
Proof.
  unfold playersPhase. split.
  - apply after_fold. intros q e. apply after_processPlayerState.
  - apply matches_fold. intros q e. apply matches_processPlayerState.
Qed.

(** Visits to other keys leave the entry of [k] in the map. *)
Lemma visits_keep_entry now coin k m Lx : forall q,
  ~ In k (List.map fst Lx) -> In (k, m) (matches (state q)) ->
  In (k, m) (matches (state (fold_left (visit now coin) Lx q))).
Proof.
  induction Lx as [|[k0 m0] Lx IH]; intros q Hn Hin; simpl; [assumption|].
  apply IH; [intros ?; apply Hn; now right|].
  destruct (keepsOrDeletes_processMatchState now (coin k0) k0 m0 q) as [E|E];
    unfold visit; simpl; rewrite E; [assumption|].
  apply map_delete_In. split; [assumption|]. intros ->. apply Hn. now left.
Qed.

Lemma visits_keys now coin Lx : forall q,
  List.NoDup (List.map fst (matches (state q))) ->
  List.NoDup (List.map fst (matches (state (fold_left (visit now coin) Lx q)))).
Proof.
  induction Lx as [|[k0 m0] Lx IH]; intros q Hnd; simpl; [assumption|].
  apply IH.
  destruct (keepsOrDeletes_processMatchState now (coin k0) k0 m0 q) as [E|E];
    unfold visit; simpl; rewrite E; [assumption | now apply map_delete_keys].
Qed.

(** The match is in the map under a key of its own, cancelled, with
    players [ps] and id [i]. *)
Definition cancelledIn (p : GameProcessor) (k : string) (m : mref)
    (ps : list pref) (i : string) (E : option Z) : Prop :=
  List.NoDup (List.map fst (matches (state p)))
  /\ In (k, m) (matches (state p))
  /\ cancelledAs p m ps i E.

(** One sweep over a map that holds a cancelled match: the sweep reaches the
    match in state [q], refunds every player of the match, and goes on. *)
Lemma sweep_cancelled now coin p k m ps i E :
  cancelledIn p k m ps i E ->
  let p' := processMainLoop now coin p in
  exists L1 L2,
    matches (state p) = L1 ++ (k, m) :: L2
    /\ let q := fold_left (visit now coin) L1 p in
       let q' := processCancelledMatch now k m q in
       p' = playersPhase now (fold_left (visit now coin) L2 q')
       /\ transactions (state q') = transactions (state q) ++ refunds now i p ps
       /\ (forall r, pheap q' !! r =
             credit (count_occ Nat.eq_dec ps r) <$> pheap q !! r)
       /\ (exists T1 T2, transactions (state p') =
             transactions (state p) ++ T1 ++ refunds now i p ps ++ T2)
       /\ (forall r, playerIdOf p' r = playerIdOf p r)
       /\ (evictAt E now = false ->
           cancelledIn p' k m ps i E \/ cancelledIn p' k m ps i (Some now)).
Proof.
  intros (Hnd & Hin & Hc) p'.
  destruct (in_split _ _ Hin) as (L1 & L2 & EL). exists L1, L2.
  split; [exact EL|]. intros q q'.
  set (L := matches (state p)) in *.
  assert (Hw : within L p) by (intros k0 x Hx; now apply map_get_In).
  assert (Hk : ~ In k (List.map fst L1) /\ ~ In k (List.map fst L2)).
  { rewrite EL, map_app in Hnd. simpl in Hnd.
    apply List.NoDup_remove_2 in Hnd. split; intros ?; apply Hnd, in_or_app; auto. }
  destruct Hk as [Hk1 Hk2].
  (* up to the match *)
  destruct (visits_after now coin L Hnd L1 p) as [Ha1 Hw1];
    [intros e He; rewrite EL; apply in_or_app; now left | exact Hw |].
  fold q in Ha1, Hw1. destruct Ha1 as ([T1 ET1] & Hid1 & Hc1).
  assert (Hcq : exists E', cancelledAs q m ps i E' /\ (E' = E \/ E' = Some now)).
  { destruct (Hc1 m ps i E Hc); eauto. }
  destruct Hcq as (E' & (M' & HM' & Hs' & Hps' & Hi' & HE') & HEE).
  (* the visit *)
  destruct (cancelled_visit now (coin k) k m q M' HM' Hs')
    as (Ev & Ht & Hp & Hm & Hx).
  assert (Eq' : visit now coin q (k, m) = q') by exact Ev.
  rewrite Ev in Ht, Hp, Hm, Hx. fold q' in Ht, Hp, Hm, Hx.
  rewrite Hps', Hi' in Ht. rewrite (refunds_ext now i p q ps Hid1) in Ht.
  rewrite Hps' in Hp. rewrite HE' in Hx.
  assert (Hw' : within L q').
  { rewrite <- Eq'. eapply within_step;
      [apply keepsOrDeletes_processMatchState | exact Hw1]. }
  (* the rest of the sweep *)
  destruct (visits_after now coin L Hnd L2 q') as [Ha2 _];
    [intros e He; rewrite EL; apply in_or_app; right; now right | exact Hw' |].
  set (q2 := fold_left (visit now coin) L2 q') in *.
  destruct (playersPhase_after now q2) as [Ha3 Hm3].
  assert (Ep : p' = playersPhase now q2).
  { subst p'. rewrite processMainLoop_phases. fold L. rewrite EL, fold_left_app.
    simpl. fold q. rewrite Eq'. reflexivity. }
  pose proof (after_trans now q' q2 _ Ha2 Ha3) as Ha. rewrite <- Ep in Ha, Hm3.
  destruct Ha as ([T2 ET2] & Hid2 & Hc2).
  split; [exact Ep|]. split; [exact Ht|]. split; [exact Hp|].
  split; [|split].
  - exists T1, T2. rewrite ET2, Ht, ET1. now rewrite <- !app_assoc.
  - intros r. rewrite Hid2. unfold q'.
    destruct (after_processCancelledMatch now k m q) as (_ & Hid & _).
    now rewrite Hid, Hid1.
  - intros Hev.
    assert (Hev' : evictAt E' now = false)
      by (destruct HEE as [->| ->]; [exact Hev | apply evictAt_now]).
    rewrite Hev' in Hx.
    assert (Hcq' : cancelledAs q' m ps i E').
    { exists M'. rewrite Hm. auto. }
    assert (Hin' : In (k, m) (matches (state p'))).
    { rewrite Hm3. apply visits_keep_entry; [exact Hk2|]. rewrite Hx.
      apply visits_keep_entry; [exact Hk1 | exact Hin]. }
    assert (Hnd' : List.NoDup (List.map fst (matches (state p')))).
    { rewrite Hm3. apply visits_keys. rewrite Hx. now apply visits_keys. }
    destruct (Hc2 m ps i E' Hcq') as [H|H].
    + destruct HEE as [->| ->]; [left | right]; repeat split; assumption.
    + right. repeat split; assumption.
Qed.

(** ** Sweep after sweep *)

Definition sweeps (ss : list (Z * (string -> bool))) (p : GameProcessor)
  : GameProcessor :=
  fold_left (fun q s => processMainLoop (fst s) (snd s) q) ss p.

(** The completed refund entries of the match with id [i] in a log. *)
Definition isRefundOf (i : string) (t : Transaction) : bool :=
  match type t with
  | TRefund => String.eqb (matchId t) i && TxStatus_eqb (t_status t) SCompleted
  | _ => false
  end.

Definition refundCount (i : string) (l : list Transaction) : nat :=
  length (List.filter (isRefundOf i) l).

(** No sweep at the times [nows] finds the match past its retention window
    of 30 minutes, counted from the end time [E] or from an earlier sweep
    that has reset the end time. *)
Fixpoint calm (E : option Z) (nows : list Z) : Prop :=
  match nows with
  | [] => True
  | t :: rest => evictAt E t = false /\ calm E rest /\ calm (Some t) rest
  end.

Lemma refundCount_app i l1 l2 :
  refundCount i (l1 ++ l2) = (refundCount i l1 + refundCount i l2)%nat.
Proof. unfold refundCount. now rewrite List.filter_app, length_app. Qed.

Lemma refundCount_refunds now i p ps :
  refundCount i (refunds now i p ps) = length ps.
Proof.
  unfold refundCount, refunds. induction ps as [|r ps IH]; simpl; [reflexivity|].
  unfold isRefundOf at 1; simpl. rewrite String.eqb_refl. simpl. now rewrite IH.
Qed.

Lemma refunds_shape now i p ps :
  Forall (fun t => type t = TRefund /\ amount t = cfg_betAmount config
                   /\ t_status t = SCompleted /\ matchId t = i)
         (refunds now i p ps)
  /\ List.map playerId (refunds now i p ps) = List.map (playerIdOf p) ps.
Proof.
  unfold refunds. split.
  - apply List.Forall_forall. intros t Ht. apply in_map_iff in Ht as (r & <- & _).
    repeat split.
  - rewrite map_map. reflexivity.
Qed.

Lemma sweeps_refund k m ps i : forall ss p E,
  cancelledIn p k m ps i E -> calm E (List.map fst ss) ->
  (refundCount i (transactions (state p)) + length ss * length ps
   <= refundCount i (transactions (state (sweeps ss p))))%nat
  /\ exists E', cancelledIn (sweeps ss p) k m ps i E'.
Proof.
  induction ss as [|[now coin] ss IH]; intros p E Hc Hcalm; simpl.
  - split; [lia | eauto].
  - destruct Hcalm as (Hev & Hc1 & Hc2).
    destruct (sweep_cancelled now coin p k m ps i E Hc)
      as (L1 & L2 & _ & _ & _ & _ & (T1 & T2 & Et) & _ & Hkeep).
    assert (Hn : (refundCount i (transactions (state p)) + length ps
                  <= refundCount i (transactions (state (processMainLoop now coin p))))%nat).
    { rewrite Et, !refundCount_app, refundCount_refunds. lia. }
    destruct (Hkeep Hev) as [H|H].
    + destruct (IH _ E H Hc1) as [Hle HE]. split; [lia | exact HE].
    + destruct (IH _ (Some now) H Hc2) as [Hle HE]. split; [lia | exact HE].
Qed.

(** C8. A cancelled match that is in the match map is refunded by every
    sweep of the 1-second main loop.  The sweep reaches the match in some
    state [q]; its visit adds the configured bet amount (10) to the wallet
    of every player of the match and appends one completed refund
    transaction of that amount per player; the log at the end of the sweep
    holds these entries.  The visit checks nothing but the status, so as
    long as the match stays in the map (until 30 minutes after its end time)
    every further sweep refunds again: [n] sweeps append at least [n]
    refunds per player. *)
Theorem cancelled_match_refunded_every_sweep now coin p k m ps i E :
  cancelledIn p k m ps i E ->
  let p' := processMainLoop now coin p in
  (exists L1 L2,
     matches (state p) = L1 ++ (k, m) :: L2
     /\ let q := fold_left (visit now coin) L1 p in
        let q' := processCancelledMatch now k m q in
        p' = playersPhase now (fold_left (visit now coin) L2 q')
        /\ transactions (state q') = transactions (state q) ++ refunds now i p ps
        /\ (forall r, pheap q' !! r =
              credit (count_occ Nat.eq_dec ps r) <$> pheap q !! r)
        /\ (exists T1 T2, transactions (state p') =
              transactions (state p) ++ T1 ++ refunds now i p ps ++ T2))
  /\ (Forall (fun t => type t = TRefund /\ amount t = cfg_betAmount config
                       /\ t_status t = SCompleted /\ matchId t = i)
             (refunds now i p ps)
      /\ List.map playerId (refunds now i p ps) = List.map (playerIdOf p) ps)
  /\ (evictAt E now = false -> exists E', cancelledIn p' k m ps i E')
  /\ (forall ss, calm E (List.map fst ss) ->
      (refundCount i (transactions (state p)) + length ss * length ps
       <= refundCount i (transactions (state (sweeps ss p))))%nat).
Proof.
  intros Hc p'. split; [|split; [|split]].
  - destruct (sweep_cancelled now coin p k m ps i E Hc)
      as (L1 & L2 & EL & Ep & Ht & Hp & HT & _).
    exists L1, L2. auto.
  - apply refunds_shape.
  - intros Hev.
    destruct (sweep_cancelled now coin p k m ps i E Hc)
      as (L1 & L2 & _ & _ & _ & _ & _ & _ & Hkeep).
    destruct (Hkeep Hev); eauto.
  - intros ss Hcalm. now apply (sweeps_refund k m ps i ss p E).
Qed.

(** ** A cancelled match in a running processor

    alice has 100 and bob 5.  Both queue up; the queue ticker (handle 3)
    pairs them at time 1000 in match [m1]: alice's stake is deducted, bob
    cannot pay, the match is cancelled.  Every main-loop tick (handle 1)
    from then on pays 10 to each of them. *)
Definition named (s : string) (i : nat) : string := s.
Definition heads (k : string) : bool := false.

Definition cancelledGame : GameProcessor :=
  run [CreatePlayer "alice" 0 "Alice" 100;
       CreatePlayer "bob" 0 "Bob" 5;
       AddPlayerToQueue "alice";
       AddPlayerToQueue "bob";
       Fire 3%nat 1000 heads (named "m1")] create.

Definition threeSweeps : list (Z * (string -> bool)) :=
  [(2000, heads); (3000, heads); (4000, heads)].

Definition balanceOf (p : GameProcessor) (r : pref) : option Z :=
  walletBalance <$> pheap p !! r.

Lemma cancelledGame_state :
  matches (state cancelledGame) = [("m1", 2%nat)]
  /\ mheap cancelledGame !! 2%nat =
     Some (mkMatch "m1" [0%nat; 1%nat] Cancelled (Some 1000) (Some 1000) (Some 1000)
                   (Some 60000) 10 None)
  /\ balanceOf cancelledGame 0%nat = Some 90
  /\ balanceOf cancelledGame 1%nat = Some 5
  /\ List.map t_id (transactions (state cancelledGame)) = ["bet_m1_alice_1000"].
Proof. vm_compute. repeat split; reflexivity. Qed.

Lemma cancelled_match_refunded_every_sweep_witness :
  cancelledIn cancelledGame "m1" 2%nat [0%nat; 1%nat] "m1" (Some 1000)
  /\ (refundCount "m1" (transactions (state cancelledGame)) + 3 * 2
      <= refundCount "m1" (transactions (state (sweeps threeSweeps cancelledGame))))%nat
  /\ balanceOf (sweeps threeSweeps cancelledGame) 0%nat = Some 120
  /\ balanceOf (sweeps threeSweeps cancelledGame) 1%nat = Some 35
  /\ balanceOf (fire 1%nat 2000 heads (named "") cancelledGame) 1%nat = Some 15.
Proof.
  assert (Hc : cancelledIn cancelledGame "m1" 2%nat [0%nat; 1%nat] "m1" (Some 1000)).
  { split; [|split].
    - vm_compute. repeat constructor. intros [].
    - vm_compute. now left.
    - eexists. vm_compute. repeat split. }
  split; [exact Hc|].
  destruct (cancelled_match_refunded_every_sweep 2000 heads cancelledGame
              "m1" 2%nat [0%nat; 1%nat] "m1" (Some 1000) Hc) as (_ & _ & _ & Hn).
  split.
  - apply (Hn threeSweeps). vm_compute. repeat split.
  - vm_compute. repeat split; reflexivity.
Defined.

(** ** What stop cancels *)

Lemma game_clearInterval_removes h p task :
  ~ In (h, task) (timers (clearInterval h p)).
Proof.
  unfold clearInterval; simpl. rewrite List.filter_In. simpl.
  rewrite Nat.eqb_refl. intros [_ H]. discriminate.
Qed.

Lemma game_clearInterval_subset h h' p task :
  In (h', task) (timers (clearInterval h p)) -> In (h', task) (timers p).
Proof. unfold clearInterval; simpl. rewrite List.filter_In. tauto. Qed.

(** [stop] removes every timer whose handle is recorded in [intervals];
    [setMatchTimer] records the handle of its timeout there. *)
Lemma game_stop_clears_recorded h task p :
  In h (JS.map_values (intervals p)) -> ~ In (h, task) (timers (stop p)).
Proof.
  unfold stop. simpl intervals.
  change (timers (withIntervals [] ?q)) with (timers q).
  change (JS.map_values (intervals (withRunning false p)))
    with (JS.map_values (intervals p)).
  generalize (withRunning false p). generalize (JS.map_values (intervals p)).
  induction l as [|h0 l IH]; intros q Hin; simpl; [contradiction|].
  destruct (Nat.eq_dec h0 h) as [->|Hne].
  - clear IH Hin. intros H.
    assert (G : forall hs q', In (h, task) (timers (fold_left (fun q h => clearInterval h q) hs q'))
                              -> In (h, task) (timers q')).
    { induction hs as [|h1 hs IH]; intros q' Hq; simpl in *; [assumption|].
      eapply game_clearInterval_subset, IH, Hq. }
    apply G in H. now apply game_clearInterval_removes in H.
  - apply IH. destruct Hin; [contradiction | assumption].
Qed.

Lemma setMatchTimer_recorded k p :
  JS.map_get (timerKey k) (intervals (setMatchTimer k p)) = Some (nextHandle p)
  /\ In (nextHandle p, MatchTimer k) (timers (setMatchTimer k p)).
Proof.
  unfold setMatchTimer; simpl. split.
  - induction (intervals p) as [|[k' v'] l IH]; simpl.
    + now rewrite String.eqb_refl.
    + destruct (String.eqb k' (timerKey k)) eqn:E; simpl;
        [now rewrite String.eqb_refl | now rewrite E].
  - apply in_or_app. right. now left.
Qed.

(** In the game above the match timeout (handle 6) is recorded under
    [match_m1]; stop clears it with the tickers.  The timeout of restart is
    recorded nowhere and survives a stop. *)
Lemma game_stop_example :
  timers cancelledGame =
    [(1%nat, Tick MainLoop); (2%nat, Tick CleanupLoop); (3%nat, Tick QueueLoop);
     (4%nat, Tick TransactionLoop); (5%nat, Tick HealthLoop);
     (6%nat, MatchTimer "m1")]
  /\ JS.map_get "match_m1" (intervals cancelledGame) = Some 6%nat
  /\ timers (stop cancelledGame) = []
  /\ timers (stop (restart cancelledGame)) = [(7%nat, Restarting)]
  /\ isRunning (fire 7%nat 9000 heads (named "") (stop (restart cancelledGame))) = true.
Proof. vm_compute. repeat split; reflexivity. Qed.

End GameFacts.

Module GameKeys.
Import Game GameFacts.

(** ** The match map has one entry per key

    The hypothesis of distinct keys in the sweep lemmas holds in every
    state the processor can reach. *)
Definition keysOk (p : GameProcessor) : Prop :=
  List.NoDup (List.map fst (matches (state p))).

Lemma map_set_key_In {V} k (v : V) l k0 :
  In k0 (List.map fst (JS.map_set k v l)) -> k0 = k \/ In k0 (List.map fst l).
Proof.
  induction l as [|[k' v'] l IH]; simpl.
  - intros [<-|[]]. now left.
  - destruct (String.eqb_spec k' k) as [->|Hne]; simpl.
    + intros [<-|H]; [now left | right; now right].
    + intros [<-|H]; [right; now left|]. destruct (IH H); auto.
Qed.

Lemma map_set_keys {V} k (v : V) (l : list (string * V)) :
  List.NoDup (List.map fst l) -> List.NoDup (List.map fst (JS.map_set k v l)).
Proof.
  induction l as [|[k' v'] l IH]; simpl; intros Hnd.
  - repeat constructor. intros [].
  - apply List.NoDup_cons_iff in Hnd as [Hk Hnd].
    destruct (String.eqb_spec k' k) as [->|Hne]; simpl.
    + now apply List.NoDup_cons_iff.
    + apply List.NoDup_cons_iff. split; [|now apply IH].
      intros H. apply map_set_key_In in H as [H|H]; congruence.
Qed.

Lemma keysOk_same p q : matches (state q) = matches (state p) -> keysOk p -> keysOk q.
Proof. unfold keysOk. now intros ->. Qed.

Lemma game_stop_state p : state (stop p) = state p.
Proof.
  unfold stop.
  assert (G : forall hs q,
            state (fold_left (fun q h => clearInterval h q) hs q) = state q).
  { induction hs as [|h0 hs IH]; intros q; simpl; [reflexivity|]. now rewrite IH. }
  exact (G _ _).
Qed.

Lemma matches_setMatchTimer k p :
  matches (state (setMatchTimer k p)) = matches (state p).
Proof. reflexivity. Qed.

Lemma keysOk_createAutomaticMatch k now a b p :
  keysOk p -> keysOk (createAutomaticMatch k now a b p).
Proof.
  intros H. unfold createAutomaticMatch, keysOk, allocMatch. cbv beta iota zeta.
  rewrite matches_setMatchTimer, matches_processAutomaticBetDeduction. simpl.
  now apply map_set_keys.
Qed.

Lemma keysOk_pairQueue now ids queue : forall i p,
  keysOk p -> keysOk (pairQueue now ids i queue p).
Proof.
  assert (G : forall n queue, (length queue <= n)%nat ->
            forall i p, keysOk p -> keysOk (pairQueue now ids i queue p)).
  { induction n as [|n IH]; intros q Hn i p H.
    - destruct q; [exact H | simpl in Hn; lia].
    - destruct q as [|a [|b rest]]; simpl; try assumption.
      destruct (_ <? _); [|assumption].
      apply IH; [simpl in Hn; lia|].
      destruct (JS.map_get a _) as [x|]; [|exact H].
      destruct (JS.map_get b _) as [y|]; [|exact H].
      now apply keysOk_createAutomaticMatch. }
  intros i p. now apply (G (length queue)).
Qed.

Lemma keysOk_cleanupExpiredSessions now p :
  keysOk p -> keysOk (cleanupExpiredSessions now p).
Proof.
  unfold cleanupExpiredSessions. generalize (matches (state p)) at 1.
  intros l. revert p. induction l as [|e l IH]; intros p H; simpl; [assumption|].
  apply IH. destruct (mheap p !! e.2) as [M|]; [|assumption].
  destruct (_ && _); [|assumption]. unfold keysOk; simpl. now apply map_delete_keys.
Qed.

Lemma matches_cleanupInactivePlayers now p :
  matches (state (cleanupInactivePlayers now p)) = matches (state p).
Proof.
  unfold cleanupInactivePlayers. apply matches_fold. intros q e.
  destruct (pheap q !! e.2); [|reflexivity]. now destruct (_ && _).
Qed.

Lemma keysOk_fire h now coin ids p : keysOk p -> keysOk (fire h now coin ids p).
Proof.
  intros H. unfold fire. destruct (timerTask h p) as [[[]|k|]|]; try assumption.
  - unfold keysOk. rewrite processMainLoop_phases.
    destruct (playersPhase_after now (fold_left (visit now coin) (matches (state p)) p))
      as [_ ->].
    now apply visits_keys.
  - unfold processCleanup, keysOk.
    rewrite matches_cleanupInactivePlayers. simpl.
    now apply keysOk_cleanupExpiredSessions.
  - now apply keysOk_pairQueue.
  - unfold keysOk. now rewrite matches_endMatch.
  - unfold startAutomatedProcessing. simpl. now destruct (isRunning p).
Qed.

Lemma keysOk_exec a p : keysOk p -> keysOk (exec a p).
Proof.
  intros H. destruct a; cbn [exec].
  - exact H.
  - unfold addPlayerToQueue. now destruct (existsb _ _).
  - unfold keysOk. now rewrite game_stop_state.
  - unfold restart, keysOk.
    change (state (snd (setTimer Restarting (stop p)))) with (state (stop p)).
    now rewrite game_stop_state.
  - now apply keysOk_fire.
Qed.

Lemma reachable_keysOk p : reachable p -> keysOk p.
Proof.
  induction 1; [|now apply keysOk_exec].
  unfold keysOk. simpl. constructor.
Qed.

Lemma game_reachable_run acts : reachable (run acts create).
Proof.
  unfold run. generalize create, reach_create.
  induction acts as [|a acts IH]; intros p Hp; simpl; [assumption|].
  apply IH. now constructor.
Qed.

End GameKeys.

(** * Balances below zero *)

Module Balances.

(** A call of the public interface of SimpleAutomation that does not credit
    a negative amount. *)
Definition creditsNonNegative (c : Automation.Call) : Prop :=
  match c with
  | Automation.CreditToWallet _ amt => 0 <= amt
  | _ => True
  end.

Definition nonNegative (s : Automation.SimpleAutomation) : Prop :=
  forall user, 0 <= Automation.getWalletBalance s user.

Lemma nonNegative_deduct user amt s :
  nonNegative s -> nonNegative (snd (Automation.deductFromWallet user amt s)).
Proof.
  intros H u. rewrite AutomationFacts.balance_deduct.
  destruct (decide (user = u)); [|apply H].
  destruct (amt <=? _) eqn:E; [apply Z.leb_le in E; lia | apply H].
Qed.

Lemma nonNegative_credit user amt s :
  0 <= amt -> nonNegative s -> nonNegative (Automation.creditToWallet user amt s).
Proof.
  intros Ha H u. rewrite AutomationFacts.balance_credit.
  destruct (decide (user = u)); [specialize (H user); lia | apply H].
Qed.

Lemma nonNegative_exec c s :
  creditsNonNegative c -> nonNegative s -> nonNegative (Automation.exec c s).
Proof.
  intros Hc H. destruct c; cbn [Automation.exec].
  - intros u. rewrite AutomationFacts.createMatch_balance.
    now apply nonNegative_deduct, nonNegative_deduct.
  - destruct (Automation.matches s !! matchId) as [m|] eqn:E.
    + intros u. rewrite (AutomationFacts.completeMatch_balance _ _ _ _ _ _ E).
      apply nonNegative_credit; [discriminate|].
      now apply nonNegative_credit.
    + now rewrite AutomationFacts.completeMatch_absent.
  - now apply nonNegative_credit.
  - now apply nonNegative_deduct.
  - intros u. unfold Automation.initializeDeveloperWallet.
    rewrite AutomationFacts.balance_setWallet.
    destruct (decide _); [discriminate | apply H].
Qed.

Lemma nonNegative_run cs : forall s,
  Forall creditsNonNegative cs -> nonNegative s -> nonNegative (Automation.run cs s).
Proof.
  induction cs as [|c cs IH]; intros s Hcs H; simpl; [assumption|].
  apply List.Forall_cons_iff in Hcs as [Hc Hcs].
  apply IH; [assumption | now apply nonNegative_exec].
Qed.

Lemma nonNegative_init : nonNegative Automation.init.
Proof.
  intros u. unfold Automation.getWalletBalance; simpl.
  now rewrite lookup_empty.
Qed.

(** A withdrawal whose absolute amount exceeds the balance is marked failed
    and changes no balance. *)
Lemma overdraft_fails now r p t :
  Wallet.heap p !! r = Some t ->
  Wallet.getPlayerBalance p (Wallet.playerId t) < Z.abs (Wallet.amount t) ->
  let p' := Wallet.processWithdrawalTransaction now r p in
  Wallet.playerBalances (Wallet.state p') = Wallet.playerBalances (Wallet.state p)
  /\ Wallet.status <$> Wallet.heap p' !! r = Some Wallet.SFailed.
Proof.
  intros H Hlt p'. subst p'. unfold Wallet.processWithdrawalTransaction.
  rewrite H. apply Z.ltb_lt in Hlt. rewrite Hlt.
  assert (G : forall reason,
    Wallet.playerBalances (Wallet.state (Wallet.failTransaction now r reason p))
      = Wallet.playerBalances (Wallet.state p)
    /\ Wallet.status <$> Wallet.heap (Wallet.failTransaction now r reason p) !! r
       = Some Wallet.SFailed).
  { intros reason. unfold Wallet.failTransaction, Wallet.storeTransaction, Wallet.mutate.
    simpl. rewrite lookup_alter_eq, H. simpl. rewrite lookup_alter_eq, H. now split. }
  destruct (_ || _); apply G.
Qed.

(** C4, as the specification states it, fails: creditToWallet takes any
    amount, and a negative one leaves a negative balance. *)
Lemma negative_credit_gives_negative_balance :
  ~ (forall s user,
       Automation.reachable s -> 0 <= Automation.getWalletBalance s user).
Proof.
  intros H.
  specialize (H (Automation.exec (Automation.CreditToWallet "alice" (-5)) Automation.init)
                "alice" (Automation.reach_step _ _ Automation.reach_init)).
  vm_compute in H. now apply H.
Qed.

(** C4, amended. In WalletProcessor every player balance is at least zero in
    every reachable state, whatever calls are made and whatever timers fire,
    review timeouts included; a withdrawal whose absolute amount exceeds the
    balance is marked failed and changes no balance.  In SimpleAutomation
    deductFromWallet refuses an amount above the balance and leaves the
    state as it is, and no balance is below zero in a state reached by calls
    that credit no negative amount. *)
Theorem balances_never_negative :
  (forall p player, Wallet.reachable p -> 0 <= Wallet.getPlayerBalance p player)
  /\ (forall now r p t,
        Wallet.heap p !! r = Some t ->
        Wallet.getPlayerBalance p (Wallet.playerId t) < Z.abs (Wallet.amount t) ->
        let p' := Wallet.processWithdrawalTransaction now r p in
        Wallet.playerBalances (Wallet.state p') = Wallet.playerBalances (Wallet.state p)
        /\ Wallet.status <$> Wallet.heap p' !! r = Some Wallet.SFailed)
  /\ (forall s user amt,
        Automation.getWalletBalance s user < amt ->
        Automation.deductFromWallet user amt s = (false, s))
  /\ (forall cs user,
        Forall creditsNonNegative cs ->
        0 <= Automation.getWalletBalance (Automation.run cs Automation.init) user).
Proof.
  split; [|split; [|split]].
  - intros p player Hp. apply WalletFacts.good_balance.
    now apply WalletFacts.wallet_reachable_good.
  - intros now r p t. apply overdraft_fails.
  - intros s user amt. apply AutomationFacts.deduct_rejects.
  - intros cs user Hcs. now apply nonNegative_run; [|apply nonNegative_init].
Qed.

(** The processor after a review timeout has fired, and three calls on
    SimpleAutomation. *)
Definition approvedLate : Wallet.WalletProcessor :=
  Wallet.run
    [Wallet.ProcessDeposit "dep_1" 1000 "alice" 1000 "upi";
     Wallet.Fire 1%nat 3000 (WalletFacts.always true);
     Wallet.ProcessWithdrawal "wd_1" 4000 "alice" (-600);
     Wallet.Fire 2%nat 5000 (WalletFacts.always true);
     Wallet.Stop;
     Wallet.Fire 7%nat 35000 (WalletFacts.always true)] Wallet.create.

Definition threeCalls : list Automation.Call :=
  [Automation.CreditToWallet "alice" 5;
   Automation.CreateMatch "m1" 1000 "alice" "bob" 10;
   Automation.DeductFromWallet "alice" 7].

Lemma balances_never_negative_witness :
  Wallet.reachable approvedLate
  /\ 0 <= Wallet.getPlayerBalance approvedLate "alice"
  /\ Forall creditsNonNegative threeCalls
  /\ 0 <= Automation.getWalletBalance (Automation.run threeCalls Automation.init) "alice".
Proof.
  destruct balances_never_negative as (Hw & _ & _ & Ha).
  assert (Hr : Wallet.reachable approvedLate)
    by apply WalletFacts.wallet_reachable_run.
  assert (Hc : Forall creditsNonNegative threeCalls).
  { repeat constructor. simpl. lia. }
  split; [exact Hr|]. split; [apply Hw, Hr|]. split; [exact Hc|].
  apply Ha, Hc.
Defined.

End Balances.

(** * Sums over a map of balances *)

Module MapFacts.

Lemma total_insert (m : gmap string Z) u v :
  map_fold (fun _ balance total => total + balance) 0 (<[u := v]> m) =
  map_fold (fun _ balance total => total + balance) 0 m - JS.orZero (m !! u) + v.
Proof.
  assert (C : forall (m' : gmap string Z) (j1 j2 : string) (z1 z2 y : Z),
            j1 <> j2 -> m' !! j1 = Some z1 -> m' !! j2 = Some z2 ->
            y + z2 + z1 = y + z1 + z2) by (intros; lia).
  destruct (m !! u) as [x|] eqn:E; simpl.
  - rewrite <- (insert_delete_eq m u v).
    rewrite (map_fold_delete_L _ 0 u x m (C m) E).
    rewrite map_fold_insert_L; [lia | apply C | apply lookup_delete_eq].
  - rewrite map_fold_insert_L; [lia | apply C | exact E].
Qed.

End MapFacts.

(** * More about src/automation.ts *)

Module AutomationMore.
Import Automation AutomationFacts.

(** ** The transaction history of a user *)

(** X1. getTransactionHistory(userId) returns exactly the logged entries of
    that user, each as often as it is logged, newest first; entries with the
    same timestamp keep the order in which they were logged. *)
Theorem history_newest_first (s : SimpleAutomation) (user : string) :
  let mine := List.filter (fun t => String.eqb (userId t) user) (transactions s) in
  let history := getTransactionHistory s user in
  (forall t, In t history <-> In t (transactions s) /\ userId t = user)
  /\ Permutation mine history
  /\ StronglySorted (fun a b => timestamp b <= timestamp a) history
  /\ (forall ts, List.filter (fun t => timestamp t =? ts) history =
                 List.filter (fun t => timestamp t =? ts) mine).
Proof.
  unfold getTransactionHistory. cbv zeta. split; [|split; [|split]].
  - intros t. rewrite JSFacts.sort_In, List.filter_In.
    now rewrite String.eqb_eq.
  - apply JSFacts.sort_perm.
  - apply (JSFacts.sort_sorted timestamp).
  - intros ts. apply (JSFacts.sort_stable timestamp).
Qed.

(** ** The status report *)

Definition neverActive (s : SimpleAutomation) : Prop :=
  forall k m, matches s !! k = Some m ->
    m_status m = MPending \/ m_status m = MCompleted.

Lemma neverActive_exec c s : neverActive s -> neverActive (exec c s).
Proof.
  intros H. destruct c; cbn [exec].
  - intros k m. rewrite createMatch_matches, lookup_insert.
    destruct (decide (matchId = k)); [|apply H].
    intros [= <-]. now left.
  - destruct (matches s !! matchId) as [m0|] eqn:E.
    + rewrite (completeMatch_present _ _ _ _ _ E). intros k m. simpl.
      rewrite lookup_insert. destruct (decide (matchId = k)); [|apply H].
      intros [= <-]. now right.
    + now rewrite (completeMatch_absent _ _ _ _ E).
  - exact H.
  - intros k m. rewrite deduct_matches. apply H.
  - exact H.
Qed.

Lemma reachable_neverActive s : reachable s -> neverActive s.
Proof.
  induction 1 as [|c s Hs IH]; [|now apply neverActive_exec].
  intros k m. change (matches init) with (∅ : gmap string MatchData).
  now rewrite lookup_empty.
Qed.

Lemma reachable_log_even s : reachable s -> Nat.Even (length (transactions s)).
Proof.
  induction 1 as [|c s Hs IH]; [now exists 0%nat|].
  destruct (exec_transactions c s) as [->|(now & k & w & ->)]; [assumption|].
  rewrite length_app. simpl. destruct IH as [n ->]. exists (S n). lia.
Qed.

(** X2. In every state that the public calls can reach, getSystemStatus
    reports no active match: a match is created pending and completeMatch
    makes it completed, nothing sets the status active.  The number of
    logged transactions it reports is even, since a settlement logs a win
    entry and a fee entry together and nothing else logs. *)
Theorem status_never_reports_active_match (now : Z) (s : SimpleAutomation) :
  reachable s ->
  activeMatches (getSystemStatus now s) = 0%nat
  /\ Nat.Even (totalTransactions (getSystemStatus now s))
  /\ (forall k m, matches s !! k = Some m ->
        m_status m = MPending \/ m_status m = MCompleted).
Proof.
  intros Hr. pose proof (reachable_neverActive s Hr) as Hn.
  split; [|split; [now apply reachable_log_even | exact Hn]].
  unfold getSystemStatus; simpl.
  assert (G : forall l : list (string * MatchData),
            (forall k m, In (k, m) l -> m_status m <> MActive) ->
            List.filter (fun m => MatchStatus_eqb (m_status m) MActive)
              (List.map snd l) = []).
  { induction l as [|[k m] l IH]; intros Hl; simpl; [reflexivity|].
    assert (Hm : m_status m <> MActive) by (apply (Hl k); now left).
    destruct (m_status m); try contradiction; simpl;
      apply IH; intros k' m' H'; apply (Hl k'); now right. }
  rewrite G; [reflexivity|].
  intros k m Hin. apply list_elem_of_In, elem_of_map_to_list in Hin.
  destruct (Hn k m Hin) as [-> | ->]; discriminate.
Qed.

Lemma status_never_reports_active_match_witness :
  reachable settled
  /\ activeMatches (getSystemStatus 5000 settled) = 0%nat
  /\ totalTransactions (getSystemStatus 5000 settled) = 2%nat.
Proof.
  split; [apply reachable_run|].
  split; [|reflexivity].
  apply (status_never_reports_active_match 5000 settled), reachable_run.
Defined.

(** ** The money in the wallets *)

(** The sum of all wallet balances. *)
Definition totalWallets (s : SimpleAutomation) : Z :=
  map_fold (fun _ balance total => total + balance) 0 (wallets s).

Lemma totalWallets_setWallet s u v :
  totalWallets (setWallet s u v) = totalWallets s - getWalletBalance s u + v.
Proof. unfold totalWallets, getWalletBalance. simpl. apply MapFacts.total_insert. Qed.

Lemma totalWallets_credit u amt s :
  totalWallets (creditToWallet u amt s) = totalWallets s + amt.
Proof. unfold creditToWallet. rewrite totalWallets_setWallet. lia. Qed.

Lemma totalWallets_deduct u amt s :
  totalWallets (snd (deductFromWallet u amt s)) =
  totalWallets s - (if amt <=? getWalletBalance s u then amt else 0).
Proof.
  unfold deductFromWallet. destruct (amt <=? getWalletBalance s u); simpl.
  - rewrite totalWallets_setWallet. lia.
  - lia.
Qed.

Lemma totalWallets_ext s s' : wallets s' = wallets s -> totalWallets s' = totalWallets s.
Proof. unfold totalWallets. now intros ->. Qed.

Lemma totalWallets_completeMatch now matchId winnerId s m :
  matches s !! matchId = Some m ->
  totalWallets (completeMatch now matchId winnerId s) =
  totalWallets s + winnerPayout + serverFee.
Proof.
  intros H. rewrite (completeMatch_present _ _ _ _ _ H).
  match goal with
  | |- totalWallets (logTransaction _ (logTransaction _ ?x)) = ?r =>
      change (totalWallets x = r)
  end.
  rewrite !totalWallets_credit. unfold totalWallets; simpl. lia.
Qed.



(** ** Crediting and deducting *)



End AutomationMore.

(** * More about WalletProcessor *)

Module WalletMore.
Import Wallet WalletFacts.

(** ** Withdrawal requests *)

Lemma failTransaction_spec now r reason p t :
  heap p !! r = Some t ->
  let p' := failTransaction now r reason p in
  heap p' = <[r := setCompletedAt now (setError reason (setStatus SFailed t))]> (heap p)
  /\ state p' = setTransactions (JS.map_set (id t) r (transactions (state p))) (state p)
  /\ timers p' = timers p /\ intervals p' = intervals p
  /\ isRunning p' = isRunning p /\ nextHandle p' = nextHandle p.
Proof.
  intros H. unfold failTransaction, storeTransaction, mutate; simpl.
  rewrite lookup_alter_eq, H; simpl. repeat split.
  apply map_eq. intros i. rewrite lookup_alter, lookup_insert.
  destruct (decide (r = i)) as [<-|]; [now rewrite H | reflexivity].
Qed.

(** X5. A withdrawal requested through processWithdrawal with an amount
    above -10, in particular with any positive amount, is always refused:
    the request is stored with the amount negated, which is below the
    minimum of 10, so the withdrawal tick fails it with the reason
    Invalid amount; no balance, no volume and no timer changes. *)
Theorem withdrawal_of_positive_amount_fails
    (txId : string) (now now' : Z) (player : string) (amt : Z) (p : WalletProcessor) :
  -10 < amt ->
  let r := fst (processWithdrawal txId now player amt p) in
  let p1 := snd (processWithdrawal txId now player amt p) in
  let p2 := processWithdrawalTransaction now' r p1 in
  heap p2 !! r =
    Some (mkTx txId player TWithdrawal (- amt) SFailed now None None (Some now')
               (Some ("Invalid amount: ₹" +:+ pretty (- amt))) None)
  /\ JS.map_get txId (transactions (state p2)) = Some r
  /\ playerBalances (state p2) = playerBalances (state p)
  /\ totalVolume (state p2) = totalVolume (state p)
  /\ developerBalance (state p2) = developerBalance (state p)
  /\ timers p2 = timers p.
Proof.
  intros Hamt r p1 p2.
  set (w := mkTx txId player TWithdrawal (- amt) SPending now None None None None None).
  assert (H1 : heap p1 !! r = Some w) by (unfold p1, r; simpl; apply lookup_insert_eq).
  assert (E : p2 = failTransaction now' r ("Invalid amount: ₹" +:+ pretty (- amt)) p1).
  { unfold p2, processWithdrawalTransaction. rewrite H1.
    assert (L : (amount w <? minWithdrawal config) = true)
      by (apply Z.ltb_lt; simpl; lia).
    rewrite L. reflexivity. }
  destruct (failTransaction_spec now' r ("Invalid amount: ₹" +:+ pretty (- amt)) p1 w H1)
    as (Hh & Hs & Ht & _).
  rewrite <- E in Hh, Hs, Ht.
  split; [rewrite Hh; apply lookup_insert_eq|].
  rewrite Hs. split; [apply map_set_get|]. repeat split. exact Ht.
Qed.

Lemma withdrawal_of_positive_amount_fails_witness :
  let q := processWithdrawal "wd_1" 1000 "alice" 100 create in
  status <$> heap (processWithdrawalTransaction 6000 (fst q) (snd q)) !! fst q =
    Some SFailed
  /\ playerBalances (state (processWithdrawalTransaction 6000 (fst q) (snd q))) =
     playerBalances (state create).
Proof.
  cbv zeta.
  destruct (withdrawal_of_positive_amount_fails "wd_1" 1000 6000 "alice" 100 create)
    as (H & _ & Hb & _); [lia|].
  split; [now rewrite H | exact Hb].
Defined.

(** ** The queue ticks *)

Definition statusIn (l : list TxStatus) (p : WalletProcessor) (r : ref) : Prop :=
  exists t, heap p !! r = Some t /\ In (status t) l.

Lemma processDepositTransaction_queue now ok r p :
  pendingDeposits (state (processDepositTransaction now ok r p)) =
  pendingDeposits (state p).
Proof.
  unfold processDepositTransaction. destruct (heap p !! r) as [t|] eqn:H; [|reflexivity].
  assert (F : forall reason, pendingDeposits (state (failTransaction now r reason p)) =
                             pendingDeposits (state p)).
  { intros reason. unfold failTransaction, storeTransaction, mutate; simpl.
    now rewrite lookup_alter_eq, H. }
  destruct (_ || _); [apply F|]. destruct ok; [|apply F].
  unfold approveDeposit. rewrite H. unfold storeTransaction, mutate; simpl.
  now rewrite lookup_alter_eq, H.
Qed.

Lemma processDepositTransaction_resolves now ok r p r' :
  (r' = r /\ is_Some (heap p !! r)) \/ statusIn [SCompleted; SFailed] p r' ->
  statusIn [SCompleted; SFailed] (processDepositTransaction now ok r p) r'.
Proof.
  intros H. destruct (heap p !! r) as [t|] eqn:Hr.
  - destruct (processDepositTransaction_spec now ok r p t Hr)
      as ((t' & Ht' & _ & _ & _ & _ & _ & _ & Hst) & _).
    destruct (decide (r' = r)) as [->|Hne].
    + exists t'. split; [exact Ht'|]. rewrite Hst.
      destruct (accepted ok t); simpl; auto.
    + destruct H as [[-> _]|(t0 & Ht0 & Hs0)]; [contradiction|].
      exists t0. split; [|exact Hs0].
      assert (Hh : heap (processDepositTransaction now ok r p) !! r' = heap p !! r').
      { unfold processDepositTransaction. rewrite Hr.
        assert (F : forall reason, heap (failTransaction now r reason p) !! r' = heap p !! r').
        { intros reason. unfold failTransaction, storeTransaction, mutate; simpl.
          rewrite lookup_alter_eq, Hr; simpl. now rewrite lookup_alter_ne. }
        destruct (_ || _); [apply F|]. destruct ok; [|apply F].
        unfold approveDeposit. rewrite Hr. unfold storeTransaction, mutate; simpl.
        rewrite lookup_alter_eq, Hr; simpl. now rewrite lookup_alter_ne. }
      now rewrite Hh.
  - unfold processDepositTransaction. rewrite Hr.
    destruct H as [[_ [? ?]]|H]; [discriminate | exact H].
Qed.

Lemma processDeposits_resolves now gw batch : forall i p,
  let p' := processDeposits now gw i batch p in
  pendingDeposits (state p') = pendingDeposits (state p)
  /\ forall r, (In r batch /\ is_Some (heap p !! r))
               \/ statusIn [SCompleted; SFailed] p r ->
               statusIn [SCompleted; SFailed] p' r.
Proof.
  induction batch as [|r0 rest IH]; intros i p; simpl.
  - split; [reflexivity|]. intros r [[[] _]|H]; exact H.
  - destruct (IH (S i) (processDepositTransaction now (gw i) r0 p)) as [Hq Hr].
    split; [now rewrite Hq, processDepositTransaction_queue|].
    intros r H. apply Hr.
    destruct H as [[[<-|Hin] Hs]|H].
    + right. apply processDepositTransaction_resolves. now left.
    + destruct (decide (r = r0)) as [->|Hne].
      * right. apply processDepositTransaction_resolves. now left.
      * left. split; [exact Hin|].
        destruct Hs as [t Ht].
        destruct (heap p !! r0) as [t0|] eqn:H0.
        -- unfold processDepositTransaction. rewrite H0.
           assert (F : forall reason,
                     heap (failTransaction now r0 reason p) !! r = heap p !! r).
           { intros reason. unfold failTransaction, storeTransaction, mutate; simpl.
             rewrite lookup_alter_eq, H0; simpl. now rewrite lookup_alter_ne. }
           destruct (_ || _); [rewrite F; eauto|]. destruct (gw i); [|rewrite F; eauto].
           unfold approveDeposit. rewrite H0. unfold storeTransaction, mutate; simpl.
           rewrite lookup_alter_eq, H0; simpl. rewrite lookup_alter_ne by auto. eauto.
        -- unfold processDepositTransaction. rewrite H0. eauto.
    + right. apply processDepositTransaction_resolves. now right.
Qed.

(** X6. The deposit tick takes the whole queue: afterwards pendingDeposits
    is empty, and every deposit that was queued is completed or failed,
    whatever the payment gateway answered; none stays pending and none is
    queued again. *)
Theorem deposit_tick_resolves_queue (now : Z) (gw : nat -> bool) (p : WalletProcessor) :
  let p' := processAutomaticDeposits now gw p in
  pendingDeposits (state p') = []
  /\ pendingWithdrawals (state p') = pendingWithdrawals (state p)
  /\ forall r, In r (pendingDeposits (state p)) -> is_Some (heap p !! r) ->
       statusIn [SCompleted; SFailed] p' r.
Proof.
  unfold processAutomaticDeposits.
  destruct (pendingDeposits (state p)) as [|r0 rest] eqn:E.
  - cbv zeta. rewrite E. split; [reflexivity|]. split; [reflexivity|]. intros r [].
  - set (p1 := withState (setPendingDeposits []) p).
    destruct (processDeposits_resolves now gw (r0 :: rest) 0 p1) as [Hq Hr].
    cbv zeta. split; [exact Hq|]. split.
    + assert (G : forall batch i q,
                pendingWithdrawals (state (processDeposits now gw i batch q)) =
                pendingWithdrawals (state q)).
      { induction batch as [|r b IH]; intros i q; simpl; [reflexivity|].
        rewrite IH. unfold processDepositTransaction.
        destruct (heap q !! r) as [t|] eqn:H; [|reflexivity].
        assert (F : forall reason,
                  pendingWithdrawals (state (failTransaction now r reason q)) =
                  pendingWithdrawals (state q)).
        { intros reason. unfold failTransaction, storeTransaction, mutate; simpl.
          now rewrite lookup_alter_eq, H. }
        destruct (_ || _); [apply F|]. destruct (gw i); [|apply F].
        unfold approveDeposit. rewrite H. unfold storeTransaction, mutate; simpl.
        now rewrite lookup_alter_eq, H. }
      rewrite G. reflexivity.
    + intros r Hin Hs. apply Hr. left. split; [exact Hin | exact Hs].
Qed.

Lemma deposit_tick_resolves_queue_witness :
  let p := snd (processDeposit "dep_2" 1200 "bob" 5 "upi"
                  (snd (processDeposit "dep_1" 1000 "alice" 100 "upi" create))) in
  pendingDeposits (state p) = [0%nat; 1%nat]
  /\ statusIn [SCompleted; SFailed] (processAutomaticDeposits 3000 (always true) p) 0%nat
  /\ statusIn [SCompleted; SFailed] (processAutomaticDeposits 3000 (always true) p) 1%nat.
Proof.
  cbv zeta. split; [reflexivity|].
  destruct (deposit_tick_resolves_queue 3000 (always true)
              (snd (processDeposit "dep_2" 1200 "bob" 5 "upi"
                      (snd (processDeposit "dep_1" 1000 "alice" 100 "upi" create)))))
    as (_ & _ & H).
  split; apply H; simpl; eauto.
Defined.


(** ** What the processor does to player balances

    [books] compares the sum of the player balances with the volume
    counter. *)
Definition books (p : WalletProcessor) : Z :=
  totalPlayerBalances p - totalVolume (state p).

Definition credited (p q : WalletProcessor) : Prop :=
  (forall player, getPlayerBalance p player <= getPlayerBalance q player)
  /\ books q = books p.

Lemma credited_refl p : credited p p.
Proof. split; [intros; lia | reflexivity]. Qed.

Lemma credited_trans p q r : credited p q -> credited q r -> credited p r.
Proof.
  intros [B1 E1] [B2 E2]. split; [|congruence].
  intros player. specialize (B1 player). specialize (B2 player). lia.
Qed.

Lemma credited_same p q :
  playerBalances (state q) = playerBalances (state p) ->
  totalVolume (state q) = totalVolume (state p) -> credited p q.
Proof.
  intros Hb Hv. unfold credited, books, totalPlayerBalances, getPlayerBalance.
  rewrite Hb, Hv. split; [intros; lia | reflexivity].
Qed.

Lemma credited_fold {X} (f : WalletProcessor -> X -> WalletProcessor) l :
  (forall q x, credited q (f q x)) -> forall p, credited p (fold_left f l p).
Proof.
  intros Hf. induction l as [|x l IH]; intros p; simpl; [apply credited_refl|].
  eapply credited_trans; [apply Hf | apply IH].
Qed.

Lemma credited_credit t p q :
  0 <= amount t ->
  playerBalances (state q) =
    <[playerId t := getPlayerBalance p (playerId t) + amount t]> (playerBalances (state p)) ->
  totalVolume (state q) = totalVolume (state p) + amount t ->
  credited p q.
Proof.
  intros Ha Hb Hv. split.
  - intros player. unfold getPlayerBalance at 2. rewrite Hb, lookup_insert.
    destruct (decide (playerId t = player)) as [<-|]; simpl; [lia|].
    unfold getPlayerBalance. lia.
  - unfold books, totalPlayerBalances. rewrite Hb, Hv, MapFacts.total_insert.
    unfold getPlayerBalance. lia.
Qed.

Lemma credited_storeTransaction r p : credited p (storeTransaction r p).
Proof.
  unfold storeTransaction.
  destruct (heap p !! r); [now apply credited_same | apply credited_refl].
Qed.

Lemma credited_failTransaction now r reason p :
  credited p (failTransaction now r reason p).
Proof.
  unfold failTransaction.
  eapply credited_trans; [|apply credited_storeTransaction]. now apply credited_same.
Qed.

Lemma credited_retryTransaction now r p : credited p (retryTransaction now r p).
Proof.
  unfold retryTransaction. set (p1 := mutate r _ p).
  assert (H1 : credited p p1) by now apply credited_same.
  destruct (heap p1 !! r) as [t|]; [|exact H1].
  destruct (3 <? _).
  - eapply credited_trans; [exact H1 | apply credited_failTransaction].
  - destruct (type t); try exact H1;
      (eapply credited_trans; [exact H1 | now apply credited_same]).
Qed.

Lemma credited_approveDeposit now r p :
  (forall t, heap p !! r = Some t -> 0 <= amount t) ->
  credited p (approveDeposit now r p).
Proof.
  intros Ha. unfold approveDeposit.
  destruct (heap p !! r) as [t|] eqn:H; [|apply credited_refl].
  apply (credited_credit t); [now apply Ha | |];
    unfold storeTransaction, mutate; simpl;
    rewrite lookup_alter_eq, H; reflexivity.
Qed.

Lemma credited_approveWithdrawal now r p :
  (forall t, heap p !! r = Some t -> 0 <= amount t) ->
  credited p (approveWithdrawal now r p).
Proof.
  intros Ha. unfold approveWithdrawal.
  destruct (heap p !! r) as [t|] eqn:H; [|apply credited_refl].
  specialize (Ha t eq_refl).
  apply (credited_credit t); [exact Ha | |];
    unfold simulateBankTransfer, storeTransaction, mutate; simpl;
    rewrite lookup_alter_eq, H; simpl; [reflexivity|].
  now rewrite Z.abs_eq.
Qed.

Lemma credited_queueForManualReview r p : credited p (queueForManualReview r p).
Proof.
  unfold queueForManualReview.
  eapply credited_trans; [|now apply credited_same].
  eapply credited_trans; [|apply credited_storeTransaction]. now apply credited_same.
Qed.

Lemma credited_processDepositTransaction now ok r p :
  credited p (processDepositTransaction now ok r p).
Proof.
  unfold processDepositTransaction.
  destruct (heap p !! r) as [t|] eqn:H; [|apply credited_refl].
  destruct ((amount t <? minDeposit config) || (maxDeposit config <? amount t))
    eqn:E; [apply credited_failTransaction|].
  destruct ok; [|apply credited_failTransaction].
  apply credited_approveDeposit. intros t' Ht'. rewrite H in Ht'. injection Ht' as <-.
  apply orb_false_elim in E as [E _]. apply Z.ltb_ge in E. simpl in E. lia.
Qed.

Lemma credited_processDeposits now gw batch : forall i p,
  credited p (processDeposits now gw i batch p).
Proof.
  induction batch as [|r rest IH]; intros i p; simpl; [apply credited_refl|].
  eapply credited_trans; [apply credited_processDepositTransaction | apply IH].
Qed.

Lemma credited_processWithdrawalTransaction now r p :
  credited p (processWithdrawalTransaction now r p).
Proof.
  unfold processWithdrawalTransaction.
  destruct (heap p !! r) as [t|] eqn:H; [|apply credited_refl].
  destruct ((amount t <? minWithdrawal config) || (maxWithdrawal config <? amount t))
    eqn:E; [apply credited_failTransaction|].
  apply orb_false_elim in E as [E _]. apply Z.ltb_ge in E. simpl in E.
  destruct (_ <? _); [apply credited_failTransaction|].
  destruct (_ <=? _); [|apply credited_queueForManualReview].
  apply credited_approveWithdrawal. intros t' Ht'. rewrite H in Ht'. injection Ht' as <-.
  lia.
Qed.

Lemma credited_tick tk now gw p :
  credited p (match tk with
              | Deposits => processAutomaticDeposits now gw p
              | Withdrawals => processAutomaticWithdrawals now p
              | Balance => synchronizeBalances p
              | Validation => validateTransactions now p
              | Fees => collectSystemFees p
              | Cleanup => cleanupWalletData now p
              end).
Proof.
  destruct tk.
  - unfold processAutomaticDeposits. destruct (pendingDeposits (state p)) eqn:E;
      [apply credited_refl|].
    eapply credited_trans; [|apply credited_processDeposits]. now apply credited_same.
  - unfold processAutomaticWithdrawals. destruct (pendingWithdrawals (state p)) eqn:E;
      [apply credited_refl|].
    eapply credited_trans;
      [|apply credited_fold; intros; apply credited_processWithdrawalTransaction].
    now apply credited_same.
  - apply credited_refl.
  - unfold validateTransactions. apply credited_fold. intros q r.
    destruct (heap q !! r) as [t|]; [|apply credited_refl].
    destruct (_ && _); [|apply credited_refl].
    unfold handleStuckTransaction. destruct (heap q !! r) as [t'|]; [|apply credited_refl].
    destruct (type t'); auto using credited_retryTransaction, credited_failTransaction.
  - unfold collectSystemFees.
    match goal with |- context [fold_left ?f ?l (0, p)] =>
      assert (Hf : forall l' acc, credited p (snd acc) ->
                                  credited p (snd (fold_left f l' acc)));
      [|specialize (Hf l (0, p) (credited_refl p))]
    end.
    { induction l' as [|r l' IH]; intros [total q] Hq; simpl in *; [assumption|].
      apply IH. destruct (heap q !! r) as [t|]; simpl; [|assumption].
      eapply credited_trans; [exact Hq | now apply credited_same]. }
    destruct (fold_left _ _ (0, p)) as [total p1]. simpl in Hf.
    destruct (0 <? total); [|exact Hf].
    eapply credited_trans; [exact Hf | now apply credited_same].
  - unfold cleanupWalletData. apply credited_fold. intros q e.
    destruct (heap q !! e.2) as [t|]; [|apply credited_refl].
    destruct (_ && _); [now apply credited_same | apply credited_refl].
Qed.

Lemma credited_start p : credited p (startAutomatedWalletProcessing p).
Proof.
  unfold startAutomatedWalletProcessing.
  destruct (isRunning p); [apply credited_refl | now apply credited_same].
Qed.

Lemma credited_stop p : credited p (stop p).
Proof.
  destruct (WalletTimers.stop_frame p) as [_ Hs].
  apply credited_same; now rewrite Hs.
Qed.

Lemma credited_fire h now gw p : good p -> credited p (fire h now gw p).
Proof.
  intros Hg. unfold fire.
  destruct (timerTask h p) as [[tk|w|w|]|]; [| | | |apply credited_refl].
  - apply (credited_tick tk now gw p).
  - assert (H1 : credited p (clearInterval h p)) by now apply credited_same.
    destruct (heap (clearInterval h p) !! w) as [t|] eqn:H; [|exact H1].
    destruct (TxStatus_eqb (status t) SReview) eqn:E; [|exact H1].
    eapply credited_trans; [exact H1|].
    apply credited_approveWithdrawal. intros t' Ht'. rewrite H in Ht'. injection Ht' as <-.
    destruct Hg as [_ Hr]. specialize (Hr w t H).
    destruct (status t); try discriminate. specialize (Hr eq_refl). simpl in Hr. lia.
  - now apply credited_same.
  - eapply credited_trans; [|apply credited_start]. now apply credited_same.
Qed.

Lemma credited_addServerFee now mid amt p : credited p (addServerFee now mid amt p).
Proof.
  unfold addServerFee.
  eapply credited_trans;
    [|apply (credited_storeTransaction (nextRef p)
               (snd (alloc (mkTx ("fee_" +:+ mid +:+ "_" +:+ pretty now)
                        (developerWalletId config) TServerFee amt SPending now
                        None (Some mid) None None None) p)))].
  now apply credited_same.
Qed.

Lemma credited_exec a p : good p -> credited p (exec a p).
Proof.
  intros Hg. destruct a; cbn [exec].
  - now apply credited_same.
  - now apply credited_same.
  - apply credited_addServerFee.
  - apply credited_stop.
  - unfold restart. eapply credited_trans; [apply credited_stop | now apply credited_same].
  - now apply credited_fire.
Qed.

Lemma reachable_books p : reachable p -> books p = 0.
Proof.
  induction 1 as [|a p Hp IH].
  - destruct (credited_start
                {| state := {| transactions := []; playerBalances := ∅;
                               pendingDeposits := []; pendingWithdrawals := [];
                               developerBalance := 10000; totalVolume := 0;
                               totalFees := 0 |};
                   intervals := []; isRunning := false;
                   heap := ∅; nextRef := 0%nat; timers := []; nextHandle := 1%nat |})
      as [_ E].
    unfold create. rewrite E. reflexivity.
  - destruct (credited_exec a p (wallet_reachable_good p Hp)) as [_ E]. congruence.
Qed.

(** A deposit of 1000 for alice, approved by the deposit tick. *)
Definition funded : WalletProcessor :=
  run [ProcessDeposit "dep_1" 1000 "alice" 1000 "upi";
       Fire 1%nat 3000 (always true)] create.






(** ** Fee collection *)

Definition isPendingFee (p : WalletProcessor) (r : ref) : bool :=
  match heap p !! r with
  | Some t => TxType_eqb (type t) TServerFee && TxStatus_eqb (status t) SPending
  | None => false
  end.

(** The entries of the transaction map that are pending server fees, and
    the sum of their amounts. *)
Definition pendingFeeRefs (p : WalletProcessor) : list ref :=
  List.filter (isPendingFee p) (JS.map_values (transactions (state p))).

Definition amountIn (h : gmap ref Transaction) (r : ref) : Z :=
  match h !! r with Some t => amount t | None => 0 end.

Definition total (f : ref -> Z) (l : list ref) : Z :=
  fold_right (fun r acc => f r + acc) 0 l.

Definition pendingFees (p : WalletProcessor) : Z :=
  total (amountIn (heap p)) (pendingFeeRefs p).

(** One iteration of the [forEach] of [collectSystemFees]. *)
Definition feeStep (acc : Z * WalletProcessor) (r : ref) : Z * WalletProcessor :=
  let '(sum, q) := acc in
  match heap q !! r with
  | Some t =>
      (sum + amount t,
       mutate r (setStatus SCompleted)
         (withState (fun s => setDeveloperBalance (developerBalance s + amount t) s) q))
  | None => acc
  end.

Lemma collectSystemFees_unfold p :
  collectSystemFees p =
  let '(sum, p1) := fold_left feeStep (pendingFeeRefs p) (0, p) in
  if 0 <? sum then withState (fun s => setTotalFees (totalFees s + sum) s) p1 else p1.
Proof. reflexivity. Qed.

Definition markCompleted (l : list ref) (h : gmap ref Transaction)
  : gmap ref Transaction :=
  fold_left (fun h x => alter (setStatus SCompleted) x h) l h.

Lemma markCompleted_other l : forall h r,
  ~ In r l -> markCompleted l h !! r = h !! r.
Proof.
  induction l as [|x l IH]; intros h r Hn; simpl; [reflexivity|].
  rewrite IH by (intros H; apply Hn; now right).
  apply lookup_alter_ne. intros ->. apply Hn. now left.
Qed.

Lemma markCompleted_member l : forall h r,
  In r l -> markCompleted l h !! r = setStatus SCompleted <$> h !! r.
Proof.
  induction l as [|x l IH]; intros h r Hin; simpl; [destruct Hin|].
  destruct (in_dec Nat.eq_dec r l) as [Hl|Hl].
  - rewrite (IH _ _ Hl). rewrite lookup_alter.
    destruct (decide (x = r)) as [->|]; [|reflexivity].
    destruct (h !! r); reflexivity.
  - destruct Hin as [->|Hin]; [|contradiction].
    rewrite (markCompleted_other _ _ _ Hl). apply lookup_alter_eq.
Qed.

Lemma amountIn_alter h x r : amountIn (alter (setStatus SCompleted) x h) r = amountIn h r.
Proof.
  unfold amountIn. rewrite lookup_alter.
  destruct (decide (x = r)) as [->|]; [|reflexivity]. destruct (h !! r); reflexivity.
Qed.

Lemma total_ext f g l : (forall r, f r = g r) -> total f l = total g l.
Proof. intros H. induction l as [|r l IH]; simpl; [reflexivity|]. now rewrite H, IH. Qed.

Lemma feeStep_fold l : forall sum q,
  (forall r, In r l -> is_Some (heap q !! r)) ->
  let res := fold_left feeStep l (sum, q) in
  fst res = sum + total (amountIn (heap q)) l
  /\ developerBalance (state (snd res)) =
     developerBalance (state q) + total (amountIn (heap q)) l
  /\ heap (snd res) = markCompleted l (heap q)
  /\ transactions (state (snd res)) = transactions (state q)
  /\ playerBalances (state (snd res)) = playerBalances (state q)
  /\ totalFees (state (snd res)) = totalFees (state q)
  /\ totalVolume (state (snd res)) = totalVolume (state q).
Proof.
  induction l as [|x l IH]; intros sum q Hin; simpl.
  - repeat split; lia.
  - destruct (Hin x (or_introl eq_refl)) as [t Ht]. rewrite Ht.
    set (q1 := mutate x (setStatus SCompleted) _).
    destruct (IH (sum + amount t) q1) as (H1 & H2 & H3 & H4 & H5 & H6 & H7).
    { intros r Hr. unfold q1, mutate; simpl. rewrite lookup_alter.
      destruct (decide (x = r)) as [<-|]; [rewrite Ht; eauto|].
      apply Hin. now right. }
    assert (Ea : total (amountIn (heap q1)) l = total (amountIn (heap q)) l).
    { apply total_ext. intros r. apply amountIn_alter. }
    assert (Ex : amountIn (heap q) x = amount t) by (unfold amountIn; now rewrite Ht).
    rewrite Ea in H1, H2. rewrite Ex.
    split; [rewrite H1; lia|]. split; [rewrite H2; simpl; lia|].
    split; [exact H3|]. repeat split; assumption.
Qed.

Definition completedAmount (h : gmap ref Transaction) (r : ref) : Z :=
  match h !! r with
  | Some t => if TxStatus_eqb (status t) SCompleted then amount t else 0
  | None => 0
  end.

Lemma calculateExpectedTotal_total p :
  calculateExpectedTotal p =
  total (completedAmount (heap p)) (JS.map_values (transactions (state p))).
Proof.
  unfold calculateExpectedTotal.
  assert (G : forall l a,
            fold_left (fun expected r =>
                         match heap p !! r with
                         | Some t => if TxStatus_eqb (status t) SCompleted
                                     then expected + amount t else expected
                         | None => expected
                         end) l a = a + total (completedAmount (heap p)) l).
  { induction l as [|r l IH]; intros a; simpl; [lia|].
    rewrite IH. unfold completedAmount at 2.
    destruct (heap p !! r) as [t|]; [destruct (TxStatus_eqb _ _)|]; lia. }
  rewrite G. lia.
Qed.

Lemma total_filter (f : ref -> Z) (c : ref -> bool) l :
  total f (List.filter c l) = total (fun r => if c r then f r else 0) l.
Proof.
  induction l as [|r l IH]; simpl; [reflexivity|].
  destruct (c r); simpl; rewrite IH; lia.
Qed.

Lemma total_plus f g l : total (fun r => f r + g r) l = total f l + total g l.
Proof. induction l as [|r l IH]; simpl; [reflexivity|]. rewrite IH. lia. Qed.

Lemma total_ext_in f g l : (forall r, In r l -> f r = g r) -> total f l = total g l.
Proof.
  intros H. induction l as [|r l IH]; simpl; [reflexivity|].
  rewrite (H r), IH; [reflexivity | | now left].
  intros r' Hr'. apply H. now right.
Qed.

(** X9. collectSystemFees adds to developerBalance the amounts of all
    pending server-fee entries of the transaction map and completes them;
    totalFees grows by that sum only when the sum is positive.  Player
    balances stay as they are, while the expected total that the balance
    integrity check compares them with grows by the fees collected.  A
    second run collects nothing and changes nothing. *)
Theorem fee_collection_accounts (p : WalletProcessor) :
  let q := collectSystemFees p in
  developerBalance (state q) = developerBalance (state p) + pendingFees p
  /\ totalFees (state q) = totalFees (state p) + Z.max 0 (pendingFees p)
  /\ playerBalances (state q) = playerBalances (state p)
  /\ calculateExpectedTotal q = calculateExpectedTotal p + pendingFees p
  /\ (forall r, In r (pendingFeeRefs p) ->
        status <$> heap q !! r = Some SCompleted)
  /\ pendingFeeRefs q = []
  /\ collectSystemFees q = q.
Proof.
  cbv zeta. rewrite (collectSystemFees_unfold p).
  assert (Hin : forall r, In r (pendingFeeRefs p) -> is_Some (heap p !! r)).
  { intros r Hr. apply List.filter_In in Hr as [_ Hr]. unfold isPendingFee in Hr.
    destruct (heap p !! r); [eauto | discriminate]. }
  destruct (feeStep_fold (pendingFeeRefs p) 0 p Hin) as (H1 & H2 & H3 & H4 & H5 & H6 & H7).
  fold (pendingFees p) in H1, H2.
  destruct (fold_left feeStep (pendingFeeRefs p) (0, p)) as [sum p1] eqn:E.
  simpl in H1, H2, H3, H4, H5, H6, H7.
  set (q := if 0 <? sum then _ else p1).
  assert (Qh : heap q = markCompleted (pendingFeeRefs p) (heap p))
    by (unfold q; destruct (0 <? sum); exact H3).
  assert (Qt : transactions (state q) = transactions (state p))
    by (unfold q; destruct (0 <? sum); exact H4).
  assert (Qd : developerBalance (state q) = developerBalance (state p) + pendingFees p)
    by (unfold q; destruct (0 <? sum); exact H2).
  assert (Qb : playerBalances (state q) = playerBalances (state p))
    by (unfold q; destruct (0 <? sum); exact H5).
  assert (Qf : totalFees (state q) = totalFees (state p) + Z.max 0 (pendingFees p)).
  { unfold q. destruct (0 <? sum) eqn:L; simpl; rewrite H6.
    - apply Z.ltb_lt in L. lia.
    - apply Z.ltb_ge in L. lia. }
  assert (Qs : forall r, In r (pendingFeeRefs p) ->
                 status <$> heap q !! r = Some SCompleted).
  { intros r Hr. rewrite Qh, (markCompleted_member _ _ _ Hr).
    destruct (Hin r Hr) as [t ->]. reflexivity. }
  assert (Qn : forall r, In r (JS.map_values (transactions (state p))) ->
                 isPendingFee q r = false).
  { intros r Hr. unfold isPendingFee. rewrite Qh.
    destruct (isPendingFee p r) eqn:Ep.
    - assert (Hm : In r (pendingFeeRefs p)) by (apply List.filter_In; now split).
      rewrite (markCompleted_member _ _ _ Hm). destruct (Hin r Hm) as [t ->]. simpl.
      apply andb_false_r.
    - rewrite markCompleted_other; [exact Ep|].
      intros Hm. apply List.filter_In in Hm as [_ Hm]. congruence. }
  assert (Qe : pendingFeeRefs q = []).
  { unfold pendingFeeRefs. rewrite Qt.
    induction (JS.map_values (transactions (state p))) as [|r l IH]; [reflexivity|].
    simpl. rewrite (Qn r) by now left. apply IH. intros r' Hr'. apply Qn. now right. }
  split; [exact Qd|]. split; [exact Qf|]. split; [exact Qb|].
  split; [|split; [exact Qs|split; [exact Qe|]]].
  - rewrite !calculateExpectedTotal_total, Qt, Qh.
    unfold pendingFees, pendingFeeRefs. rewrite total_filter, <- total_plus.
    apply total_ext_in. intros r Hr. unfold completedAmount.
    destruct (isPendingFee p r) eqn:Ep.
    + assert (Hm : In r (pendingFeeRefs p)) by (apply List.filter_In; now split).
      rewrite (markCompleted_member _ _ _ Hm). unfold amountIn.
      unfold isPendingFee in Ep. destruct (heap p !! r) as [t|]; [|discriminate].
      simpl. apply andb_prop in Ep as [_ Ep].
      destruct (status t); try discriminate. simpl. lia.
    + rewrite markCompleted_other; [lia|].
      intros Hm. apply List.filter_In in Hm as [_ Hm]. congruence.
  - rewrite (collectSystemFees_unfold q), Qe. reflexivity.
Qed.


Lemma filter_all {A} (f : A -> bool) l :
  (forall x, In x l -> f x = true) -> List.filter f l = l.
Proof.
  intros H. induction l as [|x l IH]; simpl; [reflexivity|].
  rewrite (H x) by now left. f_equal. apply IH. intros y Hy. apply H. now right.
Qed.

(** ** Validation of stuck transactions *)

(** One iteration of the [forEach] of [validateTransactions]. *)
Definition validateStep (now : Z) (q : WalletProcessor) (r : ref) : WalletProcessor :=
  match heap q !! r with
  | Some t =>
      if TxStatus_eqb (status t) SPending && (300000 <? now - timestamp t)
      then handleStuckTransaction now r q else q
  | None => q
  end.

Lemma validateTransactions_unfold now p :
  validateTransactions now p =
  fold_left (validateStep now) (JS.map_values (transactions (state p))) p.
Proof. reflexivity. Qed.

Definition timedOut (now : Z) (t : Transaction) : Transaction :=
  setCompletedAt now (setError "Transaction timeout" (setStatus SFailed t)).

Lemma heap_storeTransaction r p : heap (storeTransaction r p) = heap p.
Proof. unfold storeTransaction. now destruct (heap p !! r). Qed.

Lemma heap_failTransaction now x reason p r :
  heap (failTransaction now x reason p) !! r =
  if decide (x = r)
  then setCompletedAt now <$> (setError reason <$> (setStatus SFailed <$> heap p !! r))
  else heap p !! r.
Proof.
  unfold failTransaction. rewrite heap_storeTransaction. unfold mutate; simpl.
  rewrite lookup_alter. destruct (decide (x = r)) as [->|]; [|reflexivity].
  now destruct (heap p !! r).
Qed.

Lemma heap_retryTransaction now x p r :
  x <> r -> heap (retryTransaction now x p) !! r = heap p !! r.
Proof.
  intros Hne. unfold retryTransaction. set (p1 := mutate x _ p).
  assert (H1 : heap p1 !! r = heap p !! r)
    by (unfold p1, mutate; simpl; now rewrite lookup_alter_ne).
  destruct (heap p1 !! x) as [t|]; [|exact H1].
  destruct (3 <? _).
  - rewrite heap_failTransaction. destruct (decide (x = r)); [contradiction | exact H1].
  - destruct (type t); exact H1.
Qed.

Lemma validateStep_other now q x r :
  x <> r -> heap (validateStep now q x) !! r = heap q !! r.
Proof.
  intros Hne. unfold validateStep. destruct (heap q !! x) as [t|] eqn:E; [|reflexivity].
  destruct (_ && _); [|reflexivity].
  unfold handleStuckTransaction. rewrite E.
  destruct (type t); try (now apply heap_retryTransaction);
    rewrite heap_failTransaction; destruct (decide (x = r)); try contradiction; reflexivity.
Qed.

Lemma validateStep_frame now q x :
  playerBalances (state (validateStep now q x)) = playerBalances (state q)
  /\ developerBalance (state (validateStep now q x)) = developerBalance (state q)
  /\ totalVolume (state (validateStep now q x)) = totalVolume (state q)
  /\ totalFees (state (validateStep now q x)) = totalFees (state q)
  /\ timers (validateStep now q x) = timers q.
Proof.
  assert (F : forall reason p,
            playerBalances (state (failTransaction now x reason p)) = playerBalances (state p)
            /\ developerBalance (state (failTransaction now x reason p)) =
               developerBalance (state p)
            /\ totalVolume (state (failTransaction now x reason p)) = totalVolume (state p)
            /\ totalFees (state (failTransaction now x reason p)) = totalFees (state p)
            /\ timers (failTransaction now x reason p) = timers p).
  { intros reason p. unfold failTransaction, storeTransaction.
    destruct (heap (mutate x _ p) !! x); now repeat split. }
  unfold validateStep. destruct (heap q !! x) as [t|] eqn:E; [|now repeat split].
  destruct (_ && _); [|now repeat split].
  unfold handleStuckTransaction. rewrite E.
  destruct (type t); try apply F.
  unfold retryTransaction. set (p1 := mutate x _ q).
  destruct (heap p1 !! x) as [t1|]; [|now repeat split].
  destruct (3 <? _); [apply (F _ p1)|].
  destruct (type t1); now repeat split.
Qed.

Lemma validate_fold_frame now l : forall q,
  let q' := fold_left (validateStep now) l q in
  playerBalances (state q') = playerBalances (state q)
  /\ developerBalance (state q') = developerBalance (state q)
  /\ totalVolume (state q') = totalVolume (state q)
  /\ totalFees (state q') = totalFees (state q)
  /\ timers q' = timers q.
Proof.
  induction l as [|x l IH]; intros q; simpl; [now repeat split|].
  destruct (IH (validateStep now q x)) as (A1 & A2 & A3 & A4 & A5).
  destruct (validateStep_frame now q x) as (B1 & B2 & B3 & B4 & B5).
  repeat split; congruence.
Qed.

Lemma validate_fold_stuck now r t l :
  status t = SPending -> type t <> TDeposit -> 300000 < now - timestamp t ->
  forall q,
  (heap q !! r = Some (timedOut now t) ->
   heap (fold_left (validateStep now) l q) !! r = Some (timedOut now t))
  /\ (heap q !! r = Some t -> In r l ->
      heap (fold_left (validateStep now) l q) !! r = Some (timedOut now t)).
Proof.
  intros Hs Hty Hold.
  induction l as [|x l IH]; intros q; simpl; [split; [auto | intros _ []]|].
  destruct (IH (validateStep now q x)) as [IH1 IH2].
  assert (Hdone : heap q !! r = Some (timedOut now t) ->
                  heap (validateStep now q x) !! r = Some (timedOut now t)).
  { intros H. destruct (decide (x = r)) as [->|Hne].
    - unfold validateStep. rewrite H. simpl. exact H.
    - now rewrite validateStep_other. }
  split; [auto|].
  intros H Hin. destruct (decide (x = r)) as [->|Hne].
  - apply IH1. unfold validateStep. rewrite H, Hs.
    apply Z.ltb_lt in Hold. rewrite Hold. simpl.
    unfold handleStuckTransaction. rewrite H.
    assert (E : heap (failTransaction now r "Transaction timeout" q) !! r =
                Some (timedOut now t)).
    { rewrite heap_failTransaction. destruct (decide (r = r)); [|contradiction].
      now rewrite H. }
    destruct (type t); [contradiction | exact E | exact E].
  - destruct Hin as [->|Hin]; [contradiction|].
    apply IH2; [|exact Hin]. now rewrite validateStep_other.
Qed.

(** X10. The validation tick moves no money: balances, developer
    balance, volume and fee counters stay as they are.  A transaction of
    the map that is not a deposit and has been pending for more than five
    minutes, such as a server fee that was never collected, is failed with
    the reason Transaction timeout, and fee collection will not take it. *)
Theorem stuck_transaction_is_failed (now : Z) (p : WalletProcessor) (r : ref)
    (t : Transaction) :
  In r (JS.map_values (transactions (state p))) ->
  heap p !! r = Some t ->
  status t = SPending -> type t <> TDeposit -> 300000 < now - timestamp t ->
  let q := validateTransactions now p in
  heap q !! r = Some (timedOut now t)
  /\ isPendingFee q r = false
  /\ playerBalances (state q) = playerBalances (state p)
  /\ developerBalance (state q) = developerBalance (state p)
  /\ totalVolume (state q) = totalVolume (state p)
  /\ totalFees (state q) = totalFees (state p).
Proof.
  intros Hin H Hs Hty Hold q. subst q. rewrite validateTransactions_unfold.
  destruct (validate_fold_stuck now r t (JS.map_values (transactions (state p)))
              Hs Hty Hold p) as [_ E].
  specialize (E H Hin).
  destruct (validate_fold_frame now (JS.map_values (transactions (state p))) p)
    as (A1 & A2 & A3 & A4 & _).
  split; [exact E|]. split; [|now repeat split].
  unfold isPendingFee. rewrite E. simpl. apply andb_false_r.
Qed.

(** A server fee added at time 1000 and never collected. *)
Definition feeWaiting : WalletProcessor :=
  run [AddServerFee 1000 "m1" 4] create.

Lemma stuck_transaction_is_failed_witness :
  heap feeWaiting !! 0%nat =
    Some (mkTx "fee_m1_1000" "dev_wallet_main" TServerFee 4 SPending 1000
               None (Some "m1") None None None)
  /\ status <$> heap (validateTransactions 400000 feeWaiting) !! 0%nat = Some SFailed
  /\ developerBalance (state (collectSystemFees (validateTransactions 400000 feeWaiting)))
     = 10000.
Proof.
  split; [reflexivity|].
  destruct (stuck_transaction_is_failed 400000 feeWaiting 0%nat
              (mkTx "fee_m1_1000" "dev_wallet_main" TServerFee 4 SPending 1000
                    None (Some "m1") None None None))
    as (E & _); [now left | reflexivity | reflexivity | discriminate | reflexivity |].
  split; [exact (f_equal (fmap status) E) | reflexivity].
Defined.

(** ** Cleanup of the transaction map *)

Definition expired (now : Z) (p : WalletProcessor) (r : ref) : bool :=
  match heap p !! r with
  | Some t => TxStatus_eqb (status t) SCompleted
              && (timestamp t <? now - 30 * 24 * 60 * 60 * 1000)
  | None => false
  end.

(** Some entry of [l] is expired and has the key of [e]. *)
Definition hit (now : Z) (p : WalletProcessor) (l : list (string * ref))
    (e : string * ref) : bool :=
  existsb (fun e' => expired now p (snd e') && String.eqb (fst e) (fst e')) l.

Lemma cleanup_fold now p l : forall q,
  heap q = heap p ->
  let q' := fold_left
              (fun q e =>
                 match heap q !! (snd e) with
                 | Some t =>
                     if TxStatus_eqb (status t) SCompleted
                        && (timestamp t <? now - 30 * 24 * 60 * 60 * 1000)
                     then withState (fun s => setTransactions
                                       (JS.map_delete (fst e) (transactions s)) s) q
                     else q
                 | None => q
                 end) l q in
  heap q' = heap p
  /\ transactions (state q') =
     List.filter (fun e => negb (hit now p l e)) (transactions (state q))
  /\ playerBalances (state q') = playerBalances (state q)
  /\ developerBalance (state q') = developerBalance (state q)
  /\ pendingDeposits (state q') = pendingDeposits (state q)
  /\ pendingWithdrawals (state q') = pendingWithdrawals (state q).
Proof.
  induction l as [|x l IH]; intros q Hh; simpl.
  - split; [exact Hh|]. split; [|now repeat split].
    symmetry. apply filter_all. reflexivity.
  - match goal with |- context [fold_left ?f l ?y] => set (q1 := y) end.
    assert (H1 : heap q1 = heap p
                 /\ transactions (state q1) =
                    List.filter (fun e => negb (expired now p (snd x)
                                                && String.eqb (fst e) (fst x)))
                      (transactions (state q))
                 /\ playerBalances (state q1) = playerBalances (state q)
                 /\ developerBalance (state q1) = developerBalance (state q)
                 /\ pendingDeposits (state q1) = pendingDeposits (state q)
                 /\ pendingWithdrawals (state q1) = pendingWithdrawals (state q)).
    { unfold q1, expired. rewrite Hh.
      destruct (heap p !! x.2) as [t|]; simpl.
      - destruct (_ && _); simpl.
        + split; [exact Hh|]. split; [reflexivity | now repeat split].
        + split; [exact Hh|]. split; [|now repeat split].
          symmetry. apply filter_all. reflexivity.
      - split; [exact Hh|]. split; [|now repeat split].
        symmetry. apply filter_all. reflexivity. }
    destruct H1 as (A1 & A2 & A3 & A4 & A5 & A6).
    destruct (IH q1 A1) as (B1 & B2 & B3 & B4 & B5 & B6).
    split; [exact B1|]. split; [|repeat split; congruence].
    rewrite B2, A2. clear. induction (transactions (state q)) as [|e m IHm]; simpl;
      [reflexivity|].
    destruct (expired now p x.2 && String.eqb e.1 x.1); simpl; [exact IHm|].
    destruct (hit now p l e); simpl; [exact IHm | now rewrite IHm].
Qed.

Lemma hit_self now p (l : list (string * ref)) :
  List.NoDup (List.map fst l) ->
  forall e, In e l -> hit now p l e = expired now p (snd e).
Proof.
  intros Hnd e Hin. unfold hit.
  destruct (expired now p e.2) eqn:E.
  - apply existsb_exists. exists e. split; [exact Hin|].
    now rewrite E, String.eqb_refl.
  - destruct (existsb _ l) eqn:X; [|reflexivity].
    apply existsb_exists in X as (e' & Hin' & He').
    apply andb_prop in He' as [He1 He2]. apply String.eqb_eq in He2.
    destruct e as [k v], e' as [k' v']. simpl in *. subst k'.
    rewrite (GameFacts.keys_functional k v v' l Hnd Hin Hin') in E. congruence.
Qed.

(** X11. The cleanup tick removes from the transaction map exactly the
    entries whose transaction is completed and older than 30 days, and
    keeps the others in their order: failed, pending and reviewed
    transactions are never removed, whatever their age.  It changes no
    transaction object, no balance and no queue. *)
Theorem cleanup_removes_old_completed_only (now : Z) (p : WalletProcessor) :
  List.NoDup (List.map fst (transactions (state p))) ->
  let q := cleanupWalletData now p in
  transactions (state q) =
    List.filter (fun e => negb (expired now p (snd e))) (transactions (state p))
  /\ heap q = heap p
  /\ playerBalances (state q) = playerBalances (state p)
  /\ developerBalance (state q) = developerBalance (state p)
  /\ pendingDeposits (state q) = pendingDeposits (state p)
  /\ pendingWithdrawals (state q) = pendingWithdrawals (state p).
Proof.
  intros Hnd q. subst q. unfold cleanupWalletData.
  destruct (cleanup_fold now p (transactions (state p)) p eq_refl)
    as (A1 & A2 & A3 & A4 & A5 & A6).
  split; [|now repeat split].
  rewrite A2. apply List.filter_ext_in. intros e Hin.
  now rewrite (hit_self now p _ Hnd e Hin).
Qed.

(** Two deposits of 1000 and 5: one completed, one failed. *)
Definition twoDeposits : WalletProcessor :=
  run [ProcessDeposit "dep_1" 1000 "alice" 1000 "upi";
       ProcessDeposit "dep_2" 1000 "bob" 5 "upi";
       Fire 1%nat 3000 (always true)] create.

Lemma cleanup_removes_old_completed_only_witness :
  transactions (state twoDeposits) = [("dep_1", 0%nat); ("dep_2", 1%nat)]
  /\ transactions (state (cleanupWalletData 3000000000 twoDeposits)) = [("dep_2", 1%nat)].
Proof.
  split; [reflexivity|].
  destruct (cleanup_removes_old_completed_only 3000000000 twoDeposits) as (E & _).
  - repeat constructor; simpl; intuition discriminate.
  - rewrite E. reflexivity.
Defined.

End WalletMore.

(** * The tickers of WalletProcessor *)

Module WalletTickers.
Import Wallet WalletFacts WalletTimers.

Definition isTickb (e : handle * Task) : bool :=
  match snd e with Tick _ => true | _ => false end.

(** The armed tickers, in the order of the timer table. *)
Definition tickers (p : WalletProcessor) : list (handle * Task) :=
  List.filter isTickb (timers p).

(** What [startAutomatedWalletProcessing] arms and records when the next
    free handle is [n]. *)
Definition sixTickers (n : handle) : list (handle * Task) :=
  [(n, Tick Deposits); (S n, Tick Withdrawals); (S (S n), Tick Balance);
   (S (S (S n)), Tick Validation); (S (S (S (S n))), Tick Fees);
   (S (S (S (S (S n)))), Tick Cleanup)].

Definition sixIntervals (n : handle) : list (string * handle) :=
  [("deposits", n); ("withdrawals", S n); ("balance", S (S n));
   ("validation", S (S (S n))); ("fees", S (S (S (S n))));
   ("cleanup", S (S (S (S (S n)))))].

Definition tickersOk (p : WalletProcessor) : Prop :=
  if isRunning p
  then exists n, tickers p = sixTickers n /\ intervals p = sixIntervals n
  else tickers p = [] /\ intervals p = [].

(** [q] has the tickers, the recorded handles and the running flag of [p]. *)
Definition quiet (p q : WalletProcessor) : Prop :=
  intervals q = intervals p /\ isRunning q = isRunning p /\ tickers q = tickers p.

Lemma quiet_refl p : quiet p p.
Proof. now repeat split. Qed.

Lemma quiet_trans p q r : quiet p q -> quiet q r -> quiet p r.
Proof. intros (? & ? & ?) (? & ? & ?). repeat split; congruence. Qed.

Lemma quiet_same p q :
  intervals q = intervals p -> isRunning q = isRunning p -> timers q = timers p ->
  quiet p q.
Proof. intros Hi Hr Ht. unfold quiet, tickers. now rewrite Hi, Hr, Ht. Qed.

Lemma quiet_fold {X} (f : WalletProcessor -> X -> WalletProcessor) l :
  (forall q x, quiet q (f q x)) -> forall p, quiet p (fold_left f l p).
Proof.
  intros Hf. induction l as [|x l IH]; intros p; simpl; [apply quiet_refl|].
  eapply quiet_trans; [apply Hf | apply IH].
Qed.

Lemma quiet_setTimer task p :
  isTickb (nextHandle p, task) = false -> quiet p (snd (setTimer task p)).
Proof.
  intros H. unfold quiet, tickers; simpl. repeat split.
  rewrite List.filter_app. simpl. rewrite H. apply app_nil_r.
Qed.

Lemma quiet_tickersOk p q : quiet p q -> tickersOk p -> tickersOk q.
Proof. intros (Hi & Hr & Ht). unfold tickersOk. now rewrite Hi, Hr, Ht. Qed.

Lemma quiet_storeTransaction r p : quiet p (storeTransaction r p).
Proof.
  unfold storeTransaction. destruct (heap p !! r); [now apply quiet_same | apply quiet_refl].
Qed.

Lemma quiet_failTransaction now r reason p : quiet p (failTransaction now r reason p).
Proof.
  unfold failTransaction.
  eapply quiet_trans; [|apply quiet_storeTransaction]. now apply quiet_same.
Qed.

Lemma quiet_retryTransaction now r p : quiet p (retryTransaction now r p).
Proof.
  unfold retryTransaction. set (p1 := mutate r _ p).
  assert (H1 : quiet p p1) by now apply quiet_same.
  destruct (heap p1 !! r) as [t|]; [|exact H1].
  destruct (3 <? _).
  - eapply quiet_trans; [exact H1 | apply quiet_failTransaction].
  - destruct (type t); try exact H1;
      (eapply quiet_trans; [exact H1 | now apply quiet_same]).
Qed.

Lemma quiet_approveDeposit now r p : quiet p (approveDeposit now r p).
Proof.
  unfold approveDeposit. destruct (heap p !! r) as [t|]; [|apply quiet_refl].
  eapply quiet_trans; [|now apply quiet_same].
  eapply quiet_trans; [|apply quiet_storeTransaction]. now apply quiet_same.
Qed.

Lemma quiet_approveWithdrawal now r p : quiet p (approveWithdrawal now r p).
Proof.
  unfold approveWithdrawal, simulateBankTransfer.
  destruct (heap p !! r) as [t|]; [|apply quiet_refl].
  eapply quiet_trans; [|now apply quiet_setTimer].
  eapply quiet_trans; [|now apply quiet_same].
  eapply quiet_trans; [|apply quiet_storeTransaction]. now apply quiet_same.
Qed.

Lemma quiet_queueForManualReview r p : quiet p (queueForManualReview r p).
Proof.
  unfold queueForManualReview.
  eapply quiet_trans; [|now apply quiet_setTimer].
  eapply quiet_trans; [|apply quiet_storeTransaction]. now apply quiet_same.
Qed.

Lemma quiet_processDepositTransaction now ok r p :
  quiet p (processDepositTransaction now ok r p).
Proof.
  unfold processDepositTransaction. destruct (heap p !! r) as [t|]; [|apply quiet_refl].
  destruct (_ || _); [apply quiet_failTransaction|].
  destruct ok; [apply quiet_approveDeposit | apply quiet_failTransaction].
Qed.

Lemma quiet_processDeposits now gw batch : forall i p,
  quiet p (processDeposits now gw i batch p).
Proof.
  induction batch as [|r rest IH]; intros i p; simpl; [apply quiet_refl|].
  eapply quiet_trans; [apply quiet_processDepositTransaction | apply IH].
Qed.

Lemma quiet_processWithdrawalTransaction now r p :
  quiet p (processWithdrawalTransaction now r p).
Proof.
  unfold processWithdrawalTransaction.
  destruct (heap p !! r) as [t|]; [|apply quiet_refl].
  destruct (_ || _); [apply quiet_failTransaction|].
  destruct (_ <? _); [apply quiet_failTransaction|].
  destruct (_ <=? _); [apply quiet_approveWithdrawal | apply quiet_queueForManualReview].
Qed.

Lemma quiet_tick tk now gw p :
  quiet p (match tk with
           | Deposits => processAutomaticDeposits now gw p
           | Withdrawals => processAutomaticWithdrawals now p
           | Balance => synchronizeBalances p
           | Validation => validateTransactions now p
           | Fees => collectSystemFees p
           | Cleanup => cleanupWalletData now p
           end).
Proof.
  destruct tk.
  - unfold processAutomaticDeposits. destruct (pendingDeposits (state p)) eqn:E;
      [apply quiet_refl|].
    eapply quiet_trans; [|apply quiet_processDeposits]. now apply quiet_same.
  - unfold processAutomaticWithdrawals. destruct (pendingWithdrawals (state p)) eqn:E;
      [apply quiet_refl|].
    eapply quiet_trans;
      [|apply quiet_fold; intros; apply quiet_processWithdrawalTransaction].
    now apply quiet_same.
  - apply quiet_refl.
  - unfold validateTransactions. apply quiet_fold. intros q r.
    destruct (heap q !! r) as [t|]; [|apply quiet_refl].
    destruct (_ && _); [|apply quiet_refl].
    unfold handleStuckTransaction. destruct (heap q !! r) as [t'|]; [|apply quiet_refl].
    destruct (type t'); auto using quiet_retryTransaction, quiet_failTransaction.
  - unfold collectSystemFees.
    match goal with |- context [fold_left ?f ?l (0, p)] =>
      assert (Hf : forall l' acc, quiet p (snd acc) -> quiet p (snd (fold_left f l' acc)));
      [|specialize (Hf l (0, p) (quiet_refl p))]
    end.
    { induction l' as [|r l' IH]; intros [sum q] Hq; simpl in *; [assumption|].
      apply IH. destruct (heap q !! r) as [t|]; simpl; [|assumption].
      eapply quiet_trans; [exact Hq | now apply quiet_same]. }
    destruct (fold_left _ _ (0, p)) as [sum p1]. simpl in Hf.
    destruct (0 <? sum); [|exact Hf].
    eapply quiet_trans; [exact Hf | now apply quiet_same].
  - unfold cleanupWalletData. apply quiet_fold. intros q e.
    destruct (heap q !! e.2) as [t|]; [|apply quiet_refl].
    destruct (_ && _); [now apply quiet_same | apply quiet_refl].
Qed.

Lemma quiet_addServerFee now mid amt p : quiet p (addServerFee now mid amt p).
Proof.
  unfold addServerFee.
  eapply quiet_trans;
    [|apply (quiet_storeTransaction (nextRef p)
               (snd (alloc (mkTx ("fee_" +:+ mid +:+ "_" +:+ pretty now)
                        (developerWalletId config) TServerFee amt SPending now
                        None (Some mid) None None None) p)))].
  now apply quiet_same.
Qed.

(** Clearing the handle of a timeout leaves the tickers. *)
Lemma filter_id {A} (f : A -> bool) l :
  (forall x, In x l -> f x = true) -> List.filter f l = l.
Proof.
  intros H. induction l as [|x l IH]; simpl; [reflexivity|].
  rewrite (H x) by now left. f_equal. apply IH. intros y Hy. apply H. now right.
Qed.

Lemma filter_comm {A} (f g : A -> bool) l :
  List.filter f (List.filter g l) = List.filter g (List.filter f l).
Proof.
  induction l as [|x l IH]; simpl; [reflexivity|].
  destruct (f x) eqn:Ef, (g x) eqn:Eg; simpl; rewrite ?Ef, ?Eg, IH; reflexivity.
Qed.

Lemma tickers_clearInterval h p :
  tickers (clearInterval h p) =
  List.filter (fun e => negb (Nat.eqb (fst e) h)) (tickers p).
Proof. unfold tickers, clearInterval; simpl. apply filter_comm. Qed.

Lemma quiet_clearTimeout h task p :
  handlesOk p -> timerTask h p = Some task -> isTickb (h, task) = false ->
  quiet p (clearInterval h p).
Proof.
  intros [Hnd _] Ht Hn. split; [reflexivity|]. split; [reflexivity|].
  rewrite tickers_clearInterval. apply filter_id. intros [h' task'] Hin. simpl.
  apply List.filter_In in Hin as [Hin Htk].
  destruct (Nat.eqb_spec h' h) as [->|]; [|reflexivity].
  assert (E : timerTask h p = Some task') by
    (unfold timerTask; now rewrite (find_handle h task' _ Hnd Hin)).
  rewrite Ht in E. injection E as <-. unfold isTickb in *. simpl in *. congruence.
Qed.

Lemma tickersOk_start p : tickersOk p -> tickersOk (startAutomatedWalletProcessing p).
Proof.
  unfold startAutomatedWalletProcessing, tickersOk.
  destruct (isRunning p) eqn:R; [now rewrite R|].
  intros [Ht Hi]. simpl. exists (nextHandle p). unfold tickers in *. simpl.
  rewrite Hi. split; [|reflexivity].
  repeat rewrite <- List.app_assoc. rewrite List.filter_app, Ht. reflexivity.
Qed.

Lemma cleared_all hs : forall q h task,
  In (h, task) (timers (fold_left (fun q h => clearInterval h q) hs q)) ->
  In (h, task) (timers q) /\ ~ In h hs.
Proof.
  induction hs as [|h0 hs IH]; intros q h task Hin; simpl in *; [tauto|].
  apply IH in Hin as [Hin Hn]. unfold clearInterval in Hin. simpl in Hin.
  apply List.filter_In in Hin as [Hin Hne]. simpl in Hne.
  split; [exact Hin|]. intros [->|H]; [|contradiction].
  now rewrite Nat.eqb_refl in Hne.
Qed.

Lemma stop_running p : isRunning (stop p) = false.
Proof.
  unfold stop.
  assert (G : forall hs q,
            isRunning (fold_left (fun q h => clearInterval h q) hs q) = isRunning q).
  { induction hs as [|h0 hs IH]; intros q; simpl; [reflexivity|]. now rewrite IH. }
  apply (G _ (withRunning false p)).
Qed.

Lemma tickersOk_stop p : tickersOk p -> tickersOk (stop p).
Proof.
  intros H. unfold tickersOk at 1. rewrite stop_running. split; [|reflexivity].
  unfold tickers, stop. simpl.
  destruct (List.filter isTickb _) as [|[h task] l] eqn:E; [reflexivity|].
  exfalso.
  assert (Hin : In (h, task) (List.filter isTickb
                 (timers (fold_left (fun q h => clearInterval h q)
                            (JS.map_values (intervals p)) (withRunning false p)))))
    by (rewrite E; now left).
  apply List.filter_In in Hin as [Hin Htk].
  apply cleared_all in Hin as [Hin Hn]. simpl in Hin.
  assert (Ht : In (h, task) (tickers p)) by (apply List.filter_In; now split).
  unfold tickersOk in H. destruct (isRunning p).
  - destruct H as (n & Hs & Hi). rewrite Hs in Ht. rewrite Hi in Hn.
    apply Hn. unfold sixTickers in Ht. simpl in Ht. simpl.
    repeat (destruct Ht as [Ht|Ht]; [injection Ht as <- _; tauto|]). destruct Ht.
  - destruct H as [Hs _]. rewrite Hs in Ht. destruct Ht.
Qed.

Lemma tickersOk_fire h now gw p :
  handlesOk p -> tickersOk p -> tickersOk (fire h now gw p).
Proof.
  intros Hh H. unfold fire.
  destruct (timerTask h p) as [[tk|w|w|]|] eqn:Et; [| | | |exact H].
  - apply (quiet_tickersOk p); [|exact H]. apply (quiet_tick tk now gw p).
  - apply (quiet_tickersOk p); [|exact H].
    pose proof (quiet_clearTimeout h _ p Hh Et eq_refl) as G1.
    destruct (heap (clearInterval h p) !! w) as [t|]; [|exact G1].
    destruct (TxStatus_eqb _ _); [|exact G1].
    eapply quiet_trans; [exact G1 | apply quiet_approveWithdrawal].
  - apply (quiet_tickersOk p); [|exact H]. now apply (quiet_clearTimeout h _ p Hh Et).
  - apply tickersOk_start. apply (quiet_tickersOk p); [|exact H].
    now apply (quiet_clearTimeout h _ p Hh Et).
Qed.

Lemma tickersOk_exec a p : handlesOk p -> tickersOk p -> tickersOk (exec a p).
Proof.
  intros Hh H. destruct a; cbn [exec].
  - apply (quiet_tickersOk p); [now apply quiet_same | exact H].
  - apply (quiet_tickersOk p); [now apply quiet_same | exact H].
  - apply (quiet_tickersOk p); [apply quiet_addServerFee | exact H].
  - now apply tickersOk_stop.
  - unfold restart. apply (quiet_tickersOk (stop p)); [now apply quiet_setTimer|].
    now apply tickersOk_stop.
  - now apply tickersOk_fire.
Qed.

Lemma reachable_tickersOk p : reachable p -> tickersOk p.
Proof.
  induction 1 as [|a p Hp IH].
  - apply tickersOk_start. now split.
  - apply tickersOk_exec; [|exact IH]. now destruct (reachable_timersOk p Hp).
Qed.

(** Two restarts in a row; then both timeouts fire. *)
Definition restartedTwice : WalletProcessor :=
  run [Restart; Restart; Fire 7%nat 1000 (always true);
       Fire 8%nat 1000 (always true)] create.

(** X12. In every reachable state the tickers are registered once: while
    the processor is running exactly six tickers are armed, one of each
    kind with consecutive handles, and intervals records each under its
    name; while it is stopped no ticker is armed and intervals is empty.
    So restart, however often it is called and whenever its timeout fires,
    never arms a ticker twice, and stop leaves none running. *)
Theorem tickers_registered_once (p : WalletProcessor) :
  reachable p ->
  if isRunning p
  then exists n, tickers p = sixTickers n /\ intervals p = sixIntervals n
  else tickers p = [] /\ intervals p = [].
Proof. apply reachable_tickersOk. Qed.

Lemma tickers_registered_once_witness :
  reachable restartedTwice
  /\ isRunning restartedTwice = true
  /\ length (timers restartedTwice) = 6%nat
  /\ exists n, tickers restartedTwice = sixTickers n
               /\ intervals restartedTwice = sixIntervals n.
Proof.
  split; [apply wallet_reachable_run|]. split; [reflexivity|]. split; [reflexivity|].
  exact (tickers_registered_once restartedTwice (wallet_reachable_run _)).
Defined.

End WalletTickers.

(** * More about the sort *)

Module SortMore.
Import JS JSFacts.

Section Sorting.
Context {A : Type}.
Variable key : A -> Z.

Lemma sorted_filter (f : A -> bool) l :
  StronglySorted (desc key) l -> StronglySorted (desc key) (List.filter f l).
Proof.
  induction 1 as [|x l Hl IH Hx]; simpl; [constructor|].
  destruct (f x); [|exact IH]. constructor; [exact IH|].
  rewrite List.Forall_forall in *. intros y Hy.
  apply List.filter_In in Hy as [Hy _]. now apply Hx.
Qed.

Lemma filter_swap (f g : A -> bool) l :
  List.filter f (List.filter g l) = List.filter g (List.filter f l).
Proof.
  induction l as [|x l IH]; simpl; [reflexivity|].
  destruct (f x) eqn:Ef, (g x) eqn:Eg; simpl; rewrite ?Ef, ?Eg, IH; reflexivity.
Qed.

(** Filtering commutes with the stable sort. *)
Lemma sort_filter (f : A -> bool) l :
  sort (descending key) (List.filter f l) = List.filter f (sort (descending key) l).
Proof.
  symmetry. apply sort_unique.
  - apply sorted_filter, sort_sorted.
  - intros k. pose proof (sort_stable key k l) as G.
    unfold withKey in *. rewrite filter_swap, G. apply filter_swap.
Qed.

Lemma sorted_app l1 l2 :
  StronglySorted (desc key) l1 -> StronglySorted (desc key) l2 ->
  (forall a b, In a l1 -> In b l2 -> key b <= key a) ->
  StronglySorted (desc key) (l1 ++ l2).
Proof.
  induction 1 as [|x l Hl IH Hx]; intros H2 H; simpl; [exact H2|].
  constructor.
  - apply IH; [exact H2|]. intros a b Ha Hb. apply H; [now right | exact Hb].
  - rewrite List.Forall_forall in *. intros y Hy. apply in_app_or in Hy as [Hy|Hy].
    + now apply Hx.
    + apply H; [now left | exact Hy].
Qed.

Lemma withKey_filter_ge k p l :
  withKey key k (List.filter (fun x => p <=? key x) l) =
  if p <=? k then withKey key k l else [].
Proof.
  unfold withKey. induction l as [|x l IH]; simpl; [now destruct (p <=? k)|].
  destruct (p <=? key x) eqn:E1; simpl; destruct (key x =? k) eqn:E2; rewrite IH;
    try reflexivity.
  - apply Z.eqb_eq in E2. subst k. now rewrite E1.
  - apply Z.eqb_eq in E2. subst k. now rewrite E1.
Qed.

Lemma withKey_filter_lt k p l :
  withKey key k (List.filter (fun x => key x <? p) l) =
  if k <? p then withKey key k l else [].
Proof.
  unfold withKey. induction l as [|x l IH]; simpl; [now destruct (k <? p)|].
  destruct (key x <? p) eqn:E1; simpl; destruct (key x =? k) eqn:E2; rewrite IH;
    try reflexivity.
  - apply Z.eqb_eq in E2. subst k. now rewrite E1.
  - apply Z.eqb_eq in E2. subst k. now rewrite E1.
Qed.

(** Sorting a list with one more element at its end: the element goes
    behind those of its key or a higher one, before the lower ones. *)
Lemma sort_snoc x l :
  sort (descending key) (l ++ [x]) =
  List.filter (fun y => key x <=? key y) (sort (descending key) l)
  ++ x :: List.filter (fun y => key y <? key x) (sort (descending key) l).
Proof.
  symmetry. apply sort_unique.
  - apply sorted_app.
    + apply sorted_filter, sort_sorted.
    + constructor; [apply sorted_filter, sort_sorted|].
      rewrite List.Forall_forall. intros y Hy. apply List.filter_In in Hy as [_ Hy].
      apply Z.ltb_lt in Hy. unfold desc. lia.
    + intros a b Ha Hb. apply List.filter_In in Ha as [Ha1 Ha2]. apply Z.leb_le in Ha2.
      destruct Hb as [<-|Hb]; [exact Ha2|].
      apply List.filter_In in Hb as [_ Hb]. apply Z.ltb_lt in Hb. lia.
  - intros k. pose proof (withKey_filter_ge k (key x) (sort (descending key) l)) as G1.
    pose proof (withKey_filter_lt k (key x) (sort (descending key) l)) as G2.
    pose proof (sort_stable key k l) as G3.
    unfold withKey in *. rewrite !List.filter_app. simpl.
    rewrite G1, G2, G3.
    destruct (key x =? k) eqn:E.
    + apply Z.eqb_eq in E. subst k. rewrite Z.leb_refl, Z.ltb_irrefl.
      reflexivity.
    + apply Z.eqb_neq in E.
      destruct (key x <=? k) eqn:E1, (k <? key x) eqn:E2;
        rewrite ?app_nil_r; try reflexivity.
      * apply Z.leb_le in E1. apply Z.ltb_lt in E2. lia.
      * apply Z.leb_gt in E1. apply Z.ltb_ge in E2. lia.
Qed.

Lemma insert_ext (cmp cmp' : A -> A -> Z) x l :
  (forall a b, cmp a b = cmp' a b) -> insert cmp x l = insert cmp' x l.
Proof.
  intros H. induction l as [|y l IH]; simpl; [reflexivity|]. now rewrite H, IH.
Qed.

Lemma sort_ext (cmp cmp' : A -> A -> Z) l :
  (forall a b, cmp a b = cmp' a b) -> sort cmp l = sort cmp' l.
Proof.
  intros H. induction l as [|x l IH]; simpl; [reflexivity|].
  rewrite IH. now apply insert_ext.
Qed.

(** The ascending sort is the descending sort of the negated key. *)
Lemma sort_ascending l :
  sort (ascending key) l = sort (descending (fun x => - key x)) l.
Proof. apply sort_ext. intros a b. unfold ascending, descending. lia. Qed.

End Sorting.
End SortMore.

(** * More about EventProcessor *)

Module EventsMore.
Import Events EventsFacts.

Section Registry.
Context {Data Ext : Type}.
Local Abbreviation Rule := (EventRule Data Ext).
Local Abbreviation St := (State Data Ext).
Local Abbreviation Ev := (GameEvent Data).



(** ** The rules that the constructor registers *)

Variable h : Handlers Data Ext.

(** The handler rule of each event type. *)
Definition handlerOf (t : EventType) : Rule :=
  match t with
  | Strike => mkRule "strike" yes (handlePlayerStrike h) 80
  | Score => mkRule "score" yes (handleScoring h) 90
  | Foul => mkRule "foul" yes (handleFoul h) 85
  | TurnChange => mkRule "turn_change" yes (handleTurnChange h) 75
  | MatchStart => mkRule "match_start" yes (handleMatchStart h) 100
  | MatchEnd => mkRule "match_end" yes (handleMatchEnd h) 95
  | Timeout => mkRule "timeout" yes (handleTimeout h) 70
  end.

(** X15. With the rules that the constructor registers, every event runs
    exactly one rule, the handler of its type, in every state of the
    processor.  The win detection rule, registered for score events with
    priority 100, never runs: its condition reads getMatchScores, which
    returns no score. *)
Theorem default_rules_run_one_handler (s : St) (e : Ev) :
  matchingRules (initializeEventRules h) s e = [handlerOf (type e)]
  /\ processEvent (initializeEventRules h) e s =
     processEvent [handlerOf (type e)] e s
  /\ ~ In (mkRule "score" checkWinningCondition (triggerMatchEnd h) 100)
          (eligibleRules (initializeEventRules h) s e).
Proof.
  assert (E : forall rules' : list Rule,
            rules' = initializeEventRules h \/ rules' = [handlerOf (type e)] ->
            matchingRules rules' s e = [handlerOf (type e)]).
  { intros rules' [-> | ->]; unfold matchingRules, eligibleRules, typeMatches;
      destruct (type e); reflexivity. }
  split; [apply E; now left|]. split.
  - unfold processEvent. rewrite (E _ (or_introl eq_refl)), (E _ (or_intror eq_refl)).
    reflexivity.
  - intros Hin. apply eligible_In in Hin as (_ & _ & Hc). discriminate.
Qed.

End Registry.

Section Records.
Context {Data Ext : Type}.
Local Abbreviation Rule := (EventRule Data Ext).
Local Abbreviation St := (State Data Ext).
Local Abbreviation Ev := (GameEvent Data).

Lemma map_set_In {V} k (v : V) l : In (k, v) (JS.map_set k v l).
Proof.
  induction l as [|[k' v'] l IH]; simpl; [now left|].
  destruct (String.eqb k' k); [now left | now right].
Qed.

(** X16. getMatchEvents(matchId) returns exactly the stored events of the
    match, oldest first; events with the same timestamp keep the order in
    which they were first stored. *)
Theorem match_events_oldest_first (match_ : string) (s : St) :
  let stored := List.filter (fun e => String.eqb (matchId e) match_)
                  (JS.map_values (events s)) in
  let listed := getMatchEvents match_ s in
  (forall e, In e listed <-> In e (JS.map_values (events s)) /\ matchId e = match_)
  /\ Permutation stored listed
  /\ StronglySorted (fun a b => timestamp a <= timestamp b) listed
  /\ (forall ts, List.filter (fun e => timestamp e =? ts) listed =
                 List.filter (fun e => timestamp e =? ts) stored).
Proof.
  unfold getMatchEvents. cbv zeta. split; [|split; [|split]].
  - intros e. rewrite JSFacts.sort_In, List.filter_In. now rewrite String.eqb_eq.
  - apply JSFacts.sort_perm.
  - rewrite SortMore.sort_ascending.
    match goal with |- StronglySorted _ (JS.sort _ ?l) =>
      pose proof (JSFacts.sort_sorted (fun x : Ev => - timestamp x) l) as H
    end.
    induction H as [|x l Hl IH Hx]; constructor; [exact IH|].
    rewrite List.Forall_forall in *. intros y Hy. specialize (Hx y Hy).
    unfold JSFacts.desc in Hx. lia.
  - intros ts. rewrite SortMore.sort_ascending.
    match goal with |- context [JS.sort _ ?l] =>
      pose proof (JSFacts.sort_stable (fun x : Ev => - timestamp x) (- ts) l) as H
    end.
    unfold JSFacts.withKey in H.
    assert (F : forall l : list Ev,
              List.filter (fun e => timestamp e =? ts) l =
              List.filter (fun x => - timestamp x =? - ts) l).
    { intros l. apply List.filter_ext. intros x.
      destruct (timestamp x =? ts) eqn:E1, (- timestamp x =? - ts) eqn:E2;
        try reflexivity.
      - apply Z.eqb_eq in E1. apply Z.eqb_neq in E2. lia.
      - apply Z.eqb_neq in E1. apply Z.eqb_eq in E2. lia. }
    rewrite !F. exact H.
Qed.


End Records.


Section Queue.
Context {Data Ext : Type}.
Local Abbreviation Rule := (EventRule Data Ext).
Local Abbreviation St := (State Data Ext).
Local Abbreviation Ev := (GameEvent Data).

(** The actions of the rules leave the event map and the counter of
    processed events to the processor.  This holds for the handlers of the
    source: the only bookkeeping they do is [createEvent], which appends to
    the queue and counts in [totalEvents]. *)
Definition framed (rules : list Rule) : Prop :=
  forall r e s, In r rules ->
    events (fst (action r e s)) = events s
    /\ processedEvents (stats (fst (action r e s))) = processedEvents (stats s).

(** The event map after the events of [l] have been recorded in turn. *)
Definition recorded (l : list Ev) (m : list (string * Ev)) : list (string * Ev) :=
  fold_left (fun m e => JS.map_set (id e) (setProcessed true e) m) l m.

Lemma runRules_framed (rules l : list Rule) (e : Ev) :
  framed rules -> (forall r, In r l -> In r rules) ->
  forall s, events (runRules l e s) = events s
            /\ processedEvents (stats (runRules l e s)) = processedEvents (stats s).
Proof.
  intros Hf. induction l as [|r l IH]; intros Hl s; [now split|].
  rewrite runRules_cons.
  destruct (IH (fun r' H' => Hl r' (or_intror H')) (runRule e s r)) as [E1 E2].
  rewrite E1, E2. unfold runRule.
  destruct (Hf r e s (Hl r (or_introl eq_refl))) as [F1 F2].
  destruct (action r e s) as [s' threw]. simpl in F1, F2.
  destruct threw; simpl; now split.
Qed.

Lemma processEvent_framed (rules : list Rule) (e : Ev) (s : St) :
  framed rules ->
  events (processEvent rules e s) = JS.map_set (id e) (setProcessed true e) (events s)
  /\ processedEvents (stats (processEvent rules e s)) = processedEvents (stats s) + 1.
Proof.
  intros Hf.
  destruct (runRules_framed rules (matchingRules rules s e) e Hf) with (s := s)
    as [E1 E2].
  { intros r Hr. now apply matching_In in Hr. }
  unfold processEvent. simpl. now rewrite E1, E2.
Qed.

Lemma map_get_set_other {V} k k' (v : V) m :
  k' <> k -> JS.map_get k (JS.map_set k' v m) = JS.map_get k m.
Proof.
  intros Hne. induction m as [|[k0 v0] m IH]; simpl.
  - destruct (String.eqb_spec k' k); [contradiction | reflexivity].
  - destruct (String.eqb_spec k0 k') as [->|H0]; simpl.
    + destruct (String.eqb_spec k' k); [contradiction | reflexivity].
    + destruct (String.eqb_spec k0 k); [reflexivity | exact IH].
Qed.

Lemma recorded_other (l : list Ev) k : forall m,
  (forall y, In y l -> id y <> k) ->
  JS.map_get k (recorded l m) = JS.map_get k m.
Proof.
  induction l as [|x l IH]; intros m Hl; simpl; [reflexivity|].
  rewrite IH by (intros y Hy; apply Hl; now right).
  apply map_get_set_other. apply Hl. now left.
Qed.

Lemma recorded_get (l : list Ev) : forall m e,
  In e l ->
  exists e', In e' l /\ id e' = id e
             /\ JS.map_get (id e) (recorded l m) = Some (setProcessed true e').
Proof.
  induction l as [|x l IH]; intros m e Hin; [destruct Hin|]. simpl.
  destruct (existsb (fun y => String.eqb (id y) (id e)) l) eqn:X.
  - apply existsb_exists in X as (y & Hy & Ey). apply String.eqb_eq in Ey.
    destruct (IH (JS.map_set (id x) (setProcessed true x) m) y Hy) as (e' & H1 & H2 & H3).
    exists e'. split; [now right|]. split; [congruence|]. now rewrite <- Ey.
  - assert (Hx : forall y, In y l -> id y <> id e).
    { intros y Hy Heq.
      assert (T : existsb (fun y => String.eqb (id y) (id e)) l = true)
        by (apply existsb_exists; exists y; split; [exact Hy | now apply String.eqb_eq]).
      congruence. }
    destruct Hin as [->|Hin]; [|now destruct (Hx e Hin)].
    exists e. split; [now left|]. split; [reflexivity|].
    rewrite (recorded_other l (id e) _ Hx). apply WalletFacts.map_set_get.
Qed.


End Queue.



(** ** The winner by score *)

Lemma pickWinner_fold (scores : list (string * Z)) : forall w m,
  let res := fold_left (fun acc entry =>
                          if snd acc <? snd entry then (Some (fst entry), snd entry)
                          else acc) scores (w, m) in
  (res = (w, m) /\ forall e, In e scores -> snd e <= m)
  \/ exists l1 k v l2,
       scores = l1 ++ (k, v) :: l2 /\ res = (Some k, v) /\ m < v
       /\ (forall e, In e l1 -> snd e < v) /\ (forall e, In e l2 -> snd e <= v).
Proof.
  induction scores as [|[k0 v0] rest IH]; intros w m; simpl.
  - left. split; [reflexivity | intros e []].
  - destruct (m <? v0) eqn:L.
    + apply Z.ltb_lt in L.
      destruct (IH (Some k0) v0) as [[E H]|(l1 & k & v & l2 & E & R & Hv & H1 & H2)].
      * right. exists [], k0, v0, rest. split; [reflexivity|]. split; [exact E|].
        split; [exact L|]. split; [intros e [] | exact H].
      * right. exists ((k0, v0) :: l1), k, v, l2. split; [simpl; now rewrite E|].
        split; [exact R|]. split; [lia|]. split; [|exact H2].
        intros e [<-|He]; [exact Hv | now apply H1].
    + apply Z.ltb_ge in L.
      destruct (IH w m) as [[E H]|(l1 & k & v & l2 & E & R & Hv & H1 & H2)].
      * left. split; [exact E|]. intros e [<-|He]; [exact L | now apply H].
      * right. exists ((k0, v0) :: l1), k, v, l2. split; [simpl; now rewrite E|].
        split; [exact R|]. split; [exact Hv|]. split; [|exact H2].
        intros e [<-|He]; [simpl; lia | now apply H1].
Qed.

(** X19. The loop of determineWinner returns the first player, in the
    order of the score object, whose score is the highest, provided that
    score is above -1; when no score is above -1, in particular when there
    is no score, it returns no winner.  getMatchScores returns no score,
    so determineWinner of every match is null. *)
Theorem winner_is_first_with_highest_score (scores : list (string * Z)) (match_ : string) :
  (fst (pickWinner scores) = None <-> forall e, In e scores -> snd e <= -1)
  /\ (forall k, fst (pickWinner scores) = Some k ->
        exists l1 v l2,
          scores = l1 ++ (k, v) :: l2 /\ snd (pickWinner scores) = v /\ -1 < v
          /\ (forall e, In e l1 -> snd e < v) /\ (forall e, In e l2 -> snd e <= v))
  /\ determineWinner match_ = None.
Proof.
  unfold pickWinner.
  destruct (pickWinner_fold scores None (-1))
    as [[E H]|(l1 & k & v & l2 & E & R & Hv & H1 & H2)]; cbv zeta in *.
  - rewrite E. split; [split; [intros _; exact H | reflexivity]|].
    split; [discriminate | reflexivity].
  - rewrite R. split; [|split; [|reflexivity]].
    + split; [discriminate|]. intros H.
      assert (Hk : v <= -1) by (apply (H (k, v)); rewrite E; apply in_elt).
      lia.
    + intros k' [= <-]. exists l1, v, l2. now repeat split.
Qed.

End EventsMore.

(** * Invariants of GameProcessor *)

Module GameSound.
Import Game GameFacts GameKeys.

(** No player is overdrawn. *)
Definition solvent (p : GameProcessor) : Prop :=
  forall r P, pheap p !! r = Some P -> 0 <= walletBalance P.

(** What the log can hold: completed bets of -10, wins of 16 and refunds
    of 10. *)
Definition entryOk (t : Transaction) : Prop :=
  t_status t = SCompleted
  /\ (type t = TBet /\ amount t = - cfg_betAmount config
      \/ type t = TWin /\ amount t = winnerPayout config
      \/ type t = TRefund /\ amount t = cfg_betAmount config).

Definition logOk (p : GameProcessor) : Prop :=
  Forall entryOk (transactions (state p)).

Definition capped (p : GameProcessor) : Prop :=
  (length (matches (state p)) <= 100)%nat.

Definition queueOk (p : GameProcessor) : Prop :=
  List.NoDup (matchQueue (state p)).

(** Every match object has two players and is not waiting. *)
Definition shapeOk (M : Match) : Prop :=
  status M <> Waiting /\ length (players M) = 2%nat.

Definition shaped (p : GameProcessor) : Prop :=
  forall m M, mheap p !! m = Some M -> shapeOk M.

(** [q] comes from [p] by steps that leave the queue, add no match and
    keep players solvent, the log well formed and the matches in shape. *)
Definition steady (p q : GameProcessor) : Prop :=
  matchQueue (state q) = matchQueue (state p)
  /\ (length (matches (state q)) <= length (matches (state p)))%nat
  /\ (solvent p -> solvent q)
  /\ (logOk p -> logOk q)
  /\ (shaped p -> shaped q).

Lemma steady_refl p : steady p p.
Proof. unfold steady. auto 10. Qed.

Lemma steady_trans p q r : steady p q -> steady q r -> steady p r.
Proof.
  intros (Q1 & L1 & S1 & G1 & F1) (Q2 & L2 & S2 & G2 & F2).
  split; [congruence|]. split; [lia|]. split; [auto|]. split; auto.
Qed.

Lemma steady_fold {X} (f : GameProcessor -> X -> GameProcessor) l :
  (forall q x, steady q (f q x)) -> forall p, steady p (fold_left f l p).
Proof.
  intros Hf. induction l as [|x l IH]; intros p; simpl; [apply steady_refl|].
  eapply steady_trans; [apply Hf | apply IH].
Qed.

Lemma steady_frame p q :
  matchQueue (state q) = matchQueue (state p) ->
  (length (matches (state q)) <= length (matches (state p)))%nat ->
  transactions (state q) = transactions (state p) ->
  pheap q = pheap p -> mheap q = mheap p -> steady p q.
Proof.
  intros Hq Hl Ht Hp Hm. unfold steady, solvent, logOk, shaped.
  rewrite Hq, Ht, Hp, Hm. auto.
Qed.

Lemma steady_mutateMatch m f p :
  (forall M, mheap p !! m = Some M -> shapeOk M -> shapeOk (f M)) ->
  steady p (mutateMatch m f p).
Proof.
  intros Hf. split; [reflexivity|]. split; [reflexivity|]. split; [auto|].
  split; [auto|]. intros Hs m' M'. unfold mutateMatch; simpl. rewrite lookup_alter.
  destruct (decide (m = m')) as [<-|]; [|apply Hs].
  destruct (mheap p !! m) as [M|] eqn:E; [|discriminate].
  intros [= <-]. apply Hf; [reflexivity | now apply (Hs m)].
Qed.

Lemma steady_mutatePlayer r f p :
  (forall P, pheap p !! r = Some P -> 0 <= walletBalance P -> 0 <= walletBalance (f P)) ->
  steady p (mutatePlayer r f p).
Proof.
  intros Hf. split; [reflexivity|]. split; [reflexivity|]. split; [|auto].
  intros Hs r' P'. unfold mutatePlayer; simpl. rewrite lookup_alter.
  destruct (decide (r = r')) as [<-|]; [|apply Hs].
  destruct (pheap p !! r) as [P|] eqn:E; [|discriminate].
  intros [= <-]. apply Hf; [reflexivity | now apply (Hs r)].
Qed.

Lemma steady_createTransaction t p : entryOk t -> steady p (createTransaction t p).
Proof.
  intros Ht. split; [reflexivity|]. split; [reflexivity|]. split; [auto|].
  split; [|auto].
  intros Hl. unfold logOk, createTransaction; simpl.
  apply Forall_app. split; [exact Hl | now constructor].
Qed.

Lemma steady_cancelMatch now k p : steady p (cancelMatch now k p).
Proof.
  unfold cancelMatch. destruct (JS.map_get k _); [|apply steady_refl].
  apply steady_mutateMatch. intros M _ [_ Hp]. split; [discriminate | exact Hp].
Qed.

Lemma steady_endMatch k p : steady p (endMatch k p).
Proof.
  unfold endMatch. destruct (JS.map_get k _); [|apply steady_refl].
  apply steady_mutateMatch. intros M _ [_ Hp]. split; [discriminate | exact Hp].
Qed.

Lemma length_map_delete {V} k (l : list (string * V)) :
  (length (JS.map_delete k l) <= length l)%nat.
Proof.
  unfold JS.map_delete. induction l as [|e l IH]; simpl; [lia|].
  destruct (negb _); simpl; lia.
Qed.

Lemma steady_cleanupMatch k p : steady p (cleanupMatch k p).
Proof.
  apply steady_frame.
  - unfold cleanupMatch.
    destruct (JS.map_get _ _) as [t|]; [destruct (Nat.eqb t 0)|]; reflexivity.
  - rewrite matches_cleanupMatch. apply length_map_delete.
  - unfold cleanupMatch.
    destruct (JS.map_get _ _) as [t|]; [destruct (Nat.eqb t 0)|]; reflexivity.
  - unfold cleanupMatch.
    destruct (JS.map_get _ _) as [t|]; [destruct (Nat.eqb t 0)|]; reflexivity.
  - unfold cleanupMatch.
    destruct (JS.map_get _ _) as [t|]; [destruct (Nat.eqb t 0)|]; reflexivity.
Qed.

Lemma steady_setMatchTimer k p : steady p (setMatchTimer k p).
Proof. now apply steady_frame. Qed.

Lemma steady_betOne now k p r : steady p (betOne now k p r).
Proof.
  unfold betOne. destruct (pheap p !! r) as [P|] eqn:E; [|apply steady_refl].
  destruct (cfg_betAmount config <=? walletBalance P) eqn:L; [|apply steady_cancelMatch].
  apply Z.leb_le in L.
  eapply steady_trans; [|apply steady_createTransaction].
  - apply steady_mutatePlayer. intros P' HP' _. rewrite E in HP'. injection HP' as <-.
    simpl in *. lia.
  - split; [reflexivity|]. now left.
Qed.

Lemma steady_processAutomaticBetDeduction now m p :
  steady p (processAutomaticBetDeduction now m p).
Proof.
  unfold processAutomaticBetDeduction.
  destruct (mheap p !! m) as [M|]; [|apply steady_refl].
  apply steady_fold. intros. apply steady_betOne.
Qed.

Lemma steady_processAutomaticPayout now m p :
  steady p (processAutomaticPayout now m p).
Proof.
  unfold processAutomaticPayout, creditDeveloperFee.
  destruct (mheap p !! m) as [M|]; [|apply steady_refl].
  destruct (winner M) as [w|]; [|apply steady_refl].
  eapply steady_trans; [|apply steady_createTransaction].
  - apply steady_mutatePlayer. intros P _ HP. simpl. lia.
  - split; [reflexivity|]. right. now left.
Qed.

Lemma steady_refundOne now k p r : steady p (refundOne now k p r).
Proof.
  unfold refundOne.
  eapply steady_trans; [|apply steady_createTransaction].
  - apply steady_mutatePlayer. intros P _ HP. simpl. lia.
  - split; [reflexivity|]. right. now right.
Qed.

Lemma steady_processAutomaticRefund now m p :
  steady p (processAutomaticRefund now m p).
Proof.
  unfold processAutomaticRefund.
  destruct (mheap p !! m) as [M|]; [|apply steady_refl].
  apply steady_fold. intros. apply steady_refundOne.
Qed.

Lemma steady_processWaitingMatch now k m p :
  steady p (processWaitingMatch now k m p).
Proof.
  unfold processWaitingMatch.
  match goal with |- steady p (match mheap ?p1 !! m with _ => _ end) =>
    assert (H1 : steady p p1); [|set (q := p1) in *]
  end.
  { destruct (mheap p !! m) as [M|] eqn:E; [|apply steady_refl].
    destruct (players M) as [|first [|? ?]] eqn:Ep; try apply steady_refl.
    destruct (findAvailableOpponent p _) as [opponent|]; [|apply steady_refl].
    eapply steady_trans; [|apply steady_setMatchTimer].
    eapply steady_trans; [|apply steady_processAutomaticBetDeduction].
    apply steady_mutateMatch. intros M' HM' [_ Hl].
    rewrite E in HM'. injection HM' as <-. rewrite Ep in Hl. discriminate. }
  destruct (mheap q !! m) as [M|]; [|exact H1].
  destruct (_ && _); [|exact H1].
  eapply steady_trans; [exact H1 | apply steady_cancelMatch].
Qed.

Lemma steady_processActiveMatch now k m p :
  steady p (processActiveMatch now k m p).
Proof.
  unfold processActiveMatch. destruct (mheap p !! m) as [M|]; [|apply steady_refl].
  destruct (negb _); [apply steady_refl|].
  assert (H1 : forall v, steady p (mutateMatch m (setTimeRemaining v) p)).
  { intros v. apply steady_mutateMatch. intros M' _ H. exact H. }
  destruct (_ <=? _); [|apply H1].
  eapply steady_trans; [apply H1 | apply steady_endMatch].
Qed.

Lemma steady_processFinishingMatch now coin k m p :
  steady p (processFinishingMatch now coin k m p).
Proof.
  unfold processFinishingMatch. destruct (mheap p !! m) as [M|]; [|apply steady_refl].
  destruct (determineMatchWinner coin M) as [w|]; [|apply steady_refl].
  eapply steady_trans; [|apply steady_processAutomaticPayout].
  apply steady_mutateMatch. intros M' _ [_ Hp]. split; [discriminate | exact Hp].
Qed.

Lemma steady_processCompletedMatch now k m p :
  steady p (processCompletedMatch now k m p).
Proof.
  unfold processCompletedMatch. destruct (mheap p !! m) as [M|]; [|apply steady_refl].
  destruct (_ && _); [apply steady_cleanupMatch | apply steady_refl].
Qed.

Lemma steady_processCancelledMatch now k m p :
  steady p (processCancelledMatch now k m p).
Proof.
  unfold processCancelledMatch.
  pose proof (steady_processAutomaticRefund now m p) as H1.
  destruct (mheap (processAutomaticRefund now m p) !! m) as [M|]; [|exact H1].
  destruct (_ && _); [|exact H1].
  eapply steady_trans; [exact H1 | apply steady_cleanupMatch].
Qed.

Lemma steady_processMatchState now coin k m p :
  steady p (processMatchState now coin k m p).
Proof.
  unfold processMatchState. destruct (mheap p !! m) as [M|]; [|apply steady_refl].
  destruct (status M);
    auto using steady_processWaitingMatch, steady_processActiveMatch,
      steady_processFinishingMatch, steady_processCompletedMatch,
      steady_processCancelledMatch.
Qed.

Lemma steady_processPlayerState now r p : steady p (processPlayerState now r p).
Proof.
  unfold processPlayerState. destruct (pheap p !! r) as [P|]; [|apply steady_refl].
  destruct (_ && _); [|apply steady_refl].
  apply steady_mutatePlayer. intros P' _ H. exact H.
Qed.

Lemma steady_processMainLoop now coin p : steady p (processMainLoop now coin p).
Proof.
  unfold processMainLoop.
  eapply steady_trans.
  - apply (steady_fold (fun q e => processMatchState now (coin (fst e)) (fst e) (snd e) q)).
    intros. apply steady_processMatchState.
  - apply (steady_fold (fun q (e : string * pref) => processPlayerState now (snd e) q)).
    intros. apply steady_processPlayerState.
Qed.

Lemma steady_processTransactions p : steady p (processTransactions p).
Proof.
  split; [reflexivity|]. split; [reflexivity|]. split; [auto|]. split; [|auto].
  unfold logOk, processTransactions; simpl. intros H.
  induction H as [|t l Ht Hl IH]; simpl; constructor; [|exact IH].
  destruct Ht as [Hs Hk]. now rewrite Hs.
Qed.

Lemma steady_cleanupExpiredSessions now p : steady p (cleanupExpiredSessions now p).
Proof.
  unfold cleanupExpiredSessions. apply steady_fold. intros q e.
  destruct (mheap q !! e.2) as [M|]; [|apply steady_refl].
  destruct (_ && _); [|apply steady_refl].
  apply steady_frame; try reflexivity. simpl. apply length_map_delete.
Qed.

Lemma steady_cleanupOldTransactions now p : steady p (cleanupOldTransactions now p).
Proof.
  split; [reflexivity|]. split; [reflexivity|]. split; [auto|]. split; [|auto].
  unfold logOk, cleanupOldTransactions; simpl. intros H.
  rewrite List.Forall_forall in *. intros t Ht.
  apply List.filter_In in Ht as [Ht _]. now apply H.
Qed.

Lemma steady_cleanupInactivePlayers now p : steady p (cleanupInactivePlayers now p).
Proof.
  unfold cleanupInactivePlayers. apply steady_fold. intros q e.
  destruct (pheap q !! e.2) as [P|]; [|apply steady_refl].
  destruct (_ && _); [|apply steady_refl].
  apply steady_mutatePlayer. intros P' _ H. exact H.
Qed.

Lemma steady_processCleanup now p : steady p (processCleanup now p).
Proof.
  unfold processCleanup.
  eapply steady_trans; [|apply steady_cleanupInactivePlayers].
  eapply steady_trans; [|apply steady_cleanupOldTransactions].
  apply steady_cleanupExpiredSessions.
Qed.

Lemma steady_start p : steady p (startAutomatedProcessing p).
Proof.
  unfold startAutomatedProcessing.
  destruct (isRunning p); [apply steady_refl | now apply steady_frame].
Qed.

Lemma game_stop_pheap p : pheap (stop p) = pheap p.
Proof.
  unfold stop.
  assert (G : forall hs q,
            pheap (fold_left (fun q h => clearInterval h q) hs q) = pheap q).
  { induction hs as [|h0 hs IH]; intros q; simpl; [reflexivity|]. now rewrite IH. }
  apply (G _ (withRunning false p)).
Qed.

Lemma game_stop_mheap p : mheap (stop p) = mheap p.
Proof.
  unfold stop.
  assert (G : forall hs q,
            mheap (fold_left (fun q h => clearInterval h q) hs q) = mheap q).
  { induction hs as [|h0 hs IH]; intros q; simpl; [reflexivity|]. now rewrite IH. }
  apply (G _ (withRunning false p)).
Qed.

Lemma steady_stop p : steady p (stop p).
Proof.
  apply steady_frame; rewrite ?game_stop_state; try reflexivity.
  - apply game_stop_pheap.
  - apply game_stop_mheap.
Qed.

(** ** The invariants, one by one *)

Definition keeps (p q : GameProcessor) : Prop :=
  (solvent p -> solvent q) /\ (logOk p -> logOk q)
  /\ (capped p -> capped q) /\ (queueOk p -> queueOk q)
  /\ (shaped p -> shaped q).

Lemma steady_keeps p q : steady p q -> keeps p q.
Proof.
  intros (Q & L & S & G & F). unfold keeps, capped, queueOk. rewrite Q.
  split; [auto|]. split; [auto|]. split; [lia|]. split; auto.
Qed.

Lemma length_map_set {V} k (v : V) l :
  (length (JS.map_set k v l) <= S (length l))%nat.
Proof.
  induction l as [|[k' v'] l IH]; simpl; [lia|].
  destruct (String.eqb k' k); simpl; lia.
Qed.

(** A new match: one more entry at most. *)
Lemma createAutomaticMatch_grows k now a b p :
  let q := createAutomaticMatch k now a b p in
  matchQueue (state q) = matchQueue (state p)
  /\ (length (matches (state q)) <= S (length (matches (state p))))%nat
  /\ (solvent p -> solvent q) /\ (logOk p -> logOk q) /\ (shaped p -> shaped q).
Proof.
  unfold createAutomaticMatch, allocMatch. cbv beta iota zeta.
  match goal with |- context [setMatchTimer k (processAutomaticBetDeduction now ?m ?p2)] =>
    pose proof (steady_trans _ _ _ (steady_processAutomaticBetDeduction now m p2)
                  (steady_setMatchTimer k _)) as (Q & L & S & G & F)
  end.
  simpl in Q, L, S, G. split; [exact Q|]. split; [|split; [|split]].
  - eapply Nat.le_trans; [exact L | apply length_map_set].
  - intros H. apply S. exact H.
  - intros H. apply G. exact H.
  - intros H. apply F. intros m M. simpl.
    destruct (Nat.eq_dec (nextRef p) m) as [<-|Hne].
    + rewrite lookup_insert_eq. intros [= <-]. split; [discriminate | reflexivity].
    + rewrite lookup_insert_ne by exact Hne. apply H.
Qed.

(** The loop of the queue tick, started on the queue of the state. *)
Lemma pairQueue_spec now ids : forall n queue i p,
  (length queue <= n)%nat -> matchQueue (state p) = queue ->
  let q := pairQueue now ids i queue p in
  keeps p q
  /\ (exists pre, queue = pre ++ matchQueue (state q) /\ Nat.Even (length pre))
  /\ ((length (matchQueue (state q)) < 2)%nat
      \/ (100 <= length (matches (state q)))%nat).
Proof.
  induction n as [|n IH]; intros queue i p Hn Hq.
  - destruct queue as [|? ?]; [|simpl in Hn; lia]. simpl.
    split; [apply steady_keeps, steady_refl|]. rewrite Hq. split.
    + exists []. split; [reflexivity | now exists 0%nat].
    + left. simpl. lia.
  - destruct queue as [|a [|b rest]].
    + simpl. split; [apply steady_keeps, steady_refl|]. rewrite Hq. split.
      * exists []. split; [reflexivity | now exists 0%nat].
      * left. simpl. lia.
    + simpl. split; [apply steady_keeps, steady_refl|]. rewrite Hq. split.
      * exists []. split; [reflexivity | now exists 0%nat].
      * left. simpl. lia.
    + cbn [pairQueue].
      destruct (Z.of_nat (length (matches (state p))) <? maxConcurrentMatches config) eqn:L.
      * apply Z.ltb_lt in L. simpl in L.
        set (p1 := withState (setMatchQueue rest) p).
        match goal with |- context [pairQueue now ids (S i) rest ?x] => set (p2 := x) end.
        assert (H2 : matchQueue (state p2) = rest
                     /\ (length (matches (state p2)) <= S (length (matches (state p))))%nat
                     /\ (solvent p -> solvent p2) /\ (logOk p -> logOk p2)
                     /\ (shaped p -> shaped p2)).
        { unfold p2.
          destruct (JS.map_get a (statePlayers (state p1))) as [x|];
            [destruct (JS.map_get b (statePlayers (state p1))) as [y|]|].
          - destruct (createAutomaticMatch_grows (ids i) now x y p1)
              as (Q & Lg & S & G & F).
            split; [exact Q|]. split; [exact Lg|]. split; [exact S|].
            split; [exact G | exact F].
          - split; [reflexivity|]. split; [simpl; lia|]. auto.
          - split; [reflexivity|]. split; [simpl; lia|]. auto. }
        destruct H2 as (Q2 & L2 & S2 & G2 & F2).
        destruct (IH rest (S i) p2)
          as ((Ks & Kl & Kc & Kq & Kf) & (pre & Epre & Eev) & Hend).
        { simpl in Hn. lia. }
        { exact Q2. }
        split; [|split].
        -- split; [auto|]. split; [auto|]. split; [|split; [|auto]].
           ++ intros _. apply Kc. unfold capped. lia.
           ++ intros Hd. apply Kq. unfold queueOk in *. rewrite Q2. rewrite Hq in Hd.
              apply List.NoDup_cons_iff in Hd as [_ Hd].
              apply List.NoDup_cons_iff in Hd as [_ Hd]. exact Hd.
        -- exists (a :: b :: pre). split; [simpl; now rewrite <- Epre|].
           destruct Eev as [c Ec]. exists (S c). simpl. lia.
        -- exact Hend.
      * apply Z.ltb_ge in L. simpl in L.
        split; [apply steady_keeps, steady_refl|]. rewrite Hq. split.
        -- exists []. split; [reflexivity | now exists 0%nat].
        -- right. lia.
Qed.

Lemma keeps_processMatchQueue now ids p : keeps p (processMatchQueue now ids p).
Proof.
  unfold processMatchQueue.
  now destruct (pairQueue_spec now ids (length (matchQueue (state p)))
                  (matchQueue (state p)) 0 p (Nat.le_refl _) eq_refl) as [K _].
Qed.

Lemma keeps_fire h now coin ids p : keeps p (fire h now coin ids p).
Proof.
  unfold fire. destruct (timerTask h p) as [[[]|k|]|].
  - apply steady_keeps, steady_processMainLoop.
  - apply steady_keeps, steady_processCleanup.
  - apply keeps_processMatchQueue.
  - apply steady_keeps, steady_processTransactions.
  - apply steady_keeps, steady_refl.
  - apply steady_keeps. eapply steady_trans; [|apply steady_endMatch].
    now apply steady_frame.
  - apply steady_keeps. eapply steady_trans; [|apply steady_start].
    now apply steady_frame.
  - apply steady_keeps, steady_refl.
Qed.

(** Players are created with a balance that is not negative. *)
Definition playersFunded (a : Action) : Prop :=
  match a with
  | CreatePlayer _ _ _ balance => 0 <= balance
  | _ => True
  end.

Lemma exec_keeps a p :
  (playersFunded a -> solvent p -> solvent (exec a p))
  /\ (logOk p -> logOk (exec a p))
  /\ (capped p -> capped (exec a p))
  /\ (queueOk p -> queueOk (exec a p))
  /\ (shaped p -> shaped (exec a p)).
Proof.
  destruct a; cbn [exec].
  - split; [|split; [auto|split; [auto|split; auto]]].
    intros Hb Hs r P. unfold createPlayer, allocPlayer; simpl.
    destruct (Nat.eq_dec (nextRef p) r) as [<-|Hne].
    + rewrite lookup_insert_eq. intros [= <-]. exact Hb.
    + rewrite lookup_insert_ne by exact Hne. exact (Hs r P).
  - unfold addPlayerToQueue. destruct (existsb _ _) eqn:E; [tauto|].
    split; [auto|]. split; [auto|]. split; [auto|]. split; [|auto].
    unfold queueOk; simpl. intros Hd. apply List.NoDup_app; [exact Hd | repeat constructor; intros [] |].
    intros x Hx [<-|[]].
    assert (Ht : existsb (String.eqb pid) (matchQueue (state p)) = true).
    { apply existsb_exists. exists pid. split; [exact Hx | apply String.eqb_refl]. }
    congruence.
  - destruct (steady_keeps _ _ (steady_stop p)) as (? & ? & ? & ? & ?). tauto.
  - unfold restart.
    destruct (steady_keeps _ _ (steady_stop p)) as (? & ? & ? & ? & ?). tauto.
  - destruct (keeps_fire h now coin ids p) as (? & ? & ? & ? & ?). tauto.
Qed.

Lemma create_sound :
  solvent create /\ logOk create /\ capped create /\ queueOk create /\ shaped create.
Proof.
  split; [|split; [|split; [|split]]].
  - intros r P. simpl. now rewrite lookup_empty.
  - constructor.
  - unfold capped. simpl. lia.
  - constructor.
  - intros m M. simpl. now rewrite lookup_empty.
Qed.

Lemma reachable_sound p : reachable p -> logOk p /\ capped p /\ queueOk p /\ shaped p.
Proof.
  induction 1 as [|a p Hp (Hl & Hc & Hq & Hs)].
  - destruct create_sound as (_ & ? & ? & ? & ?). auto.
  - destruct (exec_keeps a p) as (_ & ? & ? & ? & ?). auto.
Qed.

Lemma run_solvent acts : forall p,
  Forall playersFunded acts -> solvent p -> solvent (run acts p).
Proof.
  induction acts as [|a acts IH]; intros p Hf Hs; simpl; [exact Hs|].
  apply List.Forall_cons_iff in Hf as [Ha Hf].
  apply IH; [exact Hf|]. destruct (exec_keeps a p) as (H & _). auto.
Qed.

End GameSound.

(** * More about GameProcessor *)

Module GameMore.
Import Game GameFacts GameKeys GameSound.

(** A match between alice (25) and bob (10), played to its end: created by
    the queue tick, ended by its timer, paid by the sweep. *)
Definition play : list Action :=
  [CreatePlayer "alice" 0 "Alice" 25; CreatePlayer "bob" 0 "Bob" 10;
   AddPlayerToQueue "alice"; AddPlayerToQueue "bob";
   Fire 3%nat 1000 heads (named "m1");
   Fire 6%nat 61000 heads (named "m1");
   Fire 1%nat 62000 heads (named "m1")].

(** X20. When every player is created with a balance that is not
    negative, no player of the game processor is ever overdrawn: a bet is
    taken only from a balance of at least 10, and payouts and refunds
    add. *)
Theorem game_balances_never_negative (acts : list Action) (r : pref) (P : Player) :
  Forall playersFunded acts ->
  pheap (run acts create) !! r = Some P ->
  0 <= walletBalance P.
Proof.
  intros Hf. apply (run_solvent acts create Hf). now destruct create_sound.
Qed.

Lemma game_balances_never_negative_witness :
  Forall playersFunded play
  /\ pheap (run play create) !! 1%nat = Some (mkPlayer "bob" "Bob" 0 "online" (Some 0))
  /\ 0 <= walletBalance (mkPlayer "bob" "Bob" 0 "online" (Some 0)).
Proof.
  assert (Hf : Forall playersFunded play) by (repeat constructor; simpl; lia).
  assert (Hb : pheap (run play create) !! 1%nat =
               Some (mkPlayer "bob" "Bob" 0 "online" (Some 0))) by reflexivity.
  split; [exact Hf|]. split; [exact Hb|].
  exact (game_balances_never_negative play 1%nat _ Hf Hb).
Defined.

(** X21. In every reachable state the log of the game processor holds
    only completed entries: bets of -10, wins of 16 and refunds of 10.
    The server fee of 4 is never logged (creditDeveloperFee only writes to
    the console), and the transaction tick, which completes pending
    entries, finds none and leaves the log as it is. *)
Theorem game_log_holds_bets_wins_refunds (p : GameProcessor) :
  reachable p ->
  Forall (fun t => t_status t = SCompleted
                   /\ (type t = TBet /\ amount t = -10
                       \/ type t = TWin /\ amount t = 16
                       \/ type t = TRefund /\ amount t = 10))
         (transactions (state p))
  /\ transactions (state (processTransactions p)) = transactions (state p).
Proof.
  intros Hr. destruct (reachable_sound p Hr) as (Hl & _ & _ & _).
  split; [exact Hl|].
  unfold processTransactions; simpl. unfold logOk in Hl.
  induction Hl as [|t l [Hs _] _ IH]; simpl; [reflexivity|].
  now rewrite Hs, IH.
Qed.

Lemma game_log_holds_bets_wins_refunds_witness :
  reachable (run play create)
  /\ List.map amount (transactions (state (run play create))) = [-10; -10; 16]
  /\ transactions (state (processTransactions (run play create))) =
     transactions (state (run play create)).
Proof.
  split; [apply game_reachable_run|]. split; [reflexivity|].
  now destruct (game_log_holds_bets_wins_refunds _ (game_reachable_run play)).
Defined.

(** X22. In every reachable state getSystemStats reports at most 100
    matches, the limit of the queue tick, and never more active matches
    than matches. *)
Theorem at_most_100_matches (p : GameProcessor) :
  reachable p ->
  (activeMatches (getSystemStats p) <= totalMatches (getSystemStats p) <= 100)%nat.
Proof.
  intros Hr. destruct (reachable_sound p Hr) as (_ & Hc & _ & _).
  split; [|exact Hc]. unfold getSystemStats; simpl.
  unfold JS.map_values. rewrite <- (length_map snd (matches (state p))).
  apply List.filter_length_le.
Qed.

Lemma at_most_100_matches_witness :
  reachable (run play create)
  /\ (totalMatches (getSystemStats (run play create)) <= 100)%nat.
Proof.
  split; [apply game_reachable_run|].
  now destruct (at_most_100_matches _ (game_reachable_run play)).
Defined.

(** X23. In every reachable state a player waits in the match queue at
    most once, and addPlayerToQueue for a player who is waiting changes
    nothing. *)
Theorem queue_has_no_duplicates (p : GameProcessor) :
  reachable p ->
  List.NoDup (matchQueue (state p))
  /\ forall pid, In pid (matchQueue (state p)) -> addPlayerToQueue pid p = p.
Proof.
  intros Hr. destruct (reachable_sound p Hr) as (_ & _ & Hq & _).
  split; [exact Hq|]. intros pid Hin. unfold addPlayerToQueue.
  assert (E : existsb (String.eqb pid) (matchQueue (state p)) = true).
  { apply existsb_exists. exists pid. split; [exact Hin | apply String.eqb_refl]. }
  now rewrite E.
Qed.

Lemma queue_has_no_duplicates_witness :
  let waiting := run [AddPlayerToQueue "alice"; AddPlayerToQueue "alice";
                      AddPlayerToQueue "bob"; AddPlayerToQueue "alice"] create in
  reachable waiting /\ matchQueue (state waiting) = ["alice"; "bob"]
  /\ List.NoDup (matchQueue (state waiting)).
Proof.
  cbv zeta. split; [apply game_reachable_run|]. split; [reflexivity|].
  now destruct (queue_has_no_duplicates _
                  (game_reachable_run [AddPlayerToQueue "alice"; AddPlayerToQueue "alice";
                                       AddPlayerToQueue "bob"; AddPlayerToQueue "alice"])).
Defined.

(** X24. The queue tick takes players from the front of the queue two at
    a time and stops only when fewer than two are left or the match map
    holds 100 matches: what is left is a suffix of the queue, and the
    number of players taken is even. *)
Theorem queue_tick_pairs_until_short_or_full (now : Z) (ids : nat -> string)
    (p : GameProcessor) :
  let q := processMatchQueue now ids p in
  (exists taken, matchQueue (state p) = taken ++ matchQueue (state q)
                 /\ Nat.Even (length taken))
  /\ ((queueLength (getSystemStats q) < 2)%nat
      \/ (100 <= totalMatches (getSystemStats q))%nat).
Proof.
  unfold processMatchQueue.
  destruct (pairQueue_spec now ids (length (matchQueue (state p)))
              (matchQueue (state p)) 0 p (Nat.le_refl _) eq_refl) as (_ & H1 & H2).
  split; [exact H1 | exact H2].
Qed.

(** ** Payout *)

Definition winTx (now : Z) (i pid : string) : Transaction :=
  mkTx (txId "win" i pid now) pid TWin (winnerPayout config) SCompleted i now.

Definition pay (P : Player) : Player :=
  setWalletBalance (walletBalance P + winnerPayout config) P.

Lemma finishing_visit (now : Z) (coin : bool) (k : string) (m : mref)
    (p : GameProcessor) (M : Match) (a b : pref) :
  mheap p !! m = Some M -> status M = Finishing -> players M = [a; b] ->
  let w := if coin then b else a in
  let q := processMatchState now coin k m p in
  mheap q = alter (fun M => setEndTime now (setStatus Completed (setWinner w M))) m (mheap p)
  /\ pheap q = alter pay w (pheap p)
  /\ transactions (state q) =
     transactions (state p) ++ [winTx now (id M) (playerIdOf p w)]
  /\ matches (state q) = matches (state p)
  /\ timers q = timers p /\ intervals q = intervals p.
Proof.
  intros H Hs Hp w q. subst q.
  unfold processMatchState. rewrite H, Hs.
  unfold processFinishingMatch. rewrite H.
  unfold determineMatchWinner. rewrite Hp. fold w.
  unfold processAutomaticPayout, mutateMatch; simpl.
  rewrite lookup_alter_eq, H. simpl.
  unfold creditDeveloperFee, createTransaction, mutatePlayer; simpl.
  repeat split.
  unfold winTx. f_equal. f_equal.
  assert (E : forall x y, playerIdOf x w = playerIdOf y w -> 
              mkTx (txId "win" (id M) (playerIdOf x w) now) (playerIdOf x w) TWin
                   (winnerPayout config) SCompleted (id M) now =
              mkTx (txId "win" (id M) (playerIdOf y w) now) (playerIdOf y w) TWin
                   (winnerPayout config) SCompleted (id M) now) by (intros x y ->; reflexivity).
  apply E. unfold playerIdOf; simpl. rewrite lookup_alter_eq.
  now destruct (pheap p !! w).
Qed.

Lemma completed_visit now coin k m p M :
  mheap p !! m = Some M -> status M = Completed ->
  let q := processMatchState now coin k m p in
  mheap q = mheap p /\ pheap q = pheap p
  /\ transactions (state q) = transactions (state p).
Proof.
  intros H Hs q. subst q. unfold processMatchState. rewrite H, Hs.
  unfold processCompletedMatch. rewrite H.
  destruct (_ && _); [|now repeat split].
  unfold cleanupMatch.
  destruct (JS.map_get _ _) as [t|]; [destruct (Nat.eqb t 0)|]; now repeat split.
Qed.



(** ** The match timer *)

(** A match that is cancelled when it is created: bob cannot pay. *)
Definition unpaid : GameProcessor :=
  run [CreatePlayer "alice" 0 "Alice" 100; CreatePlayer "bob" 0 "Bob" 5;
       AddPlayerToQueue "alice"; AddPlayerToQueue "bob";
       Fire 3%nat 1000 heads (named "m1")] create.

(** X26. The match timer makes its match finishing whatever the status
    of the match is, and the next visit of the sweep pays it: a match of
    two players that was cancelled, or one that was completed and paid
    before, is completed with a winner who receives 16. *)
Theorem match_timer_reopens_any_match (h : handle) (t1 t2 : Z) (coin : bool)
    (coins : string -> bool) (ids : nat -> string) (k : string) (m : mref)
    (p : GameProcessor) (M : Match) (a b : pref) :
  timerTask h p = Some (MatchTimer k) ->
  JS.map_get k (matches (state p)) = Some m ->
  mheap p !! m = Some M -> players M = [a; b] ->
  let w := if coin then b else a in
  let p1 := fire h t1 coins ids p in
  let q := processMatchState t2 coin k m p1 in
  mheap p1 !! m = Some (setStatus Finishing M)
  /\ mheap q !! m =
     Some (setEndTime t2 (setStatus Completed (setWinner w (setStatus Finishing M))))
  /\ pheap q = alter pay w (pheap p)
  /\ transactions (state q) =
     transactions (state p) ++ [winTx t2 (id M) (playerIdOf p w)].
Proof.
  intros Ht Hk H Hp w p1 q.
  assert (E1 : p1 = mutateMatch m (setStatus Finishing) (clearInterval h p)).
  { unfold p1, fire. rewrite Ht. unfold endMatch.
    change (matches (state (clearInterval h p))) with (matches (state p)).
    now rewrite Hk. }
  assert (H1 : mheap p1 !! m = Some (setStatus Finishing M)).
  { rewrite E1. unfold mutateMatch; simpl. now rewrite lookup_alter_eq, H. }
  destruct (finishing_visit t2 coin k m p1 _ a b H1 eq_refl Hp) as (Hm & Hh & Hl & _).
  fold w q in Hm, Hh, Hl.
  split; [exact H1|]. split; [|split].
  - rewrite Hm, lookup_alter_eq, H1. reflexivity.
  - rewrite Hh, E1. reflexivity.
  - rewrite Hl, E1. reflexivity.
Qed.

Lemma match_timer_reopens_any_match_witness :
  status <$> mheap unpaid !! 2%nat = Some Cancelled
  /\ walletBalance <$> pheap unpaid !! 1%nat = Some 5
  /\ walletBalance <$>
       pheap (processMatchState 62000 true "m1" 2%nat
                (fire 6%nat 61000 heads (named "m1") unpaid)) !! 1%nat = Some 21.
Proof.
  split; [reflexivity|]. split; [reflexivity|].
  destruct (match_timer_reopens_any_match 6%nat 61000 62000 true heads (named "m1")
              "m1" 2%nat unpaid
              (mkMatch "m1" [0%nat; 1%nat] Cancelled (Some 1000) (Some 1000) (Some 1000)
                       (Some 60000) 10 None) 0%nat 1%nat
              eq_refl eq_refl eq_refl eq_refl) as (_ & _ & Hh & _).
  rewrite Hh. reflexivity.
Defined.


(** X27. In every reachable state each match object has exactly two
    players and is never waiting: matches are only created by the queue
    tick, active and with both players.  So the search of an opponent for
    a waiting match never runs, and a visit of the sweep to a finishing
    match always pays it: the match is completed, with one of its two
    players as the winner. *)
Theorem every_match_has_two_players (p : GameProcessor) (m : mref) (M : Match) :
  reachable p -> mheap p !! m = Some M ->
  status M <> Waiting
  /\ (exists a b, players M = [a; b])
  /\ (status M = Finishing ->
      forall now coin k,
        exists w, In w (players M)
          /\ mheap (processMatchState now coin k m p) !! m =
             Some (setEndTime now (setStatus Completed (setWinner w M)))).
Proof.
  intros Hr H. destruct (reachable_sound p Hr) as (_ & _ & _ & Hs).
  destruct (Hs m M H) as [Hw Hl].
  assert (Hp : exists a b, players M = [a; b]).
  { destruct (players M) as [|a [|b [|c l]]]; try discriminate. now exists a, b. }
  split; [exact Hw|]. split; [exact Hp|].
  intros Hf now coin k. destruct Hp as (a & b & Hp).
  destruct (finishing_visit now coin k m p M a b H Hf Hp) as (Hm & _).
  exists (if coin then b else a). split.
  - rewrite Hp. destruct coin; simpl; auto.
  - rewrite Hm, lookup_alter_eq, H. reflexivity.
Qed.

Lemma every_match_has_two_players_witness :
  reachable unpaid
  /\ mheap unpaid !! 2%nat =
     Some (mkMatch "m1" [0%nat; 1%nat] Cancelled (Some 1000) (Some 1000) (Some 1000)
                   (Some 60000) 10 None)
  /\ exists a b, [0%nat; 1%nat] = [a; b].
Proof.
  split; [apply game_reachable_run|]. split; [reflexivity|].
  destruct (every_match_has_two_players unpaid 2%nat _
              (game_reachable_run _) eq_refl) as (_ & H & _).
  exact H.
Defined.


(** ** Bet deduction *)

Definition canPay (P : Player) : bool := cfg_betAmount config <=? walletBalance P.

Definition debit (P : Player) : Player :=
  setWalletBalance (walletBalance P - cfg_betAmount config) P.

Definition betTx (now : Z) (k pid : string) : Transaction :=
  mkTx (txId "bet" k pid now) pid TBet (- cfg_betAmount config) SCompleted k now.

Lemma betOne_spec now k p r P :
  pheap p !! r = Some P ->
  betOne now k p r =
  if canPay P
  then createTransaction (betTx now k (p_id P)) (mutatePlayer r debit p)
  else cancelMatch now k p.
Proof. intros H. unfold betOne. now rewrite H. Qed.

(** X28. The bet deduction of a new match treats each player on his
    own: a player who holds at least 10 is charged 10 and gets a bet
    entry, also when the other player cannot pay; a player who cannot pay
    is not charged.  The match stays active only when both paid, otherwise
    it is cancelled at once, and the stake already taken is not given
    back by the deduction. *)
Theorem bet_deduction_charges_each_funded_player (k : string) (now : Z) (a b : pref)
    (p : GameProcessor) (A B : Player) :
  a <> b -> pheap p !! a = Some A -> pheap p !! b = Some B ->
  let q := createAutomaticMatch k now a b p in
  pheap q !! a = Some (if canPay A then debit A else A)
  /\ pheap q !! b = Some (if canPay B then debit B else B)
  /\ transactions (state q) =
     transactions (state p)
     ++ (if canPay A then [betTx now k (p_id A)] else [])
     ++ (if canPay B then [betTx now k (p_id B)] else [])
  /\ JS.map_get k (matches (state q)) = Some (nextRef p)
  /\ status <$> mheap q !! nextRef p =
     Some (if canPay A && canPay B then Active else Cancelled).
Proof.
  intros Hne HA HB q. subst q.
  unfold createAutomaticMatch, allocMatch. cbv beta iota zeta.
  rewrite matches_setMatchTimer.
  change (pheap (setMatchTimer k ?x)) with (pheap x).
  change (mheap (setMatchTimer k ?x)) with (mheap x).
  change (transactions (state (setMatchTimer k ?x))) with (transactions (state x)).
  rewrite matches_processAutomaticBetDeduction.
  unfold processAutomaticBetDeduction. simpl mheap. rewrite lookup_insert_eq.
  simpl players. simpl id. simpl fold_left.
  match goal with |- context [betOne now k ?x a] => set (p2 := x) end.
  assert (Hk : JS.map_get k (matches (state p2)) = Some (nextRef p))
    by apply WalletFacts.map_set_get.
  rewrite (betOne_spec now k p2 a A HA).
  destruct (canPay A) eqn:EA.
  - rewrite (betOne_spec now k _ b B)
      by (simpl; rewrite lookup_alter_ne by exact Hne; exact HB).
    destruct (canPay B) eqn:EB; simpl.
    + rewrite lookup_alter_ne by auto. rewrite !lookup_alter_eq.
      rewrite lookup_alter_ne by auto. rewrite HA, HB, lookup_insert_eq.
      rewrite <- List.app_assoc. now repeat split.
    + unfold cancelMatch. simpl. rewrite WalletFacts.map_set_get. simpl.
      rewrite !lookup_alter_eq, lookup_alter_ne by auto. rewrite HA, HB, lookup_insert_eq.
      rewrite ?app_nil_r. now repeat split.
  - assert (Ec : cancelMatch now k p2 =
                 mutateMatch (nextRef p)
                   (fun M => setEndTime now (setStatus Cancelled M)) p2)
      by (unfold cancelMatch; now rewrite Hk).
    rewrite Ec. rewrite (betOne_spec now k _ b B) by exact HB.
    destruct (canPay B) eqn:EB; simpl.
    + rewrite lookup_alter_ne by auto. rewrite !lookup_alter_eq. rewrite HA, HB.
      rewrite lookup_insert_eq. now repeat split.
    + unfold cancelMatch. simpl. rewrite WalletFacts.map_set_get. simpl.
      rewrite !lookup_alter_eq. rewrite HA, HB, lookup_insert_eq.
      rewrite ?app_nil_r. now repeat split.
Qed.


(** Alice cannot pay, bob can. *)
Definition twoPlayers : GameProcessor :=
  run [CreatePlayer "alice" 0 "Alice" 5; CreatePlayer "bob" 0 "Bob" 100] create.

Lemma bet_deduction_charges_each_funded_player_witness :
  let q := createAutomaticMatch "m1" 1000 0%nat 1%nat twoPlayers in
  walletBalance <$> pheap q !! 0%nat = Some 5
  /\ walletBalance <$> pheap q !! 1%nat = Some 90
  /\ status <$> mheap q !! 2%nat = Some Cancelled.
Proof.
  cbv zeta.
  destruct (bet_deduction_charges_each_funded_player "m1" 1000 0%nat 1%nat twoPlayers
              (mkPlayer "alice" "Alice" 5 "online" (Some 0))
              (mkPlayer "bob" "Bob" 100 "online" (Some 0)))
    as (Ha & Hb & _ & _ & Hs); [discriminate | reflexivity | reflexivity |].
  split; [exact (f_equal (fmap walletBalance) Ha)|].
  split; [exact (f_equal (fmap walletBalance) Hb) | exact Hs].
Defined.

(** ** The clock of an active match *)

(** X29. A visit of the sweep to an active match moves no money.  When
    the match has a start time (one that is not 0) it sets timeRemaining
    to 60000 minus the time elapsed, not below 0, and makes the match
    finishing once 60000 ms have elapsed; a match without a start time is
    left as it is and never finishes by the sweep. *)
Theorem active_match_finishes_after_60s (now : Z) (coin : bool) (k : string) (m : mref)
    (p : GameProcessor) (M : Match) :
  JS.map_get k (matches (state p)) = Some m ->
  mheap p !! m = Some M -> status M = Active ->
  let q := processMatchState now coin k m p in
  let elapsed := now - JS.orZero (startTime M) in
  let M' := setTimeRemaining (Z.max 0 (60000 - elapsed)) M in
  pheap q = pheap p
  /\ transactions (state q) = transactions (state p)
  /\ matches (state q) = matches (state p)
  /\ mheap q !! m =
     Some (if JS.truthy (startTime M)
           then if 60000 <=? elapsed then setStatus Finishing M' else M'
           else M).
Proof.
  intros Hk H Hs q elapsed M'. subst q.
  unfold processMatchState. rewrite H, Hs.
  unfold processActiveMatch. rewrite H.
  destruct (JS.truthy (startTime M)); simpl negb; cbv iota; [|now repeat split].
  fold elapsed. change (matchDuration config) with 60000.
  assert (E : (60000 - elapsed <=? 0) = (60000 <=? elapsed)).
  { destruct (60000 <=? elapsed) eqn:L.
    - apply Z.leb_le in L. apply Z.leb_le. lia.
    - apply Z.leb_gt in L. apply Z.leb_gt. lia. }
  rewrite E. destruct (60000 <=? elapsed).
  - unfold endMatch.
    change (matches (state (mutateMatch m ?f p))) with (matches (state p)).
    rewrite Hk. unfold mutateMatch; simpl.
    rewrite !lookup_alter_eq, H. now repeat split.
  - unfold mutateMatch; simpl. rewrite lookup_alter_eq, H. now repeat split.
Qed.

Lemma active_match_finishes_after_60s_witness :
  let p := run (firstn 5 play) create in
  status <$> mheap p !! 2%nat = Some Active
  /\ timeRemaining <$> mheap (processMatchState 31000 false "m1" 2%nat p) !! 2%nat =
     Some (Some 30000)
  /\ status <$> mheap (processMatchState 61000 false "m1" 2%nat p) !! 2%nat =
     Some Finishing.
Proof.
  cbv zeta. split; [reflexivity|].
  pose proof (fun now => active_match_finishes_after_60s now false "m1" 2%nat
                           (run (firstn 5 play) create)
                           (mkMatch "m1" [0%nat; 1%nat] Active (Some 1000) (Some 1000) None
                                    (Some 60000) 10 None) eq_refl eq_refl eq_refl) as H.
  split.
  - destruct (H 31000) as (_ & _ & _ & E). exact (f_equal (fmap timeRemaining) E).
  - destruct (H 61000) as (_ & _ & _ & E). exact (f_equal (fmap status) E).
Defined.


(** ** The cleanup tick *)

(** [q] has the balances, the match objects, the timers and the log of
    [p], and no match that [p] does not have. *)
Definition tidy (p q : GameProcessor) : Prop :=
  (forall r, walletBalance <$> pheap q !! r = walletBalance <$> pheap p !! r)
  /\ mheap q = mheap p /\ timers q = timers p /\ intervals q = intervals p
  /\ transactions (state q) = transactions (state p)
  /\ (forall e, In e (matches (state q)) -> In e (matches (state p))).

Lemma tidy_refl p : tidy p p.
Proof. unfold tidy. auto 10. Qed.

Lemma tidy_trans p q r : tidy p q -> tidy q r -> tidy p r.
Proof.
  intros (A1 & A2 & A3 & A4 & A5 & A6) (B1 & B2 & B3 & B4 & B5 & B6).
  split; [intros x; now rewrite B1|].
  split; [congruence|]. split; [congruence|]. split; [congruence|].
  split; [congruence | auto].
Qed.

Lemma tidy_fold {X} (f : GameProcessor -> X -> GameProcessor) l :
  (forall q x, tidy q (f q x)) -> forall p, tidy p (fold_left f l p).
Proof.
  intros Hf. induction l as [|x l IH]; intros p; simpl; [apply tidy_refl|].
  eapply tidy_trans; [apply Hf | apply IH].
Qed.

Lemma tidy_cleanupExpiredSessions now p : tidy p (cleanupExpiredSessions now p).
Proof.
  unfold cleanupExpiredSessions. apply tidy_fold. intros q e.
  destruct (mheap q !! e.2) as [M|]; [|apply tidy_refl].
  destruct (_ && _); [|apply tidy_refl].
  unfold tidy; simpl. split; [reflexivity|]. split; [reflexivity|]. split; [reflexivity|].
  split; [reflexivity|]. split; [reflexivity|].
  intros [k m] H. now apply map_delete_In in H.
Qed.

Lemma tidy_cleanupInactivePlayers now p : tidy p (cleanupInactivePlayers now p).
Proof.
  unfold cleanupInactivePlayers. apply tidy_fold. intros q e.
  destruct (pheap q !! e.2) as [P|]; [|apply tidy_refl].
  destruct (_ && _); [|apply tidy_refl].
  unfold tidy; simpl. split; [|split; [reflexivity|]; split; [reflexivity|];
    split; [reflexivity|]; split; [reflexivity | auto]].
  intros r. rewrite lookup_alter. destruct (decide (e.2 = r)) as [<-|]; [|reflexivity].
  destruct (pheap q !! e.2); reflexivity.
Qed.

(** X30. The cleanup tick moves no money and touches no timer: it drops
    the log entries that are 30 days old or older, removes matches created
    more than 24 hours ago from the match map, and marks players inactive.
    A match that it removes keeps its timer and its entry in intervals,
    unlike a match removed by the sweep. *)
Theorem cleanup_tick_moves_no_money (now : Z) (p : GameProcessor) :
  let q := processCleanup now p in
  (forall r, walletBalance <$> pheap q !! r = walletBalance <$> pheap p !! r)
  /\ transactions (state q) =
     List.filter (fun t => now - timestamp t <? 30 * 24 * 60 * 60 * 1000)
       (transactions (state p))
  /\ mheap q = mheap p /\ timers q = timers p /\ intervals q = intervals p
  /\ (forall e, In e (matches (state q)) -> In e (matches (state p))).
Proof.
  unfold processCleanup. cbv zeta.
  destruct (tidy_cleanupExpiredSessions now p) as (A1 & A2 & A3 & A4 & A5 & A6).
  set (p1 := cleanupExpiredSessions now p) in *.
  destruct (tidy_cleanupInactivePlayers now (cleanupOldTransactions now p1))
    as (B1 & B2 & B3 & B4 & B5 & B6).
  set (q := cleanupInactivePlayers now (cleanupOldTransactions now p1)) in *.
  simpl in B1, B2, B3, B4, B5, B6.
  split; [intros r; now rewrite B1, A1|].
  split; [rewrite B5; simpl; now rewrite A5|].
  split; [congruence|]. split; [congruence|]. split; [congruence | auto].
Qed.

End GameMore.
